(** * TaskFlow: graph flows and the action engine's analyzer and runtime

    A shallow embedding of
      - taskflow/patterns/graph_flow.py          (module [graph_flow]),
      - taskflow/engines/action_engine/analyzer.py and
        taskflow/engines/action_engine/runtime.py (module [action_engine]),
    followed by the properties proved about them.

    Python objects that are mutated in place ([Flow._graph], the storage,
    the runtime's atom cache) are threaded explicitly through a small
    state-and-exception monad; loops whose termination depends on the shape
    of the graph take a fuel argument and the theorems show that enough fuel
    always exists. *)

From stdpp Require Import gmap strings list sets.
From Stdlib Require Import Lia.

(** ** Exceptions, outcomes and the state monad *)

Inductive Exn : Type :=
  | ValueError
  | KeyError
  | DependencyFailure
  | CompilationFailure.

(** What a call produces: a value, a raised exception, or (for the fuelled
    loops only) a loop that was cut before it finished. *)
Inductive outcome (A : Type) : Type :=
  | Return (a : A)
  | Raised (e : Exn)
  | OutOfFuel.
Arguments Return {A} a.
Arguments Raised {A} e.
Arguments OutOfFuel {A}.

Definition obind {A B : Type} (m : outcome A) (k : A → outcome B) : outcome B :=
  match m with
  | Return a => k a
  | Raised e => Raised e
  | OutOfFuel => OutOfFuel
  end.

(** A method of an object whose fields are [St]: it reads the fields,
    possibly writes them, and either returns or raises.  The state component
    of the answer is the object after the call, also when the call raised. *)
Definition M (St A : Type) : Type := St → St * outcome A.

Definition ret {St A : Type} (a : A) : M St A := λ s, (s, Return a).
Definition raise {St A : Type} (e : Exn) : M St A := λ s, (s, Raised e).
Definition get {St : Type} : M St St := λ s, (s, Return s).
Definition put {St : Type} (s' : St) : M St unit := λ _, (s', Return tt).
Definition lift {St A : Type} (o : outcome A) : M St A := λ s, (s, o).
Definition bind {St A B : Type} (m : M St A) (k : A → M St B) : M St B :=
  λ s, match m s with
       | (s', Return a) => k a s'
       | (s', Raised e) => (s', Raised e)
       | (s', OutOfFuel) => (s', OutOfFuel)
       end.

(** Both monads use stdpp's [x ← m; k] and [m;; k] notations. *)
#[global] Instance outcome_ret : MRet outcome := @Return.
#[global] Instance outcome_bind : MBind outcome := λ A B k m, obind m k.
#[global] Instance M_ret {St} : MRet (M St) := @ret St.
#[global] Instance M_bind {St} : MBind (M St) := λ A B k m, bind m k.

(** * taskflow/patterns/graph_flow.py *)

Module graph_flow.

(** An item of a graph flow: a task or a nested flow.  Python compares
    them by object identity ([item_id]); [provides] and [requires] are
    Python sets of symbol names. *)
Record Item : Type := mkItem {
  item_id : nat;
  item_name : string;
  provides : gset string;
  requires : gset string
}.

#[global] Instance Item_eq_dec : EqDecision Item.
Proof. solve_decision. Defined.

(** networkx's [DiGraph], restricted to what the flow uses: the nodes in
    [nodes_iter] order and the edges (no attributes in this file). *)
Record DiGraph : Type := mkDiGraph {
  g_nodes : list Item;
  g_edges : list (Item * Item)
}.

Definition empty_graph : DiGraph := mkDiGraph [] [].

Definition has_node (g : DiGraph) (n : Item) : bool :=
  bool_decide (n ∈ g_nodes g).

Definition has_edge (g : DiGraph) (u v : Item) : bool :=
  bool_decide ((u, v) ∈ g_edges g).

(** [add_node] leaves a graph that already has the node as it is. *)
Definition add_node (g : DiGraph) (n : Item) : DiGraph :=
  if has_node g n then g else mkDiGraph (g_nodes g ++ [n]) (g_edges g).

(** [add_edge] first makes sure both end points are nodes. *)
Definition add_edge (g : DiGraph) (u v : Item) : DiGraph :=
  let g1 := add_node (add_node g u) v in
  if has_edge g1 u v then g1
  else mkDiGraph (g_nodes g1) (g_edges g1 ++ [(u, v)]).

(** [dag.is_directed_acyclic_graph]: the library function is modelled by
    repeatedly discarding the edges that leave a node without incoming
    edge; the graph is acyclic exactly when no edge survives.  ([peel_sound]
    and [peel_complete] below relate it to cycles and topological ranks.) *)
Definition has_incoming (es : list (Item * Item)) (n : Item) : bool :=
  bool_decide (n ∈ es.*2).

Fixpoint peel (fuel : nat) (es : list (Item * Item)) : bool :=
  match es with
  | [] => true
  | _ :: _ =>
    match fuel with
    | 0 => false
    | S fuel' =>
      let es' := filter (λ e, has_incoming es e.1 = true) es in
      if bool_decide (length es' < length es) then peel fuel' es' else false
    end
  end.

Definition is_directed_acyclic_graph (g : DiGraph) : bool :=
  peel (length (g_edges g)) (g_edges g).

(** The flow object: its only mutable field is [_graph]. *)
Record Flow : Type := mkFlow {
  name : string;
  _graph : DiGraph
}.

(** [Flow.__init__] *)
Definition init (name : string) : Flow := mkFlow name empty_graph.

Definition set_graph (g : DiGraph) : M Flow unit :=
  self ← get; put (mkFlow (name self) g).

(** [Flow._validate] (always called with a graph). *)
Definition _validate (graph : DiGraph) : M Flow unit :=
  if negb (is_directed_acyclic_graph graph)
  then raise DependencyFailure
  else ret tt.

(** [Flow._swap] *)
Definition _swap (replacement_graph : DiGraph) : M Flow unit :=
  _validate replacement_graph;;
  set_graph replacement_graph.

(** [Flow.link] *)
Definition link (u v : Item) : M Flow unit :=
  self ← get;
  if negb (has_node (_graph self) u) then raise ValueError
  else if negb (has_node (_graph self) v) then raise ValueError
  else if has_edge (_graph self) u v then ret tt
  else
    let tmp_graph := add_edge (_graph self) u v in
    _swap tmp_graph.

(** The two dictionaries of [Flow.add]: [requirements] is a
    [defaultdict(list)], [provided] a plain dict. *)
Definition update_requirements (requirements : gmap string (list Item))
    (node : Item) : gmap string (list Item) :=
  foldl (λ req value, <[value := default [] (req !! value) ++ [node]]> req)
        requirements (elements (requires node)).

Definition scan_node (acc : gmap string (list Item) * gmap string Item)
    (node : Item) : gmap string (list Item) * gmap string Item :=
  (update_requirements acc.1 node,
   foldl (λ prov value, <[value := node]> prov) acc.2 (elements (provides node))).

(** [for value in item.provides: if value in provided: raise ...;
     provided[value] = item] *)
Fixpoint claim_provides (item : Item) (values : list string)
    (provided : gmap string Item) : outcome (gmap string Item) :=
  match values with
  | [] => Return provided
  | value :: values' =>
    match provided !! value with
    | Some _ => Raised DependencyFailure
    | None => claim_provides item values' (<[value := item]> provided)
    end
  end.

(** [for value in item.requires: if value in provided:
       tmp_graph.add_edge(provided[value], item)] *)
Definition link_providers (provided : gmap string Item) (item : Item)
    (tmp_graph : DiGraph) : DiGraph :=
  foldl (λ g value, match provided !! value with
                    | Some p => add_edge g p item
                    | None => g
                    end)
        tmp_graph (elements (requires item)).

(** [for value in item.provides: if value in requirements:
       for node in requirements[value]: tmp_graph.add_edge(item, node)] *)
Definition link_requirers (requirements : gmap string (list Item)) (item : Item)
    (tmp_graph : DiGraph) : DiGraph :=
  foldl (λ g value, match requirements !! value with
                    | Some nodes => foldl (λ g node, add_edge g item node) g nodes
                    | None => g
                    end)
        tmp_graph (elements (provides item)).

(** The [for item in items] loop of [Flow.add], on the local variables
    [tmp_graph], [requirements] and [provided]. *)
Fixpoint add_items (items : list Item) (tmp_graph : DiGraph)
    (requirements : gmap string (list Item)) (provided : gmap string Item)
    : outcome DiGraph :=
  match items with
  | [] => Return tmp_graph
  | item :: items' =>
    let tmp_graph := add_node tmp_graph item in
    let requirements := update_requirements requirements item in
    provided ← claim_provides item (elements (provides item)) provided;
    let tmp_graph := link_providers provided item tmp_graph in
    let tmp_graph := link_requirers requirements item tmp_graph in
    add_items items' tmp_graph requirements provided
  end.

(** [Flow.add] *)
Definition add (items : list Item) : M Flow unit :=
  self ← get;
  let items := filter (λ i, has_node (_graph self) i = false) items in
  match items with
  | [] => ret tt
  | _ :: _ =>
    let '(requirements, provided) :=
      foldl scan_node (∅, ∅) (g_nodes (_graph self)) in
    tmp_graph ← lift (add_items items (_graph self) requirements provided);
    _swap tmp_graph
  end.

(** [Flow.provides] and [Flow.requires] *)
Definition flow_provides (self : Flow) : gset string :=
  foldl (λ acc subflow, acc ∪ provides subflow) ∅ (g_nodes (_graph self)).

Definition flow_requires (self : Flow) : gset string :=
  foldl (λ acc subflow, acc ∪ requires subflow) ∅ (g_nodes (_graph self))
    ∖ flow_provides self.

(** One call of the flow construction surface. *)
Inductive Call : Type :=
  | CallLink (u v : Item)
  | CallAdd (items : list Item).

Definition run_call (c : Call) : M Flow unit :=
  match c with
  | CallLink u v => link u v
  | CallAdd items => add items
  end.

(** The flows that a program can hold: a fresh flow, then any sequence of
    [link]/[add] calls, whether they return or raise. *)
Inductive reachable : Flow → Prop :=
  | reachable_init name : reachable (init name)
  | reachable_call c self self' o :
      reachable self → run_call c self = (self', o) → reachable self'.

(** A cycle: a non-empty path from a node back to itself. *)
Inductive path (es : list (Item * Item)) : Item → Item → Prop :=
  | path_edge u v : (u, v) ∈ es → path es u v
  | path_step u v w : (u, v) ∈ es → path es v w → path es u w.

Definition acyclic (g : DiGraph) : Prop := ∀ n, ¬ path (g_edges g) n n.

(** A topological rank of the edges. *)
Definition topological (es : list (Item * Item)) (rank : Item → nat) : Prop :=
  ∀ u v, (u, v) ∈ es → rank u < rank v.

(** Every symbol has at most one provider among the nodes. *)
Definition unique_providers (g : DiGraph) : Prop :=
  ∀ p q s, p ∈ g_nodes g → q ∈ g_nodes g →
           s ∈ provides p → s ∈ provides q → p = q.

(** Every provider of a symbol is linked to every node requiring it. *)
Definition dependencies_linked (g : DiGraph) : Prop :=
  ∀ p c s, p ∈ g_nodes g → c ∈ g_nodes g →
           s ∈ provides p → s ∈ requires c → (p, c) ∈ g_edges g.

(** [c] is in the list that the [requirements] dictionary stores under [s]. *)
Definition requires_in (req : gmap string (list Item)) (s : string) (c : Item) : Prop :=
  ∃ l, req !! s = Some l ∧ c ∈ l.

(** What the loop of [add] maintains between two items: the two
    dictionaries describe the nodes of the temporary graph, whose providers
    are all linked to the nodes requiring what they provide. *)
Definition add_invariant (tmp_graph : DiGraph)
    (requirements : gmap string (list Item)) (provided : gmap string Item) : Prop :=
  (∀ s p, provided !! s = Some p ↔ p ∈ g_nodes tmp_graph ∧ s ∈ provides p)
  ∧ (∀ s c, requires_in requirements s c ↔ c ∈ g_nodes tmp_graph ∧ s ∈ requires c)
  ∧ dependencies_linked tmp_graph.

(** The items that a call [add items] really adds: those that are not
    nodes of the flow yet. *)
Definition items_added (self : Flow) (items : list Item) : list Item :=
  filter (λ i, has_node (_graph self) i = false) items.

(** Some item being added provides a symbol that a node of the flow, or an
    earlier item of the same call, provides. *)
Definition duplicate_provider (self : Flow) (items : list Item) : Prop :=
  ∃ i x s, items_added self items !! i = Some x ∧ s ∈ provides x
    ∧ ((∃ n, n ∈ g_nodes (_graph self) ∧ s ∈ provides n)
       ∨ (∃ j y, j < i ∧ items_added self items !! j = Some y ∧ s ∈ provides y)).

End graph_flow.

(** * taskflow/engines/action_engine: analyzer.py and runtime.py *)

Module action_engine.

(** ** Constants of the modules the engine imports *)

(** [taskflow.states]: atom states and intentions are the same kind of
    Python constant (strings), and [IGNORE] is used for both. *)
Module st.
Inductive State : Type :=
  | PENDING | RUNNING | SUCCESS | FAILURE
  | REVERTING | REVERTED | RETRYING | IGNORE
  | EXECUTE | REVERT | RETRY.
#[global] Instance State_eq_dec : EqDecision State.
Proof. solve_decision. Defined.
End st.
Export st (State).

(** [compiler]: the kinds of the nodes of an execution graph. *)
Module co.
Inductive Kind : Type := TASK | RETRY | FLOW.
#[global] Instance Kind_eq_dec : EqDecision Kind.
Proof. solve_decision. Defined.
Definition ATOMS : list Kind := [TASK; RETRY].
End co.
Export co (Kind).

(** The transition checkers of [taskflow.states], which are not part of the
    analysed files: the engine only calls them. *)
Class Transitions : Type := {
  check_task_transition : State → State → bool;
  check_retry_transition : State → State → bool
}.

(** ** Execution graph *)

(** A node of the execution graph: a task, a retry or a flow object,
    compared by identity; the storage and the runtime cache are keyed by
    [name]. *)
Record Atom : Type := mkAtom {
  atom_id : nat;
  name : string
}.

#[global] Instance Atom_eq_dec : EqDecision Atom.
Proof. solve_decision. Defined.

(** A decider attached to an edge (the [LINK_DECIDER] entry of the edge's
    attributes).  None of the analysed code calls it: it is only collected. *)
Definition LinkDecider : Type := nat.

(** The compiled graph: [nodes] in [nodes_iter] order, [kind n] for
    [graph.node[n]['kind']] (networkx keeps an entry for every end point of
    an edge and the compiler sets ['kind'] on every node), and the edges
    [u → v] with the decider attached to them, if any. *)
Record ExecutionGraph : Type := mkGraph {
  nodes : list Atom;
  kind : Atom → Kind;
  edges : list (Atom * Atom * option LinkDecider)
}.

Definition predecessors_iter (g : ExecutionGraph) (v : Atom) : list Atom :=
  (filter (λ e, e.1.2 = v) (edges g)).*1.*1.

Definition successors_iter (g : ExecutionGraph) (u : Atom) : list Atom :=
  (filter (λ e, e.1.1 = u) (edges g)).*1.*2.

(** [graph.adj[u][v][LINK_DECIDER]]; [None] stands for the [KeyError]. *)
Definition link_decider (g : ExecutionGraph) (u v : Atom) : option LinkDecider :=
  match list_find (λ e, e.1 = (u, v)) (edges g) with
  | Some (_, e) => e.2
  | None => None
  end.

(** ** Storage *)

(** Modelled from the spec: the storage adapter is outside the analysed
    files; section 6 gives its interface, a map from atom names to the pair
    (state, intention) with getters and setters. *)
Definition Storage : Type := string → State * State.

Definition get_atom_state (s : Storage) (atom_name : string) : State :=
  (s atom_name).1.

Definition get_atom_intention (s : Storage) (atom_name : string) : State :=
  (s atom_name).2.

Definition get_atoms_states (s : Storage) (atom_names : list string)
    : gmap string (State * State) :=
  list_to_map ((λ n, (n, (get_atom_state s n, get_atom_intention s n))) <$> atom_names).

Definition set_atom_state (atom_name : string) (state : State) : M Storage unit :=
  s ← get;
  put (λ n, if decide (n = atom_name) then (state, (s n).2) else s n).

Definition set_atom_intention (atom_name : string) (intention : State)
    : M Storage unit :=
  s ← get;
  put (λ n, if decide (n = atom_name) then ((s n).1, intention) else s n).

(** Subscripting a Python dict. *)
Definition subscript {V : Type} (d : gmap string V) (key : string) : outcome V :=
  match d !! key with
  | Some v => Return v
  | None => Raised KeyError
  end.

(** ** Deciders *)

Inductive Decider : Type :=
  | IgnoreDecider (atom : Atom) (edge_deciders : list (Atom * Kind * LinkDecider))
  | NoOpDecider.

(** ** Traversal *)

Inductive Direction : Type := FORWARD | BACKWARD.

Definition connected_iter (g : ExecutionGraph) (direction : Direction)
    : Atom → list Atom :=
  match direction with
  | FORWARD => successors_iter g
  | BACKWARD => predecessors_iter g
  end.

(** Where the walk continues from a node that it has reached: through every
    node, except that retries are not crossed when [through_retries] is
    off. *)
Definition connected_to (g : ExecutionGraph) (direction : Direction)
    (through_retries : bool) (node : Atom) : list Atom :=
  match kind g node with
  | co.RETRY => if through_retries then connected_iter g direction node else []
  | _ => connected_iter g direction node
  end.

(** Flow markers are jumped over: they are walked through, not yielded. *)
Definition yielded (g : ExecutionGraph) (node : Atom) : list Atom :=
  if bool_decide (kind g node ∈ co.ATOMS) then [node] else [].

(** Modelled from the spec: [traversal.breadth_first_iterate] is not among
    the analysed files.  Sections 4.2 and 9 describe a breadth-first walk
    from the nodes connected to the starting node, in the given direction,
    that is transparent for flow markers and optionally stops at retries; it
    is the plain queue loop (the execution graph is a DAG, and no node is
    remembered). *)
Fixpoint breadth_first_loop (fuel : nat) (g : ExecutionGraph)
    (direction : Direction) (through_retries : bool) (q : list Atom)
    : outcome (list Atom) :=
  match q with
  | [] => Return []
  | node :: q' =>
    match fuel with
    | 0 => OutOfFuel
    | S fuel' =>
      rest ← breadth_first_loop fuel' g direction through_retries
               (q' ++ connected_to g direction through_retries node);
      Return (yielded g node ++ rest)
    end
  end.

Definition breadth_first_iterate (fuel : nat) (g : ExecutionGraph)
    (starting_node : Atom) (direction : Direction) (through_retries : bool)
    : outcome (list Atom) :=
  breadth_first_loop fuel g direction through_retries
    (connected_iter g direction starting_node).

(** Modelled from the spec: [traversal.depth_first_iterate] is not among the
    analysed files either; it is the same walk with a stack (the head of the
    list is the top of the stack, so the nodes pushed last are popped
    first). *)
Fixpoint depth_first_loop (fuel : nat) (g : ExecutionGraph)
    (direction : Direction) (through_retries : bool) (stack : list Atom)
    : outcome (list Atom) :=
  match stack with
  | [] => Return []
  | node :: stack' =>
    match fuel with
    | 0 => OutOfFuel
    | S fuel' =>
      rest ← depth_first_loop fuel' g direction through_retries
               (reverse (connected_to g direction through_retries node) ++ stack');
      Return (yielded g node ++ rest)
    end
  end.

Definition depth_first_iterate (fuel : nat) (g : ExecutionGraph)
    (starting_node : Atom) (direction : Direction) (through_retries : bool)
    : outcome (list Atom) :=
  depth_first_loop fuel g direction through_retries
    (reverse (connected_iter g direction starting_node)).

(** Modelled from the spec: [iter_utils.unique_seen] is not among the
    analysed files; it chains the iterators and yields a value when the key
    that [seen_selector] extracts from it has not been seen before. *)
Fixpoint unique_seen_loop {A K : Type} `{EqDecision K} (seen_selector : A → K)
    (seen : list K) (values : list A) : list A :=
  match values with
  | [] => []
  | value :: values' =>
    if bool_decide (seen_selector value ∈ seen)
    then unique_seen_loop seen_selector seen values'
    else value :: unique_seen_loop seen_selector (seen_selector value :: seen) values'
  end.

Definition unique_seen {A K : Type} `{EqDecision K} (its : list (list A))
    (seen_selector : A → K) : list A :=
  unique_seen_loop seen_selector [] (concat its).

(** ** Runtime: the atom cache *)

(** The entries of the per-atom metadata that the analysed code reads (the
    scope walker, the scheduler and the action are left out). *)
Record Metadata : Type := mkMetadata {
  check_transition_handler : State → State → bool;
  change_state_handler : Atom → State → M Storage unit;
  edge_deciders : list (Atom * Kind * LinkDecider)
}.

Record Runtime : Type := mkRuntime {
  execution_graph : ExecutionGraph;
  _atom_cache : gmap string Metadata
}.

(** Modelled from the spec: the task and retry actions are outside the
    analysed files; by section 4.4 [change_state(atom, new_state)]
    transitions the atom in storage (and notifies, which leaves no trace in
    the storage). *)
Definition task_action_change_state (atom : Atom) (state : State) : M Storage unit :=
  set_atom_state (name atom) state.

Definition retry_action_change_state (atom : Atom) (state : State) : M Storage unit :=
  set_atom_state (name atom) state.

(** The body of the [while nodes] loop of [Runtime._walk_edge_deciders]:
    [nodes] is the deque of (u_node, v_node) pairs and [visited] the set of
    flows already explored.  The answer is the sequence of yielded triples
    together with the flows that were added to [visited], in that order. *)
Fixpoint walk_loop (fuel : nat) (g : ExecutionGraph)
    (nodes : list (Atom * Atom)) (visited : list Atom)
    : outcome (list (Atom * Kind * LinkDecider) * list Atom) :=
  match nodes with
  | [] => Return ([], [])
  | (u_node, v_node) :: nodes' =>
    match fuel with
    | 0 => OutOfFuel
    | S fuel' =>
      let u_node_kind := kind g u_node in
      let out :=
        match link_decider g u_node v_node with
        | Some d => [(u_node, u_node_kind, d)]
        | None => []
        end in
      if bool_decide (u_node_kind = co.FLOW ∧ u_node ∉ visited) then
        '(rest, explored) ← walk_loop fuel' g
            (nodes' ++ ((λ u_u_node, (u_u_node, u_node)) <$> predecessors_iter g u_node))
            (u_node :: visited);
        Return (out ++ rest, u_node :: explored)
      else
        '(rest, explored) ← walk_loop fuel' g nodes' visited;
        Return (out ++ rest, explored)
    end
  end.

(** [Runtime._walk_edge_deciders] *)
Definition _walk_edge_deciders (fuel : nat) (g : ExecutionGraph) (atom : Atom)
    : outcome (list (Atom * Kind * LinkDecider)) :=
  '(deciders, _) ← walk_loop fuel g
      ((λ u_node, (u_node, atom)) <$> predecessors_iter g atom) [];
  Return deciders.

(** [Runtime.compile]: the loop over the nodes of the graph, on the cache. *)
Fixpoint compile_nodes `{Transitions} (fuel : nat) (g : ExecutionGraph)
    (todo : list Atom) (cache : gmap string Metadata)
    : outcome (gmap string Metadata) :=
  match todo with
  | [] => Return cache
  | node :: todo' =>
    match kind g node with
    | co.FLOW => compile_nodes fuel g todo' cache
    | node_kind =>
      let check_transition_handler :=
        match node_kind with
        | co.RETRY => check_retry_transition
        | _ => check_task_transition
        end in
      let change_state_handler :=
        match node_kind with
        | co.RETRY => retry_action_change_state
        | _ => task_action_change_state
        end in
      deciders ← _walk_edge_deciders fuel g node;
      let metadata :=
        mkMetadata check_transition_handler change_state_handler deciders in
      compile_nodes fuel g todo' (<[name node := metadata]> cache)
    end
  end.

Definition compile `{Transitions} (fuel : nat) : M Runtime unit :=
  self ← get;
  cache ← lift (compile_nodes fuel (execution_graph self)
                  (nodes (execution_graph self)) (_atom_cache self));
  put (mkRuntime (execution_graph self) cache).

(** [Runtime._fetch_atom_metadata_entry], one function per key read. *)
Definition _fetch_atom_metadata (self : Runtime) (atom_name : string)
    : outcome Metadata :=
  subscript (_atom_cache self) atom_name.

(** [Runtime.check_atom_transition] *)
Definition check_atom_transition (self : Runtime) (atom : Atom)
    (current_state target_state : State) : outcome bool :=
  metadata ← _fetch_atom_metadata self (name atom);
  Return (check_transition_handler metadata current_state target_state).

(** [Runtime.fetch_edge_deciders] *)
Definition fetch_edge_deciders (self : Runtime) (atom : Atom)
    : outcome (list (Atom * Kind * LinkDecider)) :=
  metadata ← _fetch_atom_metadata self (name atom);
  Return (edge_deciders metadata).

(** ** Analyzer *)

(** [Analyzer.iterate_nodes] *)
Definition iterate_nodes (g : ExecutionGraph) (allowed_kinds : list Kind)
    : list Atom :=
  filter (λ node, kind g node ∈ allowed_kinds) (nodes g).

(** [iter_connected_states], the generator local to
    [Analyzer._get_maybe_ready]. *)
Fixpoint iter_connected_states (storage : Storage) (connected : list Atom)
    : outcome (list (Atom * (State * State))) :=
  match connected with
  | [] => Return []
  | atom :: connected' =>
    let atom_states := get_atoms_states storage [name atom] in
    states ← subscript atom_states (name atom);
    rest ← iter_connected_states storage connected';
    Return ((atom, states) :: rest)
  end.

(** [Analyzer._get_maybe_ready].  The three callbacks are passed as the
    values they compute; Python consumes the connected atoms lazily, which
    returns the same answer whenever the whole walk ends. *)
Definition _get_maybe_ready (runtime : Runtime) (storage : Storage)
    (atom : Atom) (transition_to : State) (allowed_intentions : list State)
    (connected_fetcher : outcome (list Atom))
    (ready_checker : list (Atom * (State * State)) → bool)
    (decider_fetcher : outcome Decider)
    : outcome (bool * option Decider) :=
  let state := get_atom_state storage (name atom) in
  ok_to_transition ← check_atom_transition runtime atom state transition_to;
  if negb ok_to_transition then Return (false, None)
  else
    let intention := get_atom_intention storage (name atom) in
    if negb (bool_decide (intention ∈ allowed_intentions)) then Return (false, None)
    else
      connected ← connected_fetcher;
      connected_states ← iter_connected_states storage connected;
      let ok_to_run := ready_checker connected_states in
      if negb ok_to_run then Return (false, None)
      else
        decider ← decider_fetcher;
        Return (true, Some decider).

(** [Analyzer._get_maybe_ready_for_execute] *)
Definition execute_ready_checker (pred_connected_it : list (Atom * (State * State)))
    : bool :=
  forallb (λ '(_atom, (atom_state, atom_intention)),
             bool_decide (atom_state ∈ [st.SUCCESS; st.IGNORE])
             && bool_decide (atom_intention ∈ [st.EXECUTE; st.IGNORE]))
          pred_connected_it.

Definition _get_maybe_ready_for_execute (fuel : nat) (runtime : Runtime)
    (storage : Storage) (atom : Atom) : outcome (bool * option Decider) :=
  let decider_fetcher :=
    deciders ← fetch_edge_deciders runtime atom;
    Return (IgnoreDecider atom deciders) in
  let connected_fetcher :=
    depth_first_iterate fuel (execution_graph runtime) atom BACKWARD true in
  _get_maybe_ready runtime storage atom st.RUNNING [st.EXECUTE]
    connected_fetcher execute_ready_checker decider_fetcher.

(** [Analyzer._get_maybe_ready_for_revert] *)
Definition revert_ready_checker (succ_connected_it : list (Atom * (State * State)))
    : bool :=
  forallb (λ '(_atom, (atom_state, _atom_intention)),
             bool_decide (atom_state ∈ [st.PENDING; st.REVERTED; st.IGNORE]))
          succ_connected_it.

Definition _get_maybe_ready_for_revert (fuel : nat) (runtime : Runtime)
    (storage : Storage) (atom : Atom) : outcome (bool * option Decider) :=
  let noop_decider := NoOpDecider in
  let connected_fetcher :=
    depth_first_iterate fuel (execution_graph runtime) atom FORWARD true in
  let decider_fetcher := Return noop_decider in
  _get_maybe_ready runtime storage atom st.REVERTING [st.REVERT; st.RETRY]
    connected_fetcher revert_ready_checker decider_fetcher.

(** The [for atom in atom_it] loop shared by the two browsers. *)
Fixpoint browse_loop (maybe_ready : Atom → outcome (bool * option Decider))
    (atom_it : list Atom) : outcome (list (Atom * option Decider)) :=
  match atom_it with
  | [] => Return []
  | atom :: atom_it' =>
    '(is_ready, late_decider) ← maybe_ready atom;
    rest ← browse_loop maybe_ready atom_it';
    Return (if is_ready : bool then (atom, late_decider) :: rest else rest)
  end.

(** [Analyzer.browse_atoms_for_execute] *)
Definition browse_atoms_for_execute (fuel : nat) (runtime : Runtime)
    (storage : Storage) (atom : option Atom)
    : outcome (list (Atom * option Decider)) :=
  atom_it ← match atom with
            | None => Return (iterate_nodes (execution_graph runtime) co.ATOMS)
            | Some atom =>
              breadth_first_iterate fuel (execution_graph runtime) atom FORWARD true
            end;
  browse_loop (_get_maybe_ready_for_execute fuel runtime storage) atom_it.

(** [Analyzer.browse_atoms_for_revert] *)
Definition browse_atoms_for_revert (fuel : nat) (runtime : Runtime)
    (storage : Storage) (atom : option Atom)
    : outcome (list (Atom * option Decider)) :=
  atom_it ← match atom with
            | None => Return (iterate_nodes (execution_graph runtime) co.ATOMS)
            | Some atom =>
              breadth_first_iterate fuel (execution_graph runtime) atom BACKWARD false
            end;
  browse_loop (_get_maybe_ready_for_revert fuel runtime storage) atom_it.

(** [Analyzer.iter_next_atoms] *)
Definition iter_next_atoms (fuel : nat) (runtime : Runtime) (storage : Storage)
    (atom : option Atom) : outcome (list (Atom * option Decider)) :=
  match atom with
  | None =>
    for_execute ← browse_atoms_for_execute fuel runtime storage None;
    for_revert ← browse_atoms_for_revert fuel runtime storage None;
    Return (unique_seen [for_execute; for_revert] fst)
  | Some atom =>
    let state := get_atom_state storage (name atom) in
    let intention := get_atom_intention storage (name atom) in
    if decide (state = st.SUCCESS) then
      if decide (intention = st.REVERT) then Return [(atom, Some NoOpDecider)]
      else if decide (intention = st.EXECUTE)
           then browse_atoms_for_execute fuel runtime storage (Some atom)
           else Return []
    else if decide (state = st.REVERTED)
         then browse_atoms_for_revert fuel runtime storage (Some atom)
    else if decide (state = st.FAILURE)
         then browse_atoms_for_revert fuel runtime storage None
    else Return []
  end.

(** [Analyzer.is_success] *)
Fixpoint is_success_loop (atom_states : gmap string (State * State))
    (atoms : list Atom) : outcome bool :=
  match atoms with
  | [] => Return true
  | atom :: atoms' =>
    '(atom_state, _atom_intention) ← subscript atom_states (name atom);
    if decide (atom_state = st.IGNORE) then is_success_loop atom_states atoms'
    else if decide (atom_state ≠ st.SUCCESS) then Return false
    else is_success_loop atom_states atoms'
  end.

Definition is_success (runtime : Runtime) (storage : Storage) : outcome bool :=
  let atoms := iterate_nodes (execution_graph runtime) co.ATOMS in
  let atom_states := get_atoms_states storage (name <$> atoms) in
  is_success_loop atom_states atoms.

(** ** Runtime: resetting atoms *)

(** [Runtime.reset_atoms]; [None] is Python's [None] and every state
    constant is a non-empty string, hence true in a condition. *)
Fixpoint reset_atoms (self : Runtime) (atoms : list Atom)
    (state intention : option State)
    : M Storage (list (Atom * option State * option State)) :=
  match atoms with
  | [] => mret []
  | atom :: atoms' =>
    let tweaked :=
      if bool_decide (is_Some state ∨ is_Some intention)
      then [(atom, state, intention)] else [] in
    match state with
    | Some state =>
      metadata ← lift (_fetch_atom_metadata self (name atom));
      change_state_handler metadata atom state
    | None => mret tt
    end;;
    match intention with
    | Some intention => set_atom_intention (name atom) intention
    | None => mret tt
    end;;
    rest ← reset_atoms self atoms' state intention;
    mret (tweaked ++ rest)
  end.

(** [Runtime.reset_all] *)
Definition reset_all (self : Runtime) (state intention : option State)
    : M Storage (list (Atom * option State * option State)) :=
  reset_atoms self (iterate_nodes (execution_graph self) co.ATOMS) state intention.

Section subgraph.
(** [Analyzer.iterate_connected_atoms] is called by [reset_subgraph] but
    is not defined in the analysed analyzer: it is a parameter here, the
    enumeration of the atoms of the subgraph of an atom. *)
Variable iterate_connected_atoms : Runtime → Atom → list Atom.

(** [Runtime.reset_subgraph] *)
Definition reset_subgraph (self : Runtime) (atom : Atom)
    (state intention : option State)
    : M Storage (list (Atom * option State * option State)) :=
  reset_atoms self (iterate_connected_atoms self atom) state intention.

(** [Runtime.retry_subflow] *)
Definition retry_subflow (self : Runtime) (retry : Atom)
    : M Storage (list (Atom * option State * option State)) :=
  tweaked ← reset_atoms self [retry] None (Some st.EXECUTE);
  more ← reset_subgraph self retry (Some st.PENDING) (Some st.EXECUTE);
  mret (tweaked ++ more).
End subgraph.

End action_engine.

(** * The remaining methods of the analysed classes *)

Module graph_flow_rest.
Import graph_flow.

(** [Flow.__len__] *)
Definition len (self : Flow) : nat := length (g_nodes (_graph self)).

(** [Flow.__iter__] *)
Definition iter (self : Flow) : list Item := g_nodes (_graph self).

(** The dictionaries of [add] only hold nodes of the temporary graph, under
    the symbols that they provide and require. *)
Definition dictionaries_sound (tmp_graph : DiGraph)
    (requirements : gmap string (list Item)) (provided : gmap string Item) : Prop :=
  (∀ s p, provided !! s = Some p → p ∈ g_nodes tmp_graph ∧ s ∈ provides p)
  ∧ (∀ s c, requires_in requirements s c → c ∈ g_nodes tmp_graph ∧ s ∈ requires c).

(** An edge from a provider of a symbol to a node requiring it. *)
Definition dependency_edge (e : Item * Item) : Prop :=
  ∃ s, s ∈ provides e.1 ∧ s ∈ requires e.2.

End graph_flow_rest.

Module action_engine_rest.
Import action_engine.

(** The [for atom in atoms] loop of [Analyzer.iterate_retries] when a state
    is given. *)
Fixpoint iterate_retries_loop (atom_states : gmap string (State * State))
    (state : State) (atoms : list Atom) : outcome (list Atom) :=
  match atoms with
  | [] => Return []
  | atom :: atoms' =>
    '(atom_state, _atom_intention) ← subscript atom_states (name atom);
    rest ← iterate_retries_loop atom_states state atoms';
    Return (if decide (atom_state = state) then atom :: rest else rest)
  end.

(** [Analyzer.iterate_retries]; [None] is Python's [None], every state
    constant is true in a condition. *)
Definition iterate_retries (runtime : Runtime) (storage : Storage)
    (state : option State) : outcome (list Atom) :=
  match state with
  | Some state =>
    let atoms := iterate_nodes (execution_graph runtime) [co.RETRY] in
    let atom_states := get_atoms_states storage (name <$> atoms) in
    iterate_retries_loop atom_states state atoms
  | None => Return (iterate_nodes (execution_graph runtime) [co.RETRY])
  end.

End action_engine_rest.

(** * Vocabulary of the statements about the action engine *)

Module engine_spec.
Import action_engine.

(** The execution graph is a DAG: [rank] grows along every edge. *)
Definition topological (g : ExecutionGraph) (rank : Atom → nat) : Prop :=
  Forall (λ e, rank e.1.1 < rank e.1.2) (edges g).

(** Every end point of an edge is a node, and no two edges join the same
    pair of nodes in the same direction (a [DiGraph] is not a multigraph). *)
Definition closed (g : ExecutionGraph) : Prop :=
  Forall (λ e, e.1.1 ∈ nodes g ∧ e.1.2 ∈ nodes g) (edges g).

Definition simple (g : ExecutionGraph) : Prop := NoDup (edges g).*1.

(** [walk g direction through_retries start x]: [x] is reached from
    [start] by following at least one edge in the given direction; a retry
    strictly between [start] and [x] is only crossed when [through_retries]
    is on. *)
Inductive walk (g : ExecutionGraph) (direction : Direction)
    (through_retries : bool) (start : Atom) : Atom → Prop :=
  | walk_first x :
      x ∈ connected_iter g direction start →
      walk g direction through_retries start x
  | walk_next y x :
      walk g direction through_retries start y →
      (kind g y = co.RETRY → through_retries = true) →
      x ∈ connected_iter g direction y →
      walk g direction through_retries start x.

(** The work-list loop that both traversals instantiate: [push] says where
    the nodes connected to the node just taken go. *)
Fixpoint worklist_loop (next emit : Atom → list Atom)
    (push : list Atom → list Atom → list Atom) (fuel : nat) (work : list Atom)
    : outcome (list Atom) :=
  match work with
  | [] => Return []
  | node :: work' =>
    match fuel with
    | 0 => OutOfFuel
    | S fuel' =>
      rest ← worklist_loop next emit push fuel' (push work' (next node));
      Return (emit node ++ rest)
    end
  end.

(** How far a node is from the end of the graph in a direction, and the
    cost of walking everything behind it without remembering any node. *)
Definition distance (g : ExecutionGraph) (rank : Atom → nat)
    (direction : Direction) (node : Atom) : nat :=
  match direction with
  | BACKWARD => rank node
  | FORWARD => max_list ((λ e, rank e.1.2) <$> edges g) - rank node
  end.

Definition weight (g : ExecutionGraph) (rank : Atom → nat)
    (direction : Direction) (node : Atom) : nat :=
  S (length (edges g)) ^ distance g rank direction node.

Definition walk_fuel (g : ExecutionGraph) (rank : Atom → nat)
    (direction : Direction) (start : Atom) : nat :=
  S (sum_list_with (weight g rank direction) (connected_iter g direction start)).

(** Fuel that is enough for every traversal of the graph. *)
Definition graph_fuel (g : ExecutionGraph) (rank : Atom → nat) : nat :=
  S (length (edges g)
     * S (length (edges g)) ^ max_list ((λ e, rank e.1.2) <$> edges g)).

(** The breadth-first order: the nodes one edge away, then those two edges
    away, and so on for [depth] rounds. *)
Fixpoint by_levels (g : ExecutionGraph) (direction : Direction)
    (through_retries : bool) (depth : nat) (level : list Atom) : list Atom :=
  match depth with
  | 0 => []
  | S depth' =>
    (level ≫= yielded g)
    ++ by_levels g direction through_retries depth'
         (level ≫= connected_to g direction through_retries)
  end.

(** The deciders attached to the edges into [v]. *)
Definition incoming_deciders (g : ExecutionGraph) (v : Atom)
    : list (Atom * Kind * LinkDecider) :=
  omap (λ e, if decide (e.1.2 = v)
             then (λ d, (e.1.1, kind g e.1.1, d)) <$> e.2
             else None)
       (edges g).

(** What the walk yields for a pair (u, v) taken from its queue. *)
Definition edge_triple (g : ExecutionGraph) (p : Atom * Atom)
    : option (Atom * Kind * LinkDecider) :=
  (λ d, (p.1, kind g p.1, d)) <$> link_decider g p.1 p.2.

Definition pairs_into (g : ExecutionGraph) (v : Atom) : list (Atom * Atom) :=
  (λ u, (u, v)) <$> predecessors_iter g v.

(** The edges into flows that the walk has not explored yet. *)
Definition unexplored (g : ExecutionGraph) (visited : list Atom)
    : list (Atom * Atom * option LinkDecider) :=
  filter (λ e, kind g e.1.2 = co.FLOW ∧ e.1.2 ∉ visited) (edges g).

(** The flow markers found from [atom] by following edges backward through
    flow markers only. *)
Inductive flow_walk (g : ExecutionGraph) (atom : Atom) : Atom → Prop :=
  | flow_walk_first f :
      f ∈ predecessors_iter g atom → kind g f = co.FLOW → flow_walk g atom f
  | flow_walk_next f f' :
      flow_walk g atom f → f' ∈ predecessors_iter g f → kind g f' = co.FLOW →
      flow_walk g atom f'.

(** Removing duplicates by atom name, keeping the first occurrence. *)
Fixpoint first_by_name {D : Type} (l : list (Atom * D)) : list (Atom * D) :=
  match l with
  | [] => []
  | x :: l' => x :: filter (λ y, name y.1 ≠ name x.1) (first_by_name l')
  end.

(** The metadata that [compile] stores for a node. *)
Definition metadata_for `{Transitions} (g : ExecutionGraph) (node : Atom)
    (deciders : list (Atom * Kind * LinkDecider)) : Metadata :=
  mkMetadata
    (match kind g node with
     | co.RETRY => check_retry_transition
     | _ => check_task_transition
     end)
    (match kind g node with
     | co.RETRY => retry_action_change_state
     | _ => task_action_change_state
     end)
    deciders.

(** The runtime was compiled: every atom of the graph has its metadata,
    with the handlers of its kind. *)
Definition compiled (runtime : Runtime) : Prop :=
  ∀ node, node ∈ nodes (execution_graph runtime) →
          kind (execution_graph runtime) node ∈ co.ATOMS →
          ∃ metadata, _atom_cache runtime !! name node = Some metadata
            ∧ change_state_handler metadata
              = match kind (execution_graph runtime) node with
                | co.RETRY => retry_action_change_state
                | _ => task_action_change_state
                end.

Definition happy (s : State * State) : Prop :=
  s.1 ∈ [st.SUCCESS; st.IGNORE] ∧ s.2 ∈ [st.EXECUTE; st.IGNORE].

Definition revertable (s : State * State) : Prop :=
  s.1 ∈ [st.PENDING; st.REVERTED; st.IGNORE].

End engine_spec.

(** * Concrete flows and a concrete engine, used in the examples below *)

Module graph_flow_examples.
Import graph_flow.

Definition producer : Item := mkItem 1 "producer" {["x"]} ∅.
Definition consumer : Item := mkItem 2 "consumer" {["y"]} {["x"]}.
Definition rival : Item := mkItem 3 "rival" {["x"]} ∅.

Definition flow2 : Flow := (add [consumer; producer] (init "f")).1.

(** An item without dependencies, added to [flow2] and then linked by hand
    in front of the producer; and an item that requires what it provides. *)
Definition other : Item := mkItem 4 "other" ∅ ∅.
Definition selfish : Item := mkItem 5 "selfish" {["z"]} {["z"]}.

Definition flow3 : Flow := (add [other] flow2).1.
Definition flow4 : Flow := (link other producer flow3).1.

End graph_flow_examples.

Module engine_examples.
Import action_engine engine_spec.

(** Modelled from the spec: [taskflow.states] is outside the analysed
    files; section 3 lists the allowed task transitions and says that a
    retry additionally supports the transitions to [RETRYING]. *)
Definition spec_task_transition (old_state new_state : State) : bool :=
  match old_state, new_state with
  | st.PENDING, st.RUNNING
  | st.RUNNING, st.SUCCESS | st.RUNNING, st.FAILURE
  | st.SUCCESS, st.REVERTING
  | st.REVERTING, st.REVERTED | st.REVERTING, st.FAILURE
  | st.FAILURE, st.PENDING | st.REVERTED, st.PENDING => true
  | _, _ => false
  end.

Definition spec_retry_transition (old_state new_state : State) : bool :=
  spec_task_transition old_state new_state
  || bool_decide (new_state = st.RETRYING).

#[export] Instance spec_transitions : Transitions :=
  {| check_task_transition := spec_task_transition;
     check_retry_transition := spec_retry_transition |}.

(** The compiled graph  A → [F] → R → B → C  with R → C: a task, then a
    flow marker, the retry of that flow and two tasks it controls; the edge
    into the flow and the edge B → C carry a decider. *)
Definition A : Atom := mkAtom 1 "A".
Definition F : Atom := mkAtom 2 "F".
Definition R : Atom := mkAtom 3 "R".
Definition B : Atom := mkAtom 4 "B".
Definition C : Atom := mkAtom 5 "C".

Definition graph : ExecutionGraph :=
  mkGraph [A; F; R; B; C]
    (λ n, match atom_id n with 2 => co.FLOW | 3 => co.RETRY | _ => co.TASK end)
    [(A, F, Some 7); (F, R, None); (R, B, None); (B, C, Some 8); (R, C, None)].

Definition rank : Atom → nat := λ n, atom_id n - 1.

Definition fuel : nat := graph_fuel graph rank.

(** The runtime after [compile]. *)
Definition cache : gmap string Metadata :=
  _atom_cache (compile fuel (mkRuntime graph ∅)).1.

Definition runtime : Runtime := mkRuntime graph cache.

(** A and the retry have run; B and C are waiting. *)
Definition storage : Storage :=
  λ n, if decide (n = "A") then (st.SUCCESS, st.EXECUTE)
       else if decide (n = "R") then (st.SUCCESS, st.EXECUTE)
       else (st.PENDING, st.EXECUTE).

(** B was reverted after A and the retry ran, and the rest is to be
    reverted. *)
Definition storage_reverting : Storage :=
  λ n, if decide (n = "A") then (st.SUCCESS, st.REVERT)
       else if decide (n = "R") then (st.SUCCESS, st.RETRY)
       else if decide (n = "B") then (st.REVERTED, st.REVERT)
       else (st.PENDING, st.EXECUTE).

(** A and the retry have run, B is waiting and C is to be reverted. *)
Definition storage_mixed : Storage :=
  λ n, if decide (n = "A") then (st.SUCCESS, st.EXECUTE)
       else if decide (n = "R") then (st.SUCCESS, st.EXECUTE)
       else if decide (n = "C") then (st.SUCCESS, st.REVERT)
       else (st.PENDING, st.EXECUTE).

(** An atom that is not in the graph. *)
Definition ghost : Atom := mkAtom 9 "ghost".

(** The atoms of the subgraph of an atom: its successors. *)
Definition successors_of (self : Runtime) (atom : Atom) : list Atom :=
  match depth_first_iterate fuel (execution_graph self) atom FORWARD true with
  | Return l => remove_dups l
  | _ => []
  end.

End engine_examples.

(** * Properties of graph flows *)

Section graph_flow_facts.
Import graph_flow.

(** ** The acyclicity check *)

Lemma path_target_has_incoming es a b :
  path es a b → has_incoming es b = true.
Proof.
  induction 1 as [u v Huv | u v w Huv _ IH]; [|done].
  apply bool_decide_eq_true. apply list_elem_of_fmap. by exists (u, v).
Qed.

Lemma path_survives_peeling es a b :
  path es a b → has_incoming es a = true →
  path (filter (λ e, has_incoming es e.1 = true) es) a b.
Proof.
  induction 1 as [u v Huv | u v w Huv Hvw IH]; intros Ha.
  - apply path_edge. by apply list_elem_of_filter.
  - eapply path_step.
    + by apply list_elem_of_filter.
    + apply IH. eapply path_target_has_incoming. by apply path_edge.
Qed.

Lemma path_nil a b : ¬ path [] a b.
Proof. intros H. induction H as [?? H | ]; [|done]. by apply elem_of_nil in H. Qed.

(** The check only accepts graphs without cycle ... *)
Lemma peel_sound fuel es :
  peel fuel es = true → ∀ n, ¬ path es n n.
Proof.
  revert es. induction fuel as [|fuel IH]; intros es Hp n Hc.
  - destruct es; [by eapply path_nil | done].
  - destruct es as [|e es]; [by eapply path_nil|].
    simpl in Hp. case_bool_decide; [|done].
    eapply (IH _ Hp n), path_survives_peeling; [done|].
    by eapply path_target_has_incoming.
Qed.

Lemma topological_has_source es rank k e :
  topological es rank → e ∈ es → rank e.1 ≤ k →
  ∃ e', e' ∈ es ∧ has_incoming es e'.1 ≠ true.
Proof.
  intros Ht. revert e. induction k as [|k IH]; intros e He Hk.
  - exists e. split; [done|]. intros Hin.
    apply bool_decide_eq_true, list_elem_of_fmap in Hin as [[w u] [Hu Hw]].
    simpl in Hu. subst u. apply Ht in Hw. lia.
  - destruct (has_incoming es e.1) eqn:Hin; [|exists e; by rewrite Hin].
    apply bool_decide_eq_true, list_elem_of_fmap in Hin as [[w u] [Hu Hw]].
    simpl in Hu. subst u. apply (IH (w, e.1)); [done|].
    apply Ht in Hw. simpl. lia.
Qed.

(** ... and accepts every graph that has a topological order. *)
Lemma peel_complete rank fuel es :
  topological es rank → length es ≤ fuel → peel fuel es = true.
Proof.
  revert es. induction fuel as [|fuel IH]; intros es Ht Hl.
  - destruct es; [done | simpl in Hl; lia].
  - destruct es as [|e es]; [done|].
    destruct (topological_has_source (e :: es) rank (rank e.1) e Ht)
      as (e' & He' & Hsrc); [by left | done |].
    pose proof (length_filter_lt (λ e0, has_incoming (e :: es) e0.1 = true)
                  (e :: es) e' He' Hsrc) as Hlt.
    cbn [peel]. rewrite bool_decide_eq_true_2 by done.
    apply IH.
    + intros u v Huv. apply Ht. by apply list_elem_of_filter in Huv as [_ ?].
    + simpl in Hl, Hlt. lia.
Qed.

Lemma is_directed_acyclic_graph_sound g :
  is_directed_acyclic_graph g = true → acyclic g.
Proof. intros H n. by eapply peel_sound. Qed.

Lemma is_directed_acyclic_graph_complete g rank :
  topological (g_edges g) rank → is_directed_acyclic_graph g = true.
Proof. intros H. by eapply peel_complete. Qed.

(** ** What a call can do to the stored graph *)

Lemma swap_cases tmp self self' o :
  _swap tmp self = (self', o) →
  (self' = self ∧ o = Raised DependencyFailure
   ∧ is_directed_acyclic_graph tmp = false)
  ∨ (self' = mkFlow (name self) tmp ∧ o = Return tt
     ∧ is_directed_acyclic_graph tmp = true).
Proof.
  unfold _swap, _validate, set_graph, mbind, M_bind, bind, raise, ret, get, put.
  destruct (is_directed_acyclic_graph tmp); simpl; intros [= <- <-]; auto.
Qed.

Lemma link_cases u v self self' o :
  link u v self = (self', o) →
  (self' = self ∧ (o = Return tt ∨ o = Raised ValueError))
  ∨ _swap (add_edge (_graph self) u v) self = (self', o).
Proof.
  unfold link, mbind, M_bind, bind, get, raise, ret. simpl.
  destruct (has_node (_graph self) u); simpl; [|intros [= <- <-]; auto].
  destruct (has_node (_graph self) v); simpl; [|intros [= <- <-]; auto].
  destruct (has_edge (_graph self) u v); simpl; [intros [= <- <-]; auto|].
  auto.
Qed.

Lemma add_cases items self self' o :
  add items self = (self', o) →
  let items' := filter (λ i, has_node (_graph self) i = false) items in
  let acc := foldl scan_node (∅, ∅) (g_nodes (_graph self)) in
  (items' = [] ∧ self' = self ∧ o = Return tt)
  ∨ (items' ≠ [] ∧ ∃ e, add_items items' (_graph self) acc.1 acc.2 = Raised e
        ∧ self' = self ∧ o = Raised e)
  ∨ (items' ≠ [] ∧ add_items items' (_graph self) acc.1 acc.2 = OutOfFuel
        ∧ self' = self ∧ o = OutOfFuel)
  ∨ (items' ≠ [] ∧ ∃ tmp, add_items items' (_graph self) acc.1 acc.2 = Return tmp
        ∧ _swap tmp self = (self', o)).
Proof.
  intros H items' acc. revert H.
  unfold add, mbind, M_bind, bind, get, ret, lift. cbv beta iota.
  fold items'. fold acc.
  destruct items' as [|i its] eqn:Hf; [intros [= <- <-]; auto|].
  destruct acc as [req prov]. cbn [fst snd].
  destruct (add_items (i :: its) (_graph self) req prov) as [tmp|e|] eqn:Ha.
  - intros Hs. right. right. right. split; [done|]. by exists tmp.
  - intros [= <- <-]. right. left. split; [done|]. by exists e.
  - intros [= <- <-]. right. right. left. done.
Qed.

(** A call that raises leaves the flow as it was. *)
Lemma call_raises_unchanged c self self' e :
  run_call c self = (self', Raised e) → self' = self.
Proof.
  destruct c as [u v | items]; simpl; intros H.
  - apply link_cases in H as [[-> _] | H]; [done|].
    apply swap_cases in H as [(-> & _) | (_ & [=] & _)]. done.
  - apply add_cases in H as [(_ & -> & _) | [(_ & e' & _ & -> & _) |
      [(_ & _ & -> & _) | (_ & tmp & _ & H)]]]; try done.
    apply swap_cases in H as [(-> & _) | (_ & [=] & _)]. done.
Qed.

(** A call either keeps the stored graph or stores a validated one. *)
Lemma call_graph_validated c self self' o :
  run_call c self = (self', o) →
  self' = self ∨ is_directed_acyclic_graph (_graph self') = true.
Proof.
  destruct c as [u v | items]; simpl; intros H.
  - apply link_cases in H as [[-> _] | H]; [by left|].
    apply swap_cases in H as [(-> & _) | (-> & _ & ?)]; auto.
  - apply add_cases in H as [(_ & -> & _) | [(_ & e' & _ & -> & _) |
      [(_ & _ & -> & _) | (_ & tmp & _ & H)]]]; auto.
    apply swap_cases in H as [(-> & _) | (-> & _ & ?)]; auto.
Qed.

Lemma reachable_acyclic self : reachable self → acyclic (_graph self).
Proof.
  induction 1 as [nm | c self self' o _ IH Hc].
  - intros n Hp. by eapply path_nil.
  - apply call_graph_validated in Hc as [-> | Hd]; [done|].
    by apply is_directed_acyclic_graph_sound.
Qed.

End graph_flow_facts.

(** ** The invariants that [add] maintains *)

Section graph_flow_add.
Import graph_flow.

Lemma add_node_nodes g n x :
  x ∈ g_nodes (add_node g n) ↔ x ∈ g_nodes g ∨ x = n.
Proof.
  unfold add_node, has_node. case_bool_decide; simpl.
  - naive_solver.
  - rewrite elem_of_app, list_elem_of_singleton. done.
Qed.

Lemma add_node_edges g n : g_edges (add_node g n) = g_edges g.
Proof. unfold add_node. by destruct (has_node g n). Qed.

Lemma add_edge_nodes g u v x :
  x ∈ g_nodes (add_edge g u v) ↔ x ∈ g_nodes g ∨ x = u ∨ x = v.
Proof.
  unfold add_edge. destruct (has_edge _ u v); simpl;
    rewrite !add_node_nodes; tauto.
Qed.

Lemma add_edge_edges g u v e :
  e ∈ g_edges (add_edge g u v) ↔ e ∈ g_edges g ∨ e = (u, v).
Proof.
  unfold add_edge, has_edge. case_bool_decide as He; simpl.
  - rewrite !add_node_edges in *. naive_solver.
  - rewrite elem_of_app, list_elem_of_singleton, !add_node_edges. done.
Qed.

(** *** The two edge-installing loops *)

Lemma link_providers_edges provided item g e :
  e ∈ g_edges (link_providers provided item g) ↔
  e ∈ g_edges g ∨ ∃ s p, s ∈ requires item ∧ provided !! s = Some p ∧ e = (p, item).
Proof.
  unfold link_providers.
  setoid_rewrite <- (elem_of_elements (requires item)).
  revert g. induction (elements (requires item)) as [|v vs IH]; intros g; simpl.
  - split; [auto|]. intros [?|(s & p & Hs & _)]; [done|]. by apply elem_of_nil in Hs.
  - rewrite IH. destruct (provided !! v) as [p|] eqn:Hv.
    + rewrite add_edge_edges. split.
      * intros [[?| ->]|(s & p' & ? & ? & ?)]; [by left| |].
        -- right. exists v, p. split; [by left|done].
        -- right. exists s, p'. split; [by right|done].
      * intros [?|(s & p' & [->|?]%elem_of_cons & Hs & ->)]; [by left;left| |].
        -- rewrite Hv in Hs. injection Hs as ->. by left; right.
        -- right. by exists s, p'.
    + split.
      * intros [?|(s & p' & ? & ? & ?)]; [by left|].
        right. exists s, p'. split; [by right|done].
      * intros [?|(s & p' & [->|?]%elem_of_cons & Hs & ->)]; [by left| |].
        -- by rewrite Hv in Hs.
        -- right. by exists s, p'.
Qed.

Lemma link_providers_nodes provided item g x :
  x ∈ g_nodes (link_providers provided item g) ↔
  x ∈ g_nodes g
  ∨ ∃ s p, s ∈ requires item ∧ provided !! s = Some p ∧ (x = p ∨ x = item).
Proof.
  unfold link_providers.
  setoid_rewrite <- (elem_of_elements (requires item)).
  revert g. induction (elements (requires item)) as [|v vs IH]; intros g; simpl.
  - split; [auto|]. intros [?|(s & p & Hs & _)]; [done|]. by apply elem_of_nil in Hs.
  - rewrite IH. destruct (provided !! v) as [p|] eqn:Hv.
    + rewrite add_edge_nodes. split.
      * intros [[?|Hx]|(s & p' & ? & ? & ?)]; [by left| |].
        -- right. exists v, p. split; [by left|done].
        -- right. exists s, p'. split; [by right|done].
      * intros [?|(s & p' & [->|?]%elem_of_cons & Hs & Hx)]; [by left;left| |].
        -- rewrite Hv in Hs. injection Hs as ->. by left; right.
        -- right. by exists s, p'.
    + split.
      * intros [?|(s & p' & ? & ? & ?)]; [by left|].
        right. exists s, p'. split; [by right|done].
      * intros [?|(s & p' & [->|?]%elem_of_cons & Hs & Hx)]; [by left| |].
        -- by rewrite Hv in Hs.
        -- right. by exists s, p'.
Qed.

Lemma foldl_add_edge_from_edges item (ns : list Item) g e :
  e ∈ g_edges (foldl (λ g node, add_edge g item node) g ns) ↔
  e ∈ g_edges g ∨ ∃ c, c ∈ ns ∧ e = (item, c).
Proof.
  revert g. induction ns as [|n ns IH]; intros g; simpl.
  - split; [auto|]. intros [?|(c & Hc & _)]; [done|]. by apply elem_of_nil in Hc.
  - rewrite IH, add_edge_edges. split.
    + intros [[?| ->]|(c & ? & ->)]; [by left| |].
      * right. exists n. split; [by left|done].
      * right. exists c. split; [by right|done].
    + intros [?|(c & [->|?]%elem_of_cons & ->)]; [by left;left|by left;right|].
      right. by exists c.
Qed.

Lemma foldl_add_edge_from_nodes item (ns : list Item) g x :
  x ∈ g_nodes (foldl (λ g node, add_edge g item node) g ns) ↔
  x ∈ g_nodes g ∨ ∃ c, c ∈ ns ∧ (x = item ∨ x = c).
Proof.
  revert g. induction ns as [|n ns IH]; intros g; simpl.
  - split; [auto|]. intros [?|(c & Hc & _)]; [done|]. by apply elem_of_nil in Hc.
  - rewrite IH, add_edge_nodes. split.
    + intros [[?|Hx]|(c & ? & Hx)]; [by left| |].
      * right. exists n. split; [by left|done].
      * right. exists c. split; [by right|done].
    + intros [?|(c & [->|?]%elem_of_cons & Hx)]; [by left;left|by left;right|].
      right. by exists c.
Qed.

Lemma link_requirers_edges requirements item g e :
  e ∈ g_edges (link_requirers requirements item g) ↔
  e ∈ g_edges g
  ∨ ∃ s l c, s ∈ provides item ∧ requirements !! s = Some l ∧ c ∈ l ∧ e = (item, c).
Proof.
  unfold link_requirers.
  setoid_rewrite <- (elem_of_elements (provides item)).
  revert g. induction (elements (provides item)) as [|v vs IH]; intros g; simpl.
  - split; [auto|]. intros [?|(s & l & c & Hs & _)]; [done|]. by apply elem_of_nil in Hs.
  - rewrite IH. destruct (requirements !! v) as [l|] eqn:Hv.
    + rewrite foldl_add_edge_from_edges. split.
      * intros [[?|(c & ? & ->)]|(s & l' & c & ? & ? & ?)]; [by left| |].
        -- right. exists v, l, c. split; [by left|done].
        -- right. exists s, l', c. split; [by right|done].
      * intros [?|(s & l' & c & [->|?]%elem_of_cons & Hs & Hc & ->)]; [by left;left| |].
        -- rewrite Hv in Hs. injection Hs as ->. left; right. by exists c.
        -- right. by exists s, l', c.
    + split.
      * intros [?|(s & l' & c & ? & ? & ?)]; [by left|].
        right. exists s, l', c. split; [by right|done].
      * intros [?|(s & l' & c & [->|?]%elem_of_cons & Hs & Hc & ->)]; [by left| |].
        -- by rewrite Hv in Hs.
        -- right. by exists s, l', c.
Qed.

Lemma link_requirers_nodes requirements item g x :
  x ∈ g_nodes (link_requirers requirements item g) ↔
  x ∈ g_nodes g
  ∨ ∃ s l c, s ∈ provides item ∧ requirements !! s = Some l ∧ c ∈ l
             ∧ (x = item ∨ x = c).
Proof.
  unfold link_requirers.
  setoid_rewrite <- (elem_of_elements (provides item)).
  revert g. induction (elements (provides item)) as [|v vs IH]; intros g; simpl.
  - split; [auto|]. intros [?|(s & l & c & Hs & _)]; [done|]. by apply elem_of_nil in Hs.
  - rewrite IH. destruct (requirements !! v) as [l|] eqn:Hv.
    + rewrite foldl_add_edge_from_nodes. split.
      * intros [[?|(c & ? & Hx)]|(s & l' & c & ? & ? & ?)]; [by left| |].
        -- right. exists v, l, c. split; [by left|done].
        -- right. exists s, l', c. split; [by right|done].
      * intros [?|(s & l' & c & [->|?]%elem_of_cons & Hs & Hc & Hx)]; [by left;left| |].
        -- rewrite Hv in Hs. injection Hs as ->. left; right. by exists c.
        -- right. by exists s, l', c.
    + split.
      * intros [?|(s & l' & c & ? & ? & ?)]; [by left|].
        right. exists s, l', c. split; [by right|done].
      * intros [?|(s & l' & c & [->|?]%elem_of_cons & Hs & Hc & Hx)]; [by left| |].
        -- by rewrite Hv in Hs.
        -- right. by exists s, l', c.
Qed.

(** *** The two dictionaries *)

Lemma requires_in_append req v h s c :
  requires_in (<[v := default [] (req !! v) ++ [h]]> req) s c ↔
  requires_in req s c ∨ (c = h ∧ s = v).
Proof.
  unfold requires_in. destruct (decide (s = v)) as [->|Hne].
  - rewrite lookup_insert_eq. split.
    + intros (l & [= <-] & [Hc|Hc%list_elem_of_singleton]%elem_of_app); [|by right].
      left. destruct (req !! v) as [l0|]; simpl in Hc; [by exists l0|].
      by apply elem_of_nil in Hc.
    + intros [(l & Hl & Hc)|[-> _]]; eexists; (split; [done|]);
        rewrite elem_of_app; [left; by rewrite Hl | right; by left].
  - rewrite lookup_insert_ne by done. naive_solver.
Qed.

Lemma update_requirements_spec req h s c :
  requires_in (update_requirements req h) s c ↔
  requires_in req s c ∨ (c = h ∧ s ∈ requires h).
Proof.
  unfold update_requirements.
  rewrite <- (elem_of_elements (requires h)).
  revert req. induction (elements (requires h)) as [|v vs IH]; intros req; simpl.
  - split; [auto|]. intros [?|[_ Hs]]; [done|]. by apply elem_of_nil in Hs.
  - rewrite IH, requires_in_append, elem_of_cons. naive_solver.
Qed.

Lemma claim_provides_return item vals prov prov' :
  claim_provides item vals prov = Return prov' →
  (∀ s, s ∈ vals → prov !! s = None)
  ∧ ∀ s p, prov' !! s = Some p ↔ prov !! s = Some p ∨ (s ∈ vals ∧ p = item).
Proof.
  revert prov. induction vals as [|v vs IH]; intros prov; simpl.
  - intros [= ->]. split; [by intros s Hs%elem_of_nil|].
    intros s p. split; [auto|]. intros [?|[Hs%elem_of_nil _]]; done.
  - destruct (prov !! v) eqn:Hv; [done|]. intros [Hnone Hiff]%IH. split.
    + intros s [->|Hs]%elem_of_cons; [done|].
      specialize (Hnone s Hs). destruct (decide (v = s)) as [->|Hne].
      * by rewrite lookup_insert_eq in Hnone.
      * by rewrite lookup_insert_ne in Hnone.
    + intros s p. rewrite Hiff, elem_of_cons.
      destruct (decide (v = s)) as [->|Hne].
      * rewrite lookup_insert_eq, Hv. naive_solver.
      * rewrite lookup_insert_ne by done. naive_solver.
Qed.

Lemma claim_provides_outcomes item vals prov :
  (∃ prov', claim_provides item vals prov = Return prov')
  ∨ claim_provides item vals prov = Raised DependencyFailure.
Proof.
  revert prov. induction vals as [|v vs IH]; intros prov; simpl; [eauto|].
  destruct (prov !! v); [by right|]. apply IH.
Qed.

Lemma claim_provides_raises item vals prov s :
  s ∈ vals → is_Some (prov !! s) →
  claim_provides item vals prov = Raised DependencyFailure.
Proof.
  revert prov. induction vals as [|v vs IH]; intros prov Hs Hp; simpl.
  - by apply elem_of_nil in Hs.
  - destruct (prov !! v) eqn:Hv; [done|].
    apply elem_of_cons in Hs as [->|Hs].
    + rewrite Hv in Hp. by destruct Hp.
    + apply IH; [done|]. destruct (decide (v = s)) as [->|Hne].
      * by rewrite lookup_insert_eq.
      * by rewrite lookup_insert_ne.
Qed.

Lemma foldl_insert_lookup (n : Item) vals (prov : gmap string Item) s :
  foldl (λ prov value, <[value := n]> prov) prov vals !! s
  = if decide (s ∈ vals) then Some n else prov !! s.
Proof.
  revert prov. induction vals as [|v vs IH]; intros prov; cbn [foldl].
  - case_decide as H; [by apply elem_of_nil in H|done].
  - rewrite IH. destruct (decide (s ∈ vs)) as [Hs|Hs].
    + case_decide as H; [done|]. destruct H. by right.
    + destruct (decide (s = v)) as [->|Hne].
      * rewrite lookup_insert_eq. case_decide as H; [done|]. destruct H. by left.
      * rewrite lookup_insert_ne by done.
        case_decide as H; [|done]. by apply elem_of_cons in H as [?|?].
Qed.

(** The dictionaries built from the nodes that are already in the flow. *)
Lemma scan_requirements ns acc s c :
  requires_in (foldl scan_node acc ns).1 s c ↔
  requires_in acc.1 s c ∨ (c ∈ ns ∧ s ∈ requires c).
Proof.
  revert acc. induction ns as [|n ns IH]; intros acc; simpl.
  - split; [auto|]. intros [?|[Hc%elem_of_nil _]]; done.
  - rewrite IH. simpl. rewrite update_requirements_spec, elem_of_cons. naive_solver.
Qed.

Lemma scan_provided ns acc s p :
  (foldl scan_node acc ns).2 !! s = Some p →
  acc.2 !! s = Some p ∨ (p ∈ ns ∧ s ∈ provides p).
Proof.
  revert acc. induction ns as [|n ns IH]; intros acc; simpl; [auto|].
  intros [H|[? ?]]%IH; [|right; split; [by right|done]].
  simpl in H. rewrite foldl_insert_lookup in H. case_decide as Hs.
  - injection H as <-. right. split; [by left|]. by apply elem_of_elements.
  - by left.
Qed.

Lemma scan_provided_some ns acc s :
  is_Some (acc.2 !! s) ∨ (∃ n, n ∈ ns ∧ s ∈ provides n) →
  is_Some ((foldl scan_node acc ns).2 !! s).
Proof.
  revert acc. induction ns as [|n ns IH]; intros acc; simpl.
  - intros [?|(n & Hn%elem_of_nil & _)]; done.
  - intros H. apply IH. simpl. rewrite foldl_insert_lookup.
    destruct H as [H|(m & [->|Hm]%elem_of_cons & Hs)].
    + left. by case_decide.
    + left. rewrite decide_True; [done|]. by apply elem_of_elements.
    + right. by exists m.
Qed.

(** *** One item, then all of them *)

Lemma add_invariant_step h tmp req prov prov1 :
  add_invariant tmp req prov →
  claim_provides h (elements (provides h)) prov = Return prov1 →
  add_invariant
    (link_requirers (update_requirements req h) h
       (link_providers prov1 h (add_node tmp h)))
    (update_requirements req h) prov1.
Proof.
  intros (Hprov & Hreq & Hlinked) [_ Hprov1]%claim_provides_return.
  set (req1 := update_requirements req h).
  set (g2 := link_providers prov1 h (add_node tmp h)).
  set (g3 := link_requirers req1 h g2).
  assert (Hp1 : ∀ s p, prov1 !! s = Some p ↔
                       (p ∈ g_nodes tmp ∨ p = h) ∧ s ∈ provides p).
  { intros s p. rewrite Hprov1, Hprov, elem_of_elements. naive_solver. }
  assert (Hr1 : ∀ s c, requires_in req1 s c ↔
                       (c ∈ g_nodes tmp ∨ c = h) ∧ s ∈ requires c).
  { intros s c. unfold req1. rewrite update_requirements_spec, Hreq. naive_solver. }
  assert (Hn2 : ∀ x, x ∈ g_nodes g2 ↔ x ∈ g_nodes tmp ∨ x = h).
  { intros x. unfold g2. rewrite link_providers_nodes, add_node_nodes. split.
    - intros [?|(s & p & _ & Hs%Hp1 & [->| ->])]; naive_solver.
    - auto. }
  assert (Hn3 : ∀ x, x ∈ g_nodes g3 ↔ x ∈ g_nodes tmp ∨ x = h).
  { intros x. unfold g3. rewrite link_requirers_nodes, Hn2. split.
    - intros [?|(s & l & c & _ & Hl & Hc & [->| ->])]; [done|by right|].
      assert (requires_in req1 s c) as Hin%Hr1 by (by exists l). tauto.
    - auto. }
  split; [|split].
  - intros s p. by rewrite Hn3.
  - intros s c. by rewrite Hn3.
  - intros p c s Hp%Hn3 Hc%Hn3 Hsp Hsc. unfold g3.
    rewrite link_requirers_edges.
    destruct (decide (p = h)) as [->|Hph].
    { right. assert (requires_in req1 s c) as (l & Hl & Hcl) by (apply Hr1; tauto).
      by exists s, l, c. }
    left. unfold g2. rewrite link_providers_edges, add_node_edges.
    destruct (decide (c = h)) as [->|Hch].
    { right. exists s, p. split; [done|]. split; [|done]. apply Hp1. tauto. }
    left. apply (Hlinked p c s); naive_solver.
Qed.

Lemma add_items_invariant items tmp req prov tmp' :
  add_invariant tmp req prov →
  add_items items tmp req prov = Return tmp' →
  ∃ req' prov', add_invariant tmp' req' prov'.
Proof.
  revert tmp req prov. induction items as [|h items IH]; intros tmp req prov Hinv.
  - intros [= <-]. by exists req, prov.
  - cbn [add_items]. unfold mbind, outcome_bind, obind.
    destruct (claim_provides h (elements (provides h)) prov) as [prov1| |] eqn:Hc;
      [|done..].
    intros Ha. eapply IH; [|exact Ha]. by eapply add_invariant_step.
Qed.

Lemma add_items_outcomes items tmp req prov :
  (∃ tmp', add_items items tmp req prov = Return tmp')
  ∨ add_items items tmp req prov = Raised DependencyFailure.
Proof.
  revert tmp req prov. induction items as [|h items IH]; intros tmp req prov.
  - left. by eexists.
  - cbn [add_items]. unfold mbind, outcome_bind, obind.
    destruct (claim_provides_outcomes h (elements (provides h)) prov)
      as [[prov1 ->]| ->]; [apply IH|by right].
Qed.

(** A duplicate provider among the items makes the loop raise. *)
Lemma add_items_raises items tmp req prov i x s :
  items !! i = Some x → s ∈ provides x →
  is_Some (prov !! s) ∨ (∃ j y, j < i ∧ items !! j = Some y ∧ s ∈ provides y) →
  add_items items tmp req prov = Raised DependencyFailure.
Proof.
  revert i tmp req prov.
  induction items as [|h items IH]; intros i tmp req prov Hi Hs Hdup; [done|].
  cbn [add_items]. unfold mbind, outcome_bind, obind.
  destruct (claim_provides_outcomes h (elements (provides h)) prov)
    as [[prov1 Hc]|Hc]; rewrite Hc; [|done].
  destruct i as [|i]; simpl in Hi.
  - injection Hi as ->. destruct Hdup as [Hp|(j & _ & Hj & _)]; [|lia].
    rewrite (claim_provides_raises x (elements (provides x)) prov s) in Hc; [done| |done].
    by apply elem_of_elements.
  - apply claim_provides_return in Hc as [_ Hc].
    apply (IH i); [done..|].
    destruct Hdup as [[p Hp]|(j & y & Hj & Hy & Hsy)].
    + left. exists p. apply Hc. by left.
    + destruct j as [|j]; simpl in Hy.
      * injection Hy as ->. left. exists y. apply Hc. right.
        split; [by apply elem_of_elements|done].
      * right. exists j, y. split; [lia|done].
Qed.

(** The dictionaries built at the start of [add] satisfy the invariant on
    the stored graph. *)
Lemma scan_invariant g :
  unique_providers g → dependencies_linked g →
  add_invariant g (foldl scan_node (∅, ∅) (g_nodes g)).1
                  (foldl scan_node (∅, ∅) (g_nodes g)).2.
Proof.
  intros Hu Hl. split; [|split; [|done]].
  - intros s p. split.
    + intros [H|?]%scan_provided; [|done]. simpl in H. by rewrite lookup_empty in H.
    + intros [Hp Hs].
      destruct (scan_provided_some (g_nodes g) (∅, ∅) s) as [q Hq]; [right; eauto|].
      rewrite Hq. f_equal.
      apply scan_provided in Hq as [H|[Hq Hsq]];
        [simpl in H; by rewrite lookup_empty in H|].
      by apply (Hu q p s).
  - intros s c. rewrite scan_requirements. unfold requires_in. simpl.
    setoid_rewrite lookup_empty. naive_solver.
Qed.

Lemma add_invariant_unique g req prov :
  add_invariant g req prov → unique_providers g.
Proof.
  intros (Hprov & _ & _) p q s Hp Hq Hsp Hsq.
  assert (prov !! s = Some p) as H1 by (by apply Hprov).
  assert (prov !! s = Some q) as H2 by (by apply Hprov).
  congruence.
Qed.

Lemma link_preserves_linked g u v :
  u ∈ g_nodes g → v ∈ g_nodes g →
  unique_providers g ∧ dependencies_linked g →
  unique_providers (add_edge g u v) ∧ dependencies_linked (add_edge g u v).
Proof.
  intros Hu Hv [Huniq Hlinked].
  assert (Hn : ∀ x, x ∈ g_nodes (add_edge g u v) ↔ x ∈ g_nodes g).
  { intros x. rewrite add_edge_nodes. naive_solver. }
  split.
  - intros p q s Hp%Hn Hq%Hn. by apply Huniq.
  - intros p c s Hp%Hn Hc%Hn Hsp Hsc. rewrite add_edge_edges. left.
    by apply (Hlinked p c s).
Qed.

(** Every flow built by [link] and [add] has unique providers, all linked
    to the nodes that require what they provide. *)
Lemma reachable_providers self :
  reachable self →
  unique_providers (_graph self) ∧ dependencies_linked (_graph self).
Proof.
  induction 1 as [nm | c self self' o _ IH Hc].
  - split.
    + intros p q s Hp%elem_of_nil. done.
    + intros p c s Hp%elem_of_nil. done.
  - destruct c as [u v | items]; simpl in Hc.
    + unfold link, mbind, M_bind, bind, get, raise in Hc. simpl in Hc.
      unfold has_node in Hc.
      case_bool_decide as Hu; simpl in Hc; [|by injection Hc as <- <-].
      case_bool_decide as Hv; simpl in Hc; [|by injection Hc as <- <-].
      destruct (has_edge (_graph self) u v); simpl in Hc; [by injection Hc as <- <-|].
      apply swap_cases in Hc as [(-> & _) | (-> & _ & _)]; [done|]. simpl.
      by apply link_preserves_linked.
    + apply add_cases in Hc as [(_ & -> & _) | [(_ & e' & _ & -> & _) |
        [(_ & _ & -> & _) | (_ & tmp & Ha & Hs)]]]; try done.
      apply swap_cases in Hs as [(-> & _) | (-> & _ & _)]; [done|]. simpl.
      destruct IH as [Hu Hl].
      apply add_items_invariant in Ha as (req' & prov' & Hinv);
        [|by apply scan_invariant].
      split; [by eapply add_invariant_unique|]. apply Hinv.
Qed.

Lemma add_raises_on_duplicate self items :
  duplicate_provider self items →
  add items self = (self, Raised DependencyFailure).
Proof.
  intros (i & x & s & Hi & Hs & Hdup).
  destruct (add items self) as [self' o] eqn:Ha.
  pose proof Ha as Hcases. apply add_cases in Hcases. cbv zeta in Hcases.
  fold (items_added self items) in Hcases.
  assert (add_items (items_added self items) (_graph self)
            (foldl scan_node (∅, ∅) (g_nodes (_graph self))).1
            (foldl scan_node (∅, ∅) (g_nodes (_graph self))).2
          = Raised DependencyFailure) as Hr.
  { apply (add_items_raises _ _ _ _ i x s); [done..|].
    destruct Hdup as [(n & Hn & Hsn)|?]; [left|by right].
    apply scan_provided_some. right. by exists n. }
  destruct Hcases as [(Hnil & _) | [(_ & e' & He & -> & ->) |
      [(_ & Hf & _) | (_ & tmp & Ht & _)]]].
  - by rewrite Hnil in Hi.
  - rewrite Hr in He. by injection He as <-.
  - by rewrite Hr in Hf.
  - by rewrite Hr in Ht.
Qed.

End graph_flow_add.

Section graph_flow_claims.
Import graph_flow.

Lemma foldl_union_list {A} (f : A → gset string) (l : list A) (X : gset string) :
  foldl (λ acc x, acc ∪ f x) X l = X ∪ ⋃ (f <$> l).
Proof.
  revert X. induction l as [|x l IH]; intros X; simpl.
  - set_solver.
  - rewrite IH. set_solver.
Qed.

Lemma flow_provides_union self :
  flow_provides self = ⋃ (provides <$> g_nodes (_graph self)).
Proof. unfold flow_provides. rewrite foldl_union_list. set_solver. Qed.

(** C10: the [provides] property of a graph flow is the union of the
    [provides] sets of its nodes and its [requires] property is the union of
    their [requires] sets minus that union; hence the two are disjoint, and
    a symbol that some node of the flow provides is never among the flow's
    requirements. *)
Theorem flow_requires_minus_provides (self : Flow) :
  flow_provides self = ⋃ (provides <$> g_nodes (_graph self))
  ∧ flow_requires self
    = ⋃ (requires <$> g_nodes (_graph self)) ∖ ⋃ (provides <$> g_nodes (_graph self))
  ∧ flow_requires self ## flow_provides self
  ∧ ∀ n s, n ∈ g_nodes (_graph self) → s ∈ provides n → s ∉ flow_requires self.
Proof.
  pose proof (flow_provides_union self) as Hp.
  assert (flow_requires self
          = ⋃ (requires <$> g_nodes (_graph self)) ∖ flow_provides self) as Hr.
  { unfold flow_requires. rewrite foldl_union_list. set_solver. }
  split; [done|]. split; [by rewrite Hr, Hp|]. split; [set_solver|].
  intros n s Hn Hs. rewrite Hr, Hp. intros [_ Hno]%elem_of_difference.
  apply Hno, elem_of_union_list. exists (provides n). split; [|done].
  apply list_elem_of_fmap. by exists n.
Qed.

(** C7: every flow obtained from a fresh one by [link] and [add] calls
    stores an acyclic graph, and a call that raises (in particular with
    [DependencyFailure]) leaves the flow exactly as it was before the
    call. *)
Theorem link_add_acyclic_and_atomic (self : Flow) :
  reachable self →
  acyclic (_graph self)
  ∧ ∀ c self' e, run_call c self = (self', Raised e) → self' = self.
Proof.
  intros Hr. split; [by apply reachable_acyclic|].
  intros c self' e. apply call_raises_unchanged.
Qed.

(** C8: [add] raises [DependencyFailure] whenever an item being added
    provides a symbol that a node of the flow or an earlier item of the same
    call provides; hence in every flow built by [link] and [add] a symbol
    has at most one provider, and every provider of a symbol is linked by an
    edge to every node requiring that symbol. *)
Theorem add_rejects_duplicates_and_links (self : Flow) :
  reachable self →
  (∀ items, duplicate_provider self items →
            add items self = (self, Raised DependencyFailure))
  ∧ unique_providers (_graph self)
  ∧ dependencies_linked (_graph self).
Proof.
  intros Hr. split; [intros items; apply add_raises_on_duplicate|].
  by apply reachable_providers.
Qed.

End graph_flow_claims.

(** * Properties of the traversals *)

Section worklist.
Import action_engine engine_spec.

Variables (next emit : Atom → list Atom).
Variable push : list Atom → list Atom → list Atom.
Hypothesis push_perm : ∀ work children, push work children ≡ₚ work ++ children.

Local Abbreviation loop := (worklist_loop next emit push).

Lemma worklist_mono fuel fuel' work l :
  loop fuel work = Return l → fuel ≤ fuel' → loop fuel' work = Return l.
Proof.
  revert fuel' work l. induction fuel as [|fuel IH]; intros fuel' work l.
  - destruct work; [|done]. intros [= <-] _. by destruct fuel'.
  - destruct work as [|n work]; [intros [= <-] _; by destruct fuel'|].
    intros H Hle. destruct fuel' as [|fuel']; [lia|].
    cbn [worklist_loop] in *. unfold mbind, outcome_bind, obind in *.
    destruct (loop fuel (push work (next n))) as [rest| |] eqn:Hr; [|done..].
    rewrite (IH fuel' _ rest Hr) by lia. done.
Qed.

Lemma worklist_not_raised fuel work e : loop fuel work ≠ Raised e.
Proof.
  revert work. induction fuel as [|fuel IH]; intros [|n work]; try done.
  cbn [worklist_loop]. unfold mbind, outcome_bind, obind.
  specialize (IH (push work (next n))).
  by destruct (loop fuel (push work (next n))).
Qed.

(** Termination: every node weighs more than the nodes it leads to. *)
Section total.
Variable w : Atom → nat.
Hypothesis w_decreases : ∀ n, sum_list_with w (next n) < w n.

Lemma worklist_total fuel work :
  sum_list_with w work < fuel → ∃ l, loop fuel work = Return l.
Proof.
  revert work. induction fuel as [|fuel IH]; intros work Hf; [lia|].
  destruct work as [|n work]; [by eexists|].
  cbn [worklist_loop]. unfold mbind, outcome_bind, obind.
  destruct (IH (push work (next n))) as [rest ->]; [|by eexists].
  rewrite push_perm, sum_list_with_app.
  specialize (w_decreases n). simpl in Hf. lia.
Qed.
End total.

(** What is yielded: exactly what [emit] gives for the nodes reached. *)
Lemma worklist_sound fuel work l x :
  loop fuel work = Return l → x ∈ l →
  ∃ c y, c ∈ work ∧ rtc (λ a b, b ∈ next a) c y ∧ x ∈ emit y.
Proof.
  revert work l. induction fuel as [|fuel IH]; intros [|n work] l; try done.
  - intros [= <-] Hx. by apply elem_of_nil in Hx.
  - intros [= <-] Hx. by apply elem_of_nil in Hx.
  - cbn [worklist_loop]. unfold mbind, outcome_bind, obind.
    destruct (loop fuel (push work (next n))) as [rest| |] eqn:Hr; [|done..].
    intros [= <-] [Hx|Hx]%elem_of_app.
    + exists n, n. split; [by left|]. split; [apply rtc_refl|done].
    + destruct (IH _ _ Hr Hx) as (c & y & Hc & Hcy & Hy).
      rewrite push_perm in Hc. apply elem_of_app in Hc as [Hc|Hc].
      * exists c, y. split; [by right|done].
      * exists n, y. split; [by left|]. split; [|done]. by eapply rtc_l.
Qed.

Lemma worklist_complete fuel work l c y x :
  loop fuel work = Return l → c ∈ work → rtc (λ a b, b ∈ next a) c y →
  x ∈ emit y → x ∈ l.
Proof.
  revert work l c. induction fuel as [|fuel IH]; intros [|n work] l c; try done.
  - intros _ Hc. by apply elem_of_nil in Hc.
  - intros _ Hc. by apply elem_of_nil in Hc.
  - cbn [worklist_loop]. unfold mbind, outcome_bind, obind.
    destruct (loop fuel (push work (next n))) as [rest| |] eqn:Hr; [|done..].
    intros [= <-] Hc Hcy Hx. apply elem_of_app.
    apply elem_of_cons in Hc as [->|Hc].
    + apply rtc_inv in Hcy as [->|(b & Hb & Hby)]; [by left|].
      right. apply (IH _ _ b Hr); [|done..].
      rewrite push_perm. apply elem_of_app. by right.
    + right. apply (IH _ _ c Hr); [|done..].
      rewrite push_perm. apply elem_of_app. by left.
Qed.

End worklist.

Section traversal.
Import action_engine engine_spec.

Variable g : ExecutionGraph.

Lemma breadth_first_loop_worklist fuel direction through_retries q :
  breadth_first_loop fuel g direction through_retries q
  = worklist_loop (connected_to g direction through_retries) (yielded g)
      (λ work children, work ++ children) fuel q.
Proof.
  revert q. induction fuel as [|fuel IH]; intros [|n q]; try done.
  cbn [breadth_first_loop worklist_loop]. by rewrite IH.
Qed.

Lemma depth_first_loop_worklist fuel direction through_retries stack :
  depth_first_loop fuel g direction through_retries stack
  = worklist_loop (connected_to g direction through_retries) (yielded g)
      (λ work children, reverse children ++ work) fuel stack.
Proof.
  revert stack. induction fuel as [|fuel IH]; intros [|n stack]; try done.
  cbn [depth_first_loop worklist_loop]. by rewrite IH.
Qed.

Lemma elem_of_predecessors_iter u v :
  u ∈ predecessors_iter g v ↔ ∃ d, (u, v, d) ∈ edges g.
Proof.
  unfold predecessors_iter. rewrite list_elem_of_fmap. split.
  - intros (p & -> & (e & -> & [Hv He]%list_elem_of_filter)%list_elem_of_fmap).
    destruct e as [[u' v'] d]. simpl in *. subst. by exists d.
  - intros [d Hd]. exists (u, v). split; [done|].
    apply list_elem_of_fmap. exists (u, v, d). split; [done|].
    by apply list_elem_of_filter.
Qed.

Lemma elem_of_successors_iter u v :
  v ∈ successors_iter g u ↔ ∃ d, (u, v, d) ∈ edges g.
Proof.
  unfold successors_iter. rewrite list_elem_of_fmap. split.
  - intros (p & -> & (e & -> & [Hv He]%list_elem_of_filter)%list_elem_of_fmap).
    destruct e as [[u' v'] d]. simpl in *. subst. by exists d.
  - intros [d Hd]. exists (u, v). split; [done|].
    apply list_elem_of_fmap. exists (u, v, d). split; [done|].
    by apply list_elem_of_filter.
Qed.

Lemma connected_iter_length direction n :
  length (connected_iter g direction n) ≤ length (edges g).
Proof.
  destruct direction; simpl; unfold successors_iter, predecessors_iter;
    rewrite !length_fmap; apply length_filter.
Qed.

Lemma elem_of_connected_to direction through_retries a b :
  b ∈ connected_to g direction through_retries a ↔
  (kind g a = co.RETRY → through_retries = true) ∧ b ∈ connected_iter g direction a.
Proof.
  unfold connected_to. destruct (kind g a) eqn:Hk; [naive_solver| |naive_solver].
  destruct through_retries; [naive_solver|].
  split; [by intros ?%elem_of_nil|]. intros [H _]. by specialize (H eq_refl).
Qed.

Lemma connected_to_length direction through_retries n :
  length (connected_to g direction through_retries n) ≤ length (edges g).
Proof.
  unfold connected_to.
  destruct (kind g n); [|destruct through_retries|];
    try apply connected_iter_length. simpl. lia.
Qed.

Lemma elem_of_yielded x y :
  x ∈ yielded g y ↔ x = y ∧ kind g y ∈ co.ATOMS.
Proof.
  unfold yielded. case_bool_decide.
  - rewrite list_elem_of_singleton. naive_solver.
  - split; [by intros ?%elem_of_nil|naive_solver].
Qed.

(** [walk] is the reachability that the work list computes. *)
Lemma walk_rtc direction through_retries start x :
  walk g direction through_retries start x ↔
  ∃ c, c ∈ connected_iter g direction start
       ∧ rtc (λ a b, b ∈ connected_to g direction through_retries a) c x.
Proof.
  split.
  - induction 1 as [x Hx | y x _ (c & Hc & Hcy) Hr Hx].
    + exists x. split; [done|apply rtc_refl].
    + exists c. split; [done|]. eapply rtc_r; [done|].
      by apply elem_of_connected_to.
  - intros (c & Hc & Hcx). revert x Hcx. apply rtc_ind_r.
    + by apply walk_first.
    + intros y z _ [Hr Hz]%elem_of_connected_to Hy. by eapply walk_next.
Qed.

(** *** Termination on a DAG *)

Variable rank : Atom → nat.
Hypothesis rank_topological : topological g rank.

Lemma distance_decreases direction a b :
  b ∈ connected_iter g direction a →
  distance g rank direction b < distance g rank direction a.
Proof.
  unfold topological in rank_topological.
  rewrite Forall_forall in rank_topological.
  destruct direction; simpl.
  - intros [d Hd]%elem_of_successors_iter.
    pose proof (rank_topological _ Hd) as Hlt. simpl in Hlt.
    assert (rank b ≤ max_list ((λ e, rank e.1.2) <$> edges g)).
    { apply max_list_elem_of_le, list_elem_of_fmap. by exists (a, b, d). }
    lia.
  - intros [d Hd]%elem_of_predecessors_iter.
    by pose proof (rank_topological _ Hd) as Hlt.
Qed.

Lemma sum_list_with_bound {A} (f : A → nat) (l : list A) (b : nat) :
  (∀ x, x ∈ l → f x ≤ b) → sum_list_with f l ≤ length l * b.
Proof.
  induction l as [|x l IH]; intros Hb; simpl; [lia|].
  specialize (Hb x (list_elem_of_here _ _)) as Hx.
  assert (sum_list_with f l ≤ length l * b).
  { apply IH. intros y Hy. apply Hb. by right. }
  lia.
Qed.

Lemma weight_decreases direction through_retries n :
  sum_list_with (weight g rank direction)
    (connected_to g direction through_retries n)
  < weight g rank direction n.
Proof.
  unfold weight.
  set (B := S (length (edges g))).
  set (l := connected_to g direction through_retries n).
  destruct (distance g rank direction n) as [|d] eqn:Hd.
  - assert (l = []) as ->.
    { destruct l as [|c l'] eqn:Hl; [done|].
      assert (c ∈ connected_to g direction through_retries n) as Hc
        by (fold l; rewrite Hl; left).
      apply elem_of_connected_to in Hc as [_ Hc%distance_decreases]. lia. }
    simpl. lia.
  - assert (sum_list_with (λ c, B ^ distance g rank direction c) l
            ≤ length l * B ^ d) as Hsum.
    { apply sum_list_with_bound. intros c Hc.
      apply elem_of_connected_to in Hc as [_ Hc%distance_decreases].
      apply Nat.pow_le_mono_r; lia. }
    assert (length l ≤ length (edges g)) as Hlen by apply connected_to_length.
    assert (0 < B ^ d) by (apply Nat.neq_0_lt_0, Nat.pow_nonzero; lia).
    rewrite Nat.pow_succ_r'. unfold B at 2. nia.
Qed.

(** Both traversals end (with enough fuel) and yield exactly the atoms that
    [walk] reaches from the starting node. *)
Lemma depth_first_iterate_spec direction through_retries start fuel :
  walk_fuel g rank direction start ≤ fuel →
  ∃ l, depth_first_iterate fuel g start direction through_retries = Return l
       ∧ ∀ x, x ∈ l ↔ walk g direction through_retries start x ∧ kind g x ∈ co.ATOMS.
Proof.
  intros Hf. unfold depth_first_iterate. rewrite depth_first_loop_worklist.
  set (push := λ work children : list Atom, reverse children ++ work).
  assert (Hperm : ∀ w c, push w c ≡ₚ w ++ c).
  { intros w c. unfold push. rewrite reverse_Permutation. apply Permutation_app_comm. }
  destruct (worklist_total _ (yielded g) push Hperm (weight g rank direction)
              (weight_decreases direction through_retries) fuel
              (reverse (connected_iter g direction start))) as [l Hl].
  { rewrite sum_list_with_reverse. unfold walk_fuel in Hf. lia. }
  exists l. split; [done|]. intros x. rewrite walk_rtc. split.
  - intros Hx. destruct (worklist_sound _ _ _ Hperm _ _ _ _ Hl Hx)
      as (c & y & Hc & Hcy & [-> Hy]%elem_of_yielded).
    split; [|done]. exists c. split; [|done]. by rewrite elem_of_reverse in Hc.
  - intros [(c & Hc & Hcx) Hk].
    apply (worklist_complete _ _ _ Hperm _ _ _ c x x Hl); [|done|].
    + by rewrite elem_of_reverse.
    + by apply elem_of_yielded.
Qed.

Lemma breadth_first_iterate_spec direction through_retries start fuel :
  walk_fuel g rank direction start ≤ fuel →
  ∃ l, breadth_first_iterate fuel g start direction through_retries = Return l
       ∧ ∀ x, x ∈ l ↔ walk g direction through_retries start x ∧ kind g x ∈ co.ATOMS.
Proof.
  intros Hf. unfold breadth_first_iterate. rewrite breadth_first_loop_worklist.
  set (push := λ work children : list Atom, work ++ children).
  assert (Hperm : ∀ w c, push w c ≡ₚ w ++ c) by done.
  destruct (worklist_total _ (yielded g) push Hperm (weight g rank direction)
              (weight_decreases direction through_retries) fuel
              (connected_iter g direction start)) as [l Hl].
  { unfold walk_fuel in Hf. lia. }
  exists l. split; [done|]. intros x. rewrite walk_rtc. split.
  - intros Hx. destruct (worklist_sound _ _ _ Hperm _ _ _ _ Hl Hx)
      as (c & y & Hc & Hcy & [-> Hy]%elem_of_yielded).
    split; [|done]. by exists c.
  - intros [(c & Hc & Hcx) Hk].
    apply (worklist_complete _ _ _ Hperm _ _ _ c x x Hl); [done..|].
    by apply elem_of_yielded.
Qed.

End traversal.

(** * Properties of the analyzer *)

Section analyzer.
Import action_engine engine_spec.

Lemma get_atoms_states_lookup (s : Storage) (names : list string) (n : string) :
  n ∈ names → get_atoms_states s names !! n = Some (s n).
Proof.
  intros Hn. unfold get_atoms_states.
  apply elem_of_list_to_map_1'.
  - intros y (m & Heq & _)%list_elem_of_fmap. injection Heq as -> ->.
    unfold get_atom_state, get_atom_intention. by destruct (s m).
  - apply list_elem_of_fmap. exists n. split; [|done].
    unfold get_atom_state, get_atom_intention. by destruct (s n).
Qed.

Lemma subscript_atoms_states (s : Storage) (names : list string) (n : string) :
  n ∈ names → subscript (get_atoms_states s names) n = Return (s n).
Proof. intros Hn. unfold subscript. by rewrite get_atoms_states_lookup. Qed.

Lemma iter_connected_states_spec (s : Storage) (connected : list Atom) :
  iter_connected_states s connected
  = Return ((λ atom, (atom, s (name atom))) <$> connected).
Proof.
  induction connected as [|a l IH]; [done|].
  cbn [iter_connected_states]. rewrite subscript_atoms_states by left.
  rewrite IH. done.
Qed.

Lemma execute_ready_checker_spec (s : Storage) (connected : list Atom) :
  execute_ready_checker ((λ atom, (atom, s (name atom))) <$> connected) = true
  ↔ ∀ x, x ∈ connected → happy (s (name x)).
Proof.
  unfold execute_ready_checker, happy. rewrite forallb_forall. split.
  - intros H x Hx.
    assert (In (x, s (name x)) ((λ atom, (atom, s (name atom))) <$> connected))
      as Hin by (apply list_elem_of_In, list_elem_of_fmap; by exists x).
    apply H in Hin. destruct (s (name x)) as [x_state x_intention]. simpl in *.
    apply andb_prop in Hin as [H1%bool_decide_eq_true H2%bool_decide_eq_true].
    by split.
  - intros H [x [x_state x_intention]] (y & [= -> Hs] & Hy)%list_elem_of_In%list_elem_of_fmap.
    specialize (H y Hy). rewrite <- Hs in H. destruct H as [H1 H2]. simpl in *.
    apply andb_true_intro. split; by apply bool_decide_eq_true.
Qed.

Lemma revert_ready_checker_spec (s : Storage) (connected : list Atom) :
  revert_ready_checker ((λ atom, (atom, s (name atom))) <$> connected) = true
  ↔ ∀ x, x ∈ connected → revertable (s (name x)).
Proof.
  unfold revert_ready_checker, revertable. rewrite forallb_forall. split.
  - intros H x Hx.
    assert (In (x, s (name x)) ((λ atom, (atom, s (name atom))) <$> connected))
      as Hin by (apply list_elem_of_In, list_elem_of_fmap; by exists x).
    apply H in Hin. destruct (s (name x)) as [x_state x_intention]. simpl in *.
    by apply bool_decide_eq_true in Hin.
  - intros H [x [x_state x_intention]] (y & [= -> Hs] & Hy)%list_elem_of_In%list_elem_of_fmap.
    specialize (H y Hy). rewrite <- Hs in H. simpl in *.
    by apply bool_decide_eq_true.
Qed.

(** The shape of every answer of [_get_maybe_ready], when the atom has
    its metadata and the connected atoms can be enumerated. *)
Lemma get_maybe_ready_spec runtime storage atom transition_to allowed
    connected ready_checker decider_fetcher metadata late :
  _atom_cache runtime !! name atom = Some metadata →
  decider_fetcher = Return late →
  let ok :=
    check_transition_handler metadata (get_atom_state storage (name atom))
      transition_to
    && bool_decide (get_atom_intention storage (name atom) ∈ allowed)
    && ready_checker ((λ a, (a, storage (name a))) <$> connected) in
  _get_maybe_ready runtime storage atom transition_to allowed
    (Return connected) ready_checker decider_fetcher
  = Return (ok, if ok then Some late else None).
Proof.
  intros Hmd -> ok. unfold ok, _get_maybe_ready, check_atom_transition,
    _fetch_atom_metadata, subscript.
  rewrite Hmd. cbn [mbind outcome_bind obind].
  destruct (check_transition_handler metadata _ _); [|done]. simpl.
  case_bool_decide; [|done]. simpl.
  rewrite iter_connected_states_spec. cbn [mbind outcome_bind obind].
  by destruct (ready_checker _).
Qed.

End analyzer.

Section analyzer_claims.
Import action_engine engine_spec.

(** C1: for an atom of a compiled runtime over a DAG, the readiness check
    for execution returns; it answers ready exactly when the transition of
    the atom from its stored state to [RUNNING] is legal, its stored
    intention is [EXECUTE], and every atom reached backward from it has its
    state among [SUCCESS], [IGNORE] and its intention among [EXECUTE],
    [IGNORE].  When ready, the late decider is the [IgnoreDecider] built
    from the atom's cached edge deciders; otherwise it is [None]. *)
Theorem maybe_ready_for_execute_iff (runtime : Runtime) (storage : Storage)
    (atom : Atom) (rank : Atom → nat) (metadata : Metadata) (fuel : nat) :
  topological (execution_graph runtime) rank →
  _atom_cache runtime !! name atom = Some metadata →
  walk_fuel (execution_graph runtime) rank BACKWARD atom ≤ fuel →
  ∃ ready late_decider,
    _get_maybe_ready_for_execute fuel runtime storage atom
      = Return (ready, late_decider)
    ∧ (ready = true ↔
         check_atom_transition runtime atom
           (get_atom_state storage (name atom)) st.RUNNING = Return true
         ∧ get_atom_intention storage (name atom) = st.EXECUTE
         ∧ ∀ x, walk (execution_graph runtime) BACKWARD true atom x →
                kind (execution_graph runtime) x ∈ co.ATOMS →
                happy (storage (name x)))
    ∧ (ready = true →
         ∃ deciders, fetch_edge_deciders runtime atom = Return deciders
                     ∧ late_decider = Some (IgnoreDecider atom deciders))
    ∧ (ready = false → late_decider = None).
Proof.
  intros Hdag Hmd Hfuel.
  destruct (depth_first_iterate_spec _ rank Hdag BACKWARD true atom fuel Hfuel)
    as (connected & Hwalk & Hconn).
  assert (fetch_edge_deciders runtime atom = Return (edge_deciders metadata)) as Hfetch.
  { unfold fetch_edge_deciders, _fetch_atom_metadata, subscript. by rewrite Hmd. }
  assert (check_atom_transition runtime atom
            (get_atom_state storage (name atom)) st.RUNNING
          = Return (check_transition_handler metadata
                      (get_atom_state storage (name atom)) st.RUNNING)) as Hcheck.
  { unfold check_atom_transition, _fetch_atom_metadata, subscript. by rewrite Hmd. }
  unfold _get_maybe_ready_for_execute. rewrite Hwalk, Hfetch.
  cbn [mbind outcome_bind obind].
  erewrite get_maybe_ready_spec by done. cbv zeta.
  eexists _, _. split; [done|]. rewrite Hcheck.
  destruct (check_transition_handler metadata _ _); simpl.
  2: { split; [|split; [by intros [=]|done]]. split; [by intros [=]|]. by intros [[=] _]. }
  case_bool_decide as Hint; simpl.
  - apply list_elem_of_singleton in Hint.
    destruct (execute_ready_checker _) eqn:Hready.
    + split; [|split; [eauto|done]]. split; [|done]. intros _.
      split; [done|]. split; [done|]. intros x Hx Hk.
      rewrite execute_ready_checker_spec in Hready. apply Hready, Hconn. done.
    + split; [|split; [by intros [=]|done]]. split; [by intros [=]|]. intros (_ & _ & Hall).
      rewrite <- Hready. apply execute_ready_checker_spec.
      intros x [Hx Hk]%Hconn. by apply Hall.
  - split; [|split; [by intros [=]|done]]. split; [by intros [=]|]. intros (_ & Hi & _).
    destruct Hint. rewrite Hi. by left.
Qed.

(** C2: for an atom of a compiled runtime over a DAG, the readiness check
    for reversion returns; it answers ready exactly when the transition of
    the atom from its stored state to [REVERTING] is legal, its stored
    intention is [REVERT] or [RETRY], and every atom reached forward from it
    has its state among [PENDING], [REVERTED], [IGNORE].  When ready, the
    late decider is a [NoOpDecider]. *)
Theorem maybe_ready_for_revert_iff (runtime : Runtime) (storage : Storage)
    (atom : Atom) (rank : Atom → nat) (metadata : Metadata) (fuel : nat) :
  topological (execution_graph runtime) rank →
  _atom_cache runtime !! name atom = Some metadata →
  walk_fuel (execution_graph runtime) rank FORWARD atom ≤ fuel →
  ∃ ready late_decider,
    _get_maybe_ready_for_revert fuel runtime storage atom
      = Return (ready, late_decider)
    ∧ (ready = true ↔
         check_atom_transition runtime atom
           (get_atom_state storage (name atom)) st.REVERTING = Return true
         ∧ get_atom_intention storage (name atom) ∈ [st.REVERT; st.RETRY]
         ∧ ∀ x, walk (execution_graph runtime) FORWARD true atom x →
                kind (execution_graph runtime) x ∈ co.ATOMS →
                revertable (storage (name x)))
    ∧ (ready = true → late_decider = Some NoOpDecider)
    ∧ (ready = false → late_decider = None).
Proof.
  intros Hdag Hmd Hfuel.
  destruct (depth_first_iterate_spec _ rank Hdag FORWARD true atom fuel Hfuel)
    as (connected & Hwalk & Hconn).
  assert (check_atom_transition runtime atom
            (get_atom_state storage (name atom)) st.REVERTING
          = Return (check_transition_handler metadata
                      (get_atom_state storage (name atom)) st.REVERTING)) as Hcheck.
  { unfold check_atom_transition, _fetch_atom_metadata, subscript. by rewrite Hmd. }
  unfold _get_maybe_ready_for_revert. rewrite Hwalk.
  erewrite get_maybe_ready_spec by done. cbv zeta.
  eexists _, _. split; [done|]. rewrite Hcheck.
  destruct (check_transition_handler metadata _ _); simpl.
  2: { split; [|split; [by intros [=]|done]]. split; [by intros [=]|]. by intros [[=] _]. }
  case_bool_decide as Hint; simpl.
  - destruct (revert_ready_checker _) eqn:Hready.
    + split; [|split; done]. split; [|done]. intros _.
      split; [done|]. split; [done|]. intros x Hx Hk.
      rewrite revert_ready_checker_spec in Hready. apply Hready, Hconn. done.
    + split; [|split; [by intros [=]|done]]. split; [by intros [=]|]. intros (_ & _ & Hall).
      rewrite <- Hready. apply revert_ready_checker_spec.
      intros x [Hx Hk]%Hconn. by apply Hall.
  - split; [|split; [by intros [=]|done]]. split; [by intros [=]|]. intros (_ & Hi & _). done.
Qed.

Lemma is_success_loop_spec (storage : Storage) (names : list string)
    (atoms : list Atom) :
  (∀ a, a ∈ atoms → name a ∈ names) →
  ∃ b, is_success_loop (get_atoms_states storage names) atoms = Return b
       ∧ (b = true ↔
          ∀ a, a ∈ atoms → get_atom_state storage (name a) ∈ [st.SUCCESS; st.IGNORE]).
Proof.
  induction atoms as [|a atoms IH]; intros Hin.
  - exists true. split; [done|]. split; [|done]. by intros _ a Ha%elem_of_nil.
  - destruct IH as (b & Hb & Hiff); [intros x Hx; apply Hin; by right|].
    cbn [is_success_loop]. rewrite subscript_atoms_states by (apply Hin; left).
    cbn [mbind outcome_bind obind]. unfold get_atom_state in *.
    destruct (storage (name a)) as [a_state a_intention] eqn:Ha.
    destruct (decide (a_state = st.IGNORE)) as [->|Hni].
    { exists b. split; [done|]. rewrite Hiff. split.
      - intros H x [->|Hx]%elem_of_cons; [|by apply H].
        rewrite Ha. simpl. set_solver.
      - intros H x Hx. apply H. by right. }
    destruct (decide (a_state ≠ st.SUCCESS)) as [Hns|Hs].
    { exists false. split; [done|]. split; [done|]. intros H.
      specialize (H a (list_elem_of_here _ _)). rewrite Ha in H. simpl in H.
      set_solver. }
    exists b. split; [done|]. rewrite Hiff. split.
    + intros H x [->|Hx]%elem_of_cons; [|by apply H].
      rewrite Ha. simpl. destruct (decide (a_state = st.SUCCESS)); set_solver.
    + intros H x Hx. apply H. by right.
Qed.

(** C6: [is_success] returns, and it returns true exactly when every atom
    node of the execution graph has the stored state [SUCCESS] or
    [IGNORE]. *)
Theorem is_success_iff (runtime : Runtime) (storage : Storage) :
  ∃ b, is_success runtime storage = Return b
       ∧ (b = true ↔
          ∀ atom, atom ∈ nodes (execution_graph runtime) →
                  kind (execution_graph runtime) atom ∈ co.ATOMS →
                  get_atom_state storage (name atom) ∈ [st.SUCCESS; st.IGNORE]).
Proof.
  unfold is_success.
  destruct (is_success_loop_spec storage
              (name <$> iterate_nodes (execution_graph runtime) co.ATOMS)
              (iterate_nodes (execution_graph runtime) co.ATOMS)) as (b & Hb & Hiff).
  { intros a Ha. apply list_elem_of_fmap. by exists a. }
  exists b. split; [done|]. rewrite Hiff. unfold iterate_nodes.
  setoid_rewrite list_elem_of_filter. naive_solver.
Qed.

End analyzer_claims.

(** * Properties of the runtime: resetting atoms *)

Section runtime_reset.
Import action_engine engine_spec.

Lemma compiled_change_state runtime node :
  compiled runtime →
  node ∈ nodes (execution_graph runtime) →
  kind (execution_graph runtime) node ∈ co.ATOMS →
  ∃ metadata, _atom_cache runtime !! name node = Some metadata
    ∧ ∀ state, change_state_handler metadata node state
               = set_atom_state (name node) state.
Proof.
  intros Hc Hn Hk. destruct (Hc node Hn Hk) as (metadata & Hmd & Hh).
  exists metadata. split; [done|]. intros state. rewrite Hh.
  by destruct (kind (execution_graph runtime) node).
Qed.

(** Resetting a list of atoms to a state and an intention overwrites the
    entries of exactly these atoms. *)
Lemma reset_atoms_both runtime atoms state intention storage storage' o :
  compiled runtime →
  (∀ a, a ∈ atoms → a ∈ nodes (execution_graph runtime)
                    ∧ kind (execution_graph runtime) a ∈ co.ATOMS) →
  reset_atoms runtime atoms (Some state) (Some intention) storage = (storage', o) →
  o = Return ((λ a, (a, Some state, Some intention)) <$> atoms)
  ∧ ∀ n, storage' n = if decide (n ∈ name <$> atoms)
                      then (state, intention) else storage n.
Proof.
  intros Hc. revert storage storage' o.
  induction atoms as [|a atoms IH]; intros storage storage' o Hin.
  - intros [= <- <-]. split; [done|]. intros n. case_decide as H; [|done].
    by apply elem_of_nil in H.
  - destruct (compiled_change_state runtime a Hc) as (metadata & Hmd & Hh);
      [apply Hin; left..|].
    cbn [reset_atoms].
    unfold mbind, M_bind, bind, mret, M_ret, ret, lift,
      _fetch_atom_metadata, subscript.
    rewrite Hmd, Hh.
    unfold set_atom_state, set_atom_intention, mbind, M_bind, bind, get, put.
    cbn [fst snd].
    match goal with
    | |- context [reset_atoms _ _ _ _ ?s] =>
      destruct (reset_atoms runtime atoms (Some state) (Some intention) s)
        as [storage2 o2] eqn:Hr
    end.
    apply IH in Hr as [-> Hs2]; [|intros x Hx; apply Hin; by right].
    intros [= <- <-]. split.
    + done.
    + intros n. rewrite Hs2, fmap_cons.
      repeat case_decide; simplify_eq; set_solver.
Qed.

(** Setting only the intention of one atom. *)
Lemma reset_atoms_intention runtime atom intention storage :
  reset_atoms runtime [atom] None (Some intention) storage
  = (λ n, if decide (n = name atom) then ((storage n).1, intention) else storage n,
     Return [(atom, None, Some intention)]).
Proof.
  cbn [reset_atoms].
  unfold set_atom_intention, mbind, M_bind, bind, mret, M_ret, ret, get, put.
  done.
Qed.

End runtime_reset.

Section runtime_claims.
Import action_engine engine_spec.

Variable iterate_connected_atoms : Runtime → Atom → list Atom.

(** C9: on a compiled runtime, when the subgraph enumerated for a retry
    consists of atoms of the graph other than the retry itself,
    [retry_subflow] returns after setting the stored intention of the retry
    to [EXECUTE] without changing its stored state, and after resetting
    every atom of the subgraph to the state [PENDING] with the intention
    [EXECUTE]; the entry of every other atom is unchanged. *)
Theorem retry_subflow_frame (runtime : Runtime) (retry : Atom)
    (storage : Storage) :
  compiled runtime →
  (∀ a, a ∈ iterate_connected_atoms runtime retry →
        a ∈ nodes (execution_graph runtime)
        ∧ kind (execution_graph runtime) a ∈ co.ATOMS) →
  name retry ∉ name <$> iterate_connected_atoms runtime retry →
  ∃ storage' tweaked,
    retry_subflow iterate_connected_atoms runtime retry storage
      = (storage', Return tweaked)
    ∧ get_atom_intention storage' (name retry) = st.EXECUTE
    ∧ get_atom_state storage' (name retry) = get_atom_state storage (name retry)
    ∧ (∀ a, a ∈ iterate_connected_atoms runtime retry →
            storage' (name a) = (st.PENDING, st.EXECUTE))
    ∧ (∀ n, n ≠ name retry →
            n ∉ name <$> iterate_connected_atoms runtime retry →
            storage' n = storage n).
Proof.
  intros Hc Hsub Hretry.
  unfold retry_subflow, reset_subgraph.
  unfold mbind at 1, M_bind at 1, bind at 1. rewrite reset_atoms_intention.
  unfold mbind at 1, M_bind at 1, bind at 1.
  match goal with
  | |- context [reset_atoms _ _ _ _ ?s] =>
    destruct (reset_atoms runtime (iterate_connected_atoms runtime retry)
                (Some st.PENDING) (Some st.EXECUTE) s) as [storage' o] eqn:Hr
  end.
  apply reset_atoms_both in Hr as [-> Hs']; [|done..].
  eexists storage', _. split; [done|].
  unfold get_atom_intention, get_atom_state.
  split; [|split; [|split]].
  - rewrite Hs'. rewrite decide_False by done. by rewrite decide_True.
  - rewrite Hs'. rewrite decide_False by done. by rewrite decide_True.
  - intros a Ha. rewrite Hs'. rewrite decide_True; [done|].
    apply list_elem_of_fmap. by exists a.
  - intros n Hn Hnot. rewrite Hs'. rewrite decide_False by done.
    by rewrite decide_False.
Qed.

End runtime_claims.

(** * Properties of the edge-decider walk *)

Section walk_deciders.
Import action_engine engine_spec.

Variable g : ExecutionGraph.

Lemma walk_loop_unfold fuel u v nodes' visited :
  walk_loop (S fuel) g ((u, v) :: nodes') visited
  = if bool_decide (kind g u = co.FLOW ∧ u ∉ visited)
    then '(rest, explored) ← walk_loop fuel g (nodes' ++ pairs_into g u) (u :: visited);
         Return (from_option (λ t, [t]) [] (edge_triple g (u, v)) ++ rest,
                 u :: explored)
    else '(rest, explored) ← walk_loop fuel g nodes' visited;
         Return (from_option (λ t, [t]) [] (edge_triple g (u, v)) ++ rest, explored).
Proof.
  cbn [walk_loop]. unfold edge_triple, pairs_into. cbn [fst snd].
  by destruct (link_decider g u v).
Qed.

(** *** Termination *)

Lemma unexplored_visit visited u :
  kind g u = co.FLOW → u ∉ visited →
  length (unexplored g (u :: visited)) + length (predecessors_iter g u)
  = length (unexplored g visited).
Proof.
  intros Hk Hu. unfold unexplored, predecessors_iter.
  rewrite !length_fmap.
  induction (edges g) as [|e es IH]; [done|].
  rewrite !filter_cons.
  destruct (decide (e.1.2 = u)) as [He|He].
  - rewrite decide_False; [|intros [_ Hn]; apply Hn; rewrite He; left].
    rewrite decide_True by (by rewrite He). simpl. lia.
  - destruct (decide (kind g e.1.2 = co.FLOW ∧ e.1.2 ∉ visited)) as [[H1 H2]|Hn].
    + rewrite decide_True; [simpl; lia|].
      split; [done|]. by intros [?|?]%elem_of_cons.
    + rewrite decide_False; [done|].
      intros [H1 H2]. apply Hn. split; [done|]. intros ?. apply H2. by right.
Qed.

Lemma walk_loop_total fuel nodes visited :
  length nodes + length (unexplored g visited) < fuel →
  ∃ r, walk_loop fuel g nodes visited = Return r.
Proof.
  revert nodes visited. induction fuel as [|fuel IH]; intros nodes visited Hf; [lia|].
  destruct nodes as [|[u v] nodes']; [by eexists|].
  rewrite walk_loop_unfold. case_bool_decide as Hc.
  - destruct Hc as [Hk Hu].
    destruct (IH (nodes' ++ pairs_into g u) (u :: visited)) as [[rest ex] ->].
    { pose proof (unexplored_visit visited u Hk Hu).
      unfold pairs_into. rewrite length_app, length_fmap. simpl in Hf. lia. }
    by eexists.
  - destruct (IH nodes' visited) as [[rest ex] ->]; [simpl in Hf; lia|].
    by eexists.
Qed.

Lemma walk_fuel_bound atom :
  length (pairs_into g atom) + length (unexplored g []) ≤ 2 * length (edges g).
Proof.
  unfold pairs_into, unexplored, predecessors_iter. rewrite !length_fmap.
  pose proof (length_filter (λ e, e.1.2 = atom) (edges g)).
  pose proof (length_filter (λ e, kind g e.1.2 = co.FLOW ∧ e.1.2 ∉ []) (edges g)).
  lia.
Qed.

(** *** What is yielded and what is explored *)

Lemma omap_cons_from_option {A B} (f : A → option B) (x : A) (l : list A) :
  omap f (x :: l) = from_option (λ t, [t]) [] (f x) ++ omap f l.
Proof. simpl. by destruct (f x). Qed.

Lemma walk_loop_yields fuel nodes visited ys explored :
  walk_loop fuel g nodes visited = Return (ys, explored) →
  ys = omap (edge_triple g) nodes
       ++ (explored ≫= λ f, omap (edge_triple g) (pairs_into g f)).
Proof.
  revert nodes visited ys explored.
  induction fuel as [|fuel IH]; intros [|[u v] nodes'] visited ys explored; try done.
  - by intros [= <- <-].
  - by intros [= <- <-].
  - rewrite walk_loop_unfold. case_bool_decide as Hc.
    + destruct (walk_loop fuel g _ (u :: visited)) as [[rest ex]| |] eqn:Hr; [|done..].
      intros [= <- <-]. apply IH in Hr as ->.
      rewrite omap_cons_from_option, omap_app, bind_cons.
      by rewrite <- !app_assoc.
    + destruct (walk_loop fuel g nodes' visited) as [[rest ex]| |] eqn:Hr; [|done..].
      intros [= <- <-]. apply IH in Hr as ->.
      rewrite omap_cons_from_option. by rewrite <- !app_assoc.
Qed.

Lemma walk_loop_explored_fresh fuel nodes visited ys explored :
  walk_loop fuel g nodes visited = Return (ys, explored) →
  NoDup explored ∧ ∀ f, f ∈ explored → (f ∉ visited) ∧ kind g f = co.FLOW.
Proof.
  revert nodes visited ys explored.
  induction fuel as [|fuel IH]; intros [|[u v] nodes'] visited ys explored; try done.
  - intros [= <- <-]. split; [constructor|]. by intros f Hf%elem_of_nil.
  - intros [= <- <-]. split; [constructor|]. by intros f Hf%elem_of_nil.
  - rewrite walk_loop_unfold. case_bool_decide as Hc.
    + destruct (walk_loop fuel g _ (u :: visited)) as [[rest ex]| |] eqn:Hr; [|done..].
      intros [= <- <-]. apply IH in Hr as [Hnd Hfresh]. destruct Hc as [Hk Hu].
      split.
      * constructor; [|done]. intros [Hn _]%Hfresh. apply Hn. by left.
      * intros f [->|[Hn Hf]%Hfresh]%elem_of_cons; [done|].
        split; [|done]. intros ?. apply Hn. by right.
    + destruct (walk_loop fuel g nodes' visited) as [[rest ex]| |] eqn:Hr; [|done..].
      intros [= <- <-]. by apply IH in Hr.
Qed.

Lemma walk_loop_explored_sound (P : Atom → Prop) fuel nodes visited ys explored :
  (∀ f f', P f → f' ∈ predecessors_iter g f → kind g f' = co.FLOW → P f') →
  walk_loop fuel g nodes visited = Return (ys, explored) →
  (∀ p, p ∈ nodes → kind g p.1 = co.FLOW → P p.1) →
  ∀ f, f ∈ explored → P f.
Proof.
  intros Hclosed. revert nodes visited ys explored.
  induction fuel as [|fuel IH]; intros [|[u v] nodes'] visited ys explored; try done.
  - intros [= <- <-] _ f Hf. by apply elem_of_nil in Hf.
  - intros [= <- <-] _ f Hf. by apply elem_of_nil in Hf.
  - rewrite walk_loop_unfold. case_bool_decide as Hc.
    + destruct (walk_loop fuel g _ (u :: visited)) as [[rest ex]| |] eqn:Hr; [|done..].
      intros [= <- <-] Hq f Hf. destruct Hc as [Hk Hu].
      assert (P u) as HPu by (apply (Hq (u, v)); [left|done]).
      apply elem_of_cons in Hf as [->|Hf]; [done|].
      apply (IH _ _ _ _ Hr); [|done].
      intros p [Hp|Hp]%elem_of_app Hkp; [apply Hq; [by right|done]|].
      apply list_elem_of_fmap in Hp as (u' & -> & Hu'). simpl in *.
      by apply (Hclosed u).
    + destruct (walk_loop fuel g nodes' visited) as [[rest ex]| |] eqn:Hr; [|done..].
      intros [= <- <-] Hq. apply (IH _ _ _ _ Hr).
      intros p Hp. apply Hq. by right.
Qed.

Lemma walk_loop_explored_complete fuel nodes visited ys explored :
  walk_loop fuel g nodes visited = Return (ys, explored) →
  (∀ p, p ∈ nodes → kind g p.1 = co.FLOW → p.1 ∈ visited ∨ p.1 ∈ explored)
  ∧ (∀ f u, f ∈ explored → u ∈ predecessors_iter g f → kind g u = co.FLOW →
            u ∈ visited ∨ u ∈ explored).
Proof.
  revert nodes visited ys explored.
  induction fuel as [|fuel IH]; intros [|[u v] nodes'] visited ys explored; try done.
  - intros [= <- <-]. split; [by intros p Hp%elem_of_nil|by intros f u' Hf%elem_of_nil].
  - intros [= <- <-]. split; [by intros p Hp%elem_of_nil|by intros f u' Hf%elem_of_nil].
  - rewrite walk_loop_unfold. case_bool_decide as Hc.
    + destruct (walk_loop fuel g _ (u :: visited)) as [[rest ex]| |] eqn:Hr; [|done..].
      intros [= <- <-]. apply IH in Hr as [Hq Hex].
      assert (Hfix : ∀ x, x ∈ u :: visited ∨ x ∈ ex → x ∈ visited ∨ x ∈ u :: ex).
      { intros x [[->|?]%elem_of_cons|?]; [right; left|by left|right; by right]. }
      split.
      * intros p [->|Hp]%elem_of_cons Hk; [right; left|].
        apply Hfix, Hq; [|done]. apply elem_of_app. by left.
      * intros f u' [->|Hf]%elem_of_cons Hu' Hk.
        -- apply Hfix. apply (Hq (u', u)); [|done].
           apply elem_of_app. right. apply list_elem_of_fmap. by exists u'.
        -- apply Hfix. by apply (Hex f).
    + destruct (walk_loop fuel g nodes' visited) as [[rest ex]| |] eqn:Hr; [|done..].
      intros [= <- <-]. apply IH in Hr as [Hq Hex]. split; [|done].
      intros p [->|Hp]%elem_of_cons Hk; [|by apply Hq].
      simpl in *. left. destruct (decide (u ∈ visited)); [done|].
      destruct Hc. done.
Qed.

(** *** On a graph without parallel edges *)

Lemma NoDup_fst_functional {A B} (l : list (A * B)) x y1 y2 :
  NoDup l.*1 → (x, y1) ∈ l → (x, y2) ∈ l → y1 = y2.
Proof.
  induction l as [|[a b] l IH]; intros Hnd H1 H2; [by apply elem_of_nil in H1|].
  rewrite fmap_cons in Hnd. apply NoDup_cons in Hnd as [Hnot Hnd].
  apply elem_of_cons in H1 as [H1|H1], H2 as [H2|H2].
  - congruence.
  - injection H1 as -> ->. destruct Hnot. apply list_elem_of_fmap. by exists (a, y2).
  - injection H2 as -> ->. destruct Hnot. apply list_elem_of_fmap. by exists (a, y1).
  - by apply IH.
Qed.

Lemma link_decider_simple u v d :
  simple g → (u, v, d) ∈ edges g → link_decider g u v = d.
Proof.
  intros Hs He. unfold link_decider.
  destruct (list_find_elem_of (λ e, e.1 = (u, v)) (edges g) (u, v, d) He eq_refl)
    as [[i e] Hfind].
  rewrite Hfind. apply list_find_Some in Hfind as (Hi & Hp & _).
  apply list_elem_of_lookup_2 in Hi. destruct e as [p d']. simpl in *. subst p.
  by apply (NoDup_fst_functional (edges g) (u, v)).
Qed.

Lemma pairs_into_deciders v :
  simple g → omap (edge_triple g) (pairs_into g v) = incoming_deciders g v.
Proof.
  intros Hs. unfold pairs_into, predecessors_iter, incoming_deciders.
  assert (∀ l, (∀ e, e ∈ l → e ∈ edges g) →
    omap (edge_triple g) ((λ u, (u, v)) <$> (filter (λ e, e.1.2 = v) l).*1.*1)
    = omap (λ e, if decide (e.1.2 = v)
                 then (λ d, (e.1.1, kind g e.1.1, d)) <$> e.2 else None) l) as H.
  { induction l as [|[[a b] d] l IH]; intros Hin; [done|].
    rewrite filter_cons. cbn [fst snd].
    destruct (decide (b = v)) as [->|Hne].
    - rewrite !fmap_cons, !omap_cons_from_option. cbn [fst snd].
      rewrite decide_True by done. rewrite IH by (intros e He; apply Hin; by right).
      unfold edge_triple at 1. cbn [fst snd].
      rewrite (link_decider_simple a v d Hs) by (apply Hin; left). done.
    - rewrite omap_cons_from_option. cbn [fst snd].
      rewrite decide_False by done. simpl.
      apply IH. intros e He. apply Hin. by right. }
  by apply H.
Qed.

(** The walk from an atom: what [_walk_edge_deciders] yields and which
    flows it explores. *)
Lemma walk_from_atom atom fuel :
  simple g → 2 * length (edges g) < fuel →
  ∃ explored,
    walk_loop fuel g (pairs_into g atom) []
      = Return (incoming_deciders g atom ++ (explored ≫= incoming_deciders g),
                explored)
    ∧ NoDup explored
    ∧ ∀ f, f ∈ explored ↔ flow_walk g atom f.
Proof.
  intros Hs Hf.
  destruct (walk_loop_total fuel (pairs_into g atom) []) as [[ys explored] Hw].
  { pose proof (walk_fuel_bound atom). lia. }
  exists explored.
  pose proof (walk_loop_yields _ _ _ _ _ Hw) as ->.
  pose proof (walk_loop_explored_fresh _ _ _ _ _ Hw) as [Hnd Hfresh].
  pose proof (walk_loop_explored_complete _ _ _ _ _ Hw) as [Hq Hex].
  split; [|split; [done|]].
  - rewrite Hw, pairs_into_deciders by done. do 3 f_equal.
    induction explored as [|f ex IH]; [done|].
    rewrite !bind_cons, pairs_into_deciders by done. f_equal.
    clear -Hs. induction ex as [|f' ex IH]; [done|].
    by rewrite !bind_cons, pairs_into_deciders, IH.
  - intros f. split.
    + eapply (walk_loop_explored_sound (flow_walk g atom)); [| |].
      * intros f0 f' Hf0 Hp Hk. by eapply flow_walk_next.
      * exact Hw.
      * intros p (u & -> & Hu)%list_elem_of_fmap Hk. by apply flow_walk_first.
    + induction 1 as [f Hp Hk | f f' _ IH Hp Hk].
      * destruct (Hq (f, atom)) as [Hv|?]; [|done| |done].
        -- apply list_elem_of_fmap. by exists f.
        -- by apply elem_of_nil in Hv.
      * destruct (Hex f f' IH Hp Hk) as [Hv|?]; [|done].
        by apply elem_of_nil in Hv.
Qed.

End walk_deciders.

Section compile.
Import action_engine engine_spec.
Context `{Transitions}.

Variable g : ExecutionGraph.

Lemma compile_nodes_unfold fuel node todo cache :
  compile_nodes fuel g (node :: todo) cache
  = if decide (kind g node = co.FLOW) then compile_nodes fuel g todo cache
    else deciders ← _walk_edge_deciders fuel g node;
         compile_nodes fuel g todo (<[name node := metadata_for g node deciders]> cache).
Proof.
  cbn [compile_nodes]. unfold metadata_for.
  destruct (kind g node); simpl; done.
Qed.

Lemma kind_atoms node : kind g node ∈ co.ATOMS ↔ kind g node ≠ co.FLOW.
Proof. unfold co.ATOMS. destruct (kind g node); set_solver. Qed.

Lemma compile_nodes_cache fuel todo cache cache' :
  compile_nodes fuel g todo cache = Return cache' →
  NoDup (name <$> filter (λ n, kind g n ∈ co.ATOMS) todo) →
  (∀ n, n ∉ name <$> filter (λ n, kind g n ∈ co.ATOMS) todo →
        cache' !! n = cache !! n)
  ∧ ∀ node, node ∈ todo → kind g node ∈ co.ATOMS →
      ∃ deciders, _walk_edge_deciders fuel g node = Return deciders
                  ∧ cache' !! name node = Some (metadata_for g node deciders).
Proof.
  revert cache. induction todo as [|node todo IH]; intros cache.
  - intros [= <-] _. split; [done|]. by intros node Hn%elem_of_nil.
  - rewrite compile_nodes_unfold, filter_cons.
    destruct (decide (kind g node = co.FLOW)) as [Hk|Hk].
    + rewrite decide_False by (by rewrite kind_atoms; intros []).
      intros Hc Hnd. destruct (IH _ Hc Hnd) as [Hframe Hall].
      split; [done|]. intros x [->|Hx]%elem_of_cons Hkx; [|by apply Hall].
      by apply kind_atoms in Hkx.
    + rewrite decide_True by (by apply kind_atoms).
      destruct (_walk_edge_deciders fuel g node) as [ds| |] eqn:Hw; [|done..].
      cbn [mbind outcome_bind obind]. rewrite fmap_cons.
      intros Hc [Hnot Hnd]%NoDup_cons. destruct (IH _ Hc Hnd) as [Hframe Hall].
      split.
      * intros n Hn. rewrite Hframe by (intros ?; apply Hn; by right).
        rewrite lookup_insert_ne; [done|]. intros <-. apply Hn. left.
      * intros x [->|Hx]%elem_of_cons Hkx; [|by apply Hall].
        exists ds. split; [done|]. rewrite Hframe by done.
        by rewrite lookup_insert_eq.
Qed.

Lemma compile_nodes_total fuel todo cache :
  2 * length (edges g) < fuel →
  ∃ cache', compile_nodes fuel g todo cache = Return cache'.
Proof.
  intros Hf. revert cache. induction todo as [|node todo IH]; intros cache.
  - by eexists.
  - rewrite compile_nodes_unfold. case_decide; [apply IH|].
    unfold _walk_edge_deciders.
    destruct (walk_loop_total g fuel (pairs_into g node) []) as [[ys ex] Hw].
    { pose proof (walk_fuel_bound g node). lia. }
    unfold pairs_into in Hw. rewrite Hw. cbn [mbind outcome_bind obind]. apply IH.
Qed.

Lemma compile_spec fuel cache :
  2 * length (edges g) < fuel →
  NoDup (name <$> iterate_nodes g co.ATOMS) →
  ∃ cache',
    compile fuel (mkRuntime g cache) = (mkRuntime g cache', Return tt)
    ∧ ∀ node, node ∈ nodes g → kind g node ∈ co.ATOMS →
        ∃ deciders, _walk_edge_deciders fuel g node = Return deciders
                    ∧ cache' !! name node = Some (metadata_for g node deciders).
Proof.
  intros Hf Hnd. destruct (compile_nodes_total fuel (nodes g) cache Hf) as [cache' Hc].
  exists cache'. split.
  - unfold compile, mbind, M_bind, bind, get, put, lift. simpl. by rewrite Hc.
  - by apply (compile_nodes_cache fuel (nodes g) cache cache').
Qed.

Lemma compile_compiled fuel cache :
  2 * length (edges g) < fuel →
  NoDup (name <$> iterate_nodes g co.ATOMS) →
  ∃ self', compile fuel (mkRuntime g cache) = (self', Return tt)
           ∧ execution_graph self' = g ∧ compiled self'.
Proof.
  intros Hf Hnd. destruct (compile_spec fuel cache Hf Hnd) as (cache' & Hc & Hall).
  exists (mkRuntime g cache'). split; [done|]. split; [done|].
  intros node Hn Hk. destruct (Hall node Hn Hk) as (ds & _ & Hmd).
  by exists (metadata_for g node ds).
Qed.

End compile.

Section runtime_compile_claims.
Import action_engine engine_spec.
Context `{Transitions}.

(** C5: on a graph without parallel edges, the walk for an atom ends and
    yields exactly the deciders attached to the edges into the atom,
    followed by the deciders attached to the edges into every flow marker
    that is found from the atom by following edges backward through flow
    markers; each such flow is explored once.  After compilation this is
    the atom's cached [edge_deciders] entry. *)
Theorem walk_edge_deciders_exact (g : ExecutionGraph) (atom : Atom) (fuel : nat) :
  simple g → 2 * length (edges g) < fuel →
  ∃ explored,
    walk_loop fuel g ((λ u_node, (u_node, atom)) <$> predecessors_iter g atom) []
      = Return (incoming_deciders g atom ++ (explored ≫= incoming_deciders g),
                explored)
    ∧ _walk_edge_deciders fuel g atom
      = Return (incoming_deciders g atom ++ (explored ≫= incoming_deciders g))
    ∧ NoDup explored
    ∧ (∀ f, f ∈ explored ↔ flow_walk g atom f)
    ∧ ∀ cache,
        atom ∈ nodes g → kind g atom ∈ co.ATOMS →
        NoDup (name <$> iterate_nodes g co.ATOMS) →
        ∃ self',
          compile fuel (mkRuntime g cache) = (self', Return tt)
          ∧ fetch_edge_deciders self' atom
            = Return (incoming_deciders g atom ++ (explored ≫= incoming_deciders g)).
Proof.
  intros Hs Hf.
  destruct (walk_from_atom g atom fuel Hs Hf) as (explored & Hw & Hnd & Hflows).
  assert (_walk_edge_deciders fuel g atom
          = Return (incoming_deciders g atom ++ (explored ≫= incoming_deciders g)))
    as Hwalk.
  { unfold _walk_edge_deciders. unfold pairs_into in Hw. by rewrite Hw. }
  exists explored. split; [done|]. split; [done|]. split; [done|]. split; [done|].
  intros cache Hn Hk Hnames.
  destruct (compile_spec g fuel cache Hf Hnames) as (cache' & Hc & Hall).
  exists (mkRuntime g cache'). split; [done|].
  destruct (Hall atom Hn Hk) as (ds & Hds & Hmd).
  unfold fetch_edge_deciders, _fetch_atom_metadata, subscript. simpl.
  rewrite Hmd. simpl. congruence.
Qed.

End runtime_compile_claims.

(** * Breadth-first order and the frontiers *)

Section breadth_first.
Import action_engine engine_spec.

Variable g : ExecutionGraph.
Variables (direction : Direction) (through_retries : bool).

Local Abbreviation next := (connected_to g direction through_retries).
Local Abbreviation bfs :=
  (worklist_loop next (yielded g) (λ work children, work ++ children)).

Lemma by_levels_nil depth : by_levels g direction through_retries depth [] = [].
Proof. induction depth as [|depth IH]; [done|]. simpl. exact IH. Qed.

(** Once the queue holds [q] followed by what was found behind the nodes
    already taken, all of [q] is yielded before anything found behind it. *)
Lemma bfs_level q : ∀ fuel pending l,
  bfs fuel (q ++ pending) = Return l →
  ∃ rest fuel',
    l = (q ≫= yielded g) ++ rest
    ∧ fuel' + length q ≤ fuel
    ∧ bfs fuel' (pending ++ (q ≫= next)) = Return rest.
Proof.
  induction q as [|n q IH]; intros fuel pending l Hl.
  - exists l, fuel. simpl. rewrite app_nil_r. split; [done|]. split; [lia|done].
  - destruct fuel as [|fuel]; [done|].
    cbn [app worklist_loop] in Hl. unfold mbind, outcome_bind, obind in Hl.
    destruct (bfs fuel _) as [r| |] eqn:Hr; [|done..]. injection Hl as <-.
    rewrite <- app_assoc in Hr.
    destruct (IH _ _ _ Hr) as (rest & fuel' & -> & Hle & Hrest).
    exists rest, fuel'. rewrite !bind_cons. split; [by rewrite app_assoc|].
    split; [simpl; lia|]. by rewrite <- app_assoc in Hrest.
Qed.

Lemma bfs_by_levels fuel q l :
  bfs fuel q = Return l →
  ∃ depth, ∀ d, depth ≤ d → l = by_levels g direction through_retries d q.
Proof.
  revert q l. induction fuel as [fuel IH] using lt_wf_ind. intros q l Hl.
  destruct q as [|n q].
  - exists 0. intros d _. rewrite by_levels_nil. destruct fuel; by injection Hl.
  - rewrite <- (app_nil_r (n :: q)) in Hl.
    destruct (bfs_level _ _ _ _ Hl) as (rest & fuel' & -> & Hle & Hrest).
    simpl in Hle, Hrest.
    destruct (IH fuel' ltac:(lia) _ _ Hrest) as [depth Hdepth].
    exists (S depth). intros [|d] Hd; [lia|].
    cbn [by_levels]. rewrite <- Hdepth by lia. done.
Qed.

End breadth_first.

Section fuel.
Import action_engine engine_spec.

Variables (g : ExecutionGraph) (rank : Atom → nat).
Hypothesis Hdag : topological g rank.

Lemma distance_connected_le direction a b :
  b ∈ connected_iter g direction a →
  distance g rank direction b ≤ max_list ((λ e, rank e.1.2) <$> edges g).
Proof.
  intros Hb. destruct direction; simpl; [lia|].
  apply elem_of_predecessors_iter in Hb as [d Hd].
  unfold topological in Hdag. rewrite Forall_forall in Hdag.
  pose proof (Hdag _ Hd) as Hlt. simpl in Hlt.
  assert (rank a ≤ max_list ((λ e, rank e.1.2) <$> edges g)).
  { apply max_list_elem_of_le, list_elem_of_fmap. by exists (b, a, d). }
  lia.
Qed.

Lemma walk_fuel_le_graph_fuel direction start :
  walk_fuel g rank direction start ≤ graph_fuel g rank.
Proof.
  unfold walk_fuel, graph_fuel. apply le_n_S.
  etrans; [apply sum_list_with_bound|].
  - intros c Hc. unfold weight. apply Nat.pow_le_mono_r; [lia|].
    by eapply distance_connected_le.
  - apply Nat.mul_le_mono_r, connected_iter_length.
Qed.

End fuel.

Section unique_seen.
Import action_engine engine_spec.

Lemma filter_ext_in {A} (P Q : A → Prop) `{!∀ x, Decision (P x), !∀ x, Decision (Q x)}
    (l : list A) :
  (∀ x, x ∈ l → P x ↔ Q x) → filter P l = filter Q l.
Proof.
  induction l as [|x l IH]; intros Hpq; [done|].
  rewrite !filter_cons, IH by (intros y Hy; apply Hpq; by right).
  destruct (decide (P x)) as [Hp|Hp], (decide (Q x)) as [Hq|Hq]; try done.
  - destruct Hq. apply Hpq; [left|done].
  - destruct Hp. apply Hpq; [left|done].
Qed.

Lemma unique_seen_loop_filter {A K} `{EqDecision K} (sel : A → K) seen (l : list A) :
  unique_seen_loop sel seen l
  = filter (λ y, sel y ∉ seen) (unique_seen_loop sel [] l).
Proof.
  revert seen. induction l as [|x l IH]; intros seen; [done|].
  cbn [unique_seen_loop].
  rewrite (bool_decide_eq_false_2 (sel x ∈ [])) by apply not_elem_of_nil.
  rewrite filter_cons. case_bool_decide as Hx.
  - rewrite decide_False by (by intros []).
    rewrite IH, (IH [sel x]), list_filter_filter_l; [done|].
    intros y Hy Hin%list_elem_of_singleton. apply Hy. by rewrite Hin.
  - rewrite decide_True by done. f_equal.
    rewrite IH, (IH [sel x]), list_filter_filter.
    apply list_filter_iff. intros y. rewrite not_elem_of_cons, list_elem_of_singleton.
    tauto.
Qed.

Lemma unique_seen_loop_subset {A K} `{EqDecision K} (sel : A → K) seen (l : list A) x :
  x ∈ unique_seen_loop sel seen l → x ∈ l.
Proof.
  revert seen. induction l as [|y l IH]; intros seen; [done|].
  cbn [unique_seen_loop]. case_bool_decide.
  - intros ?%IH. by right.
  - intros [->|?%IH]%elem_of_cons; [left|by right].
Qed.

(** Removing duplicate atoms is removing duplicate names when distinct
    atoms have distinct names. *)
Lemma unique_seen_first_by_name {D} (l : list (Atom * D)) :
  (∀ x y, x ∈ l → y ∈ l → name x.1 = name y.1 → x.1 = y.1) →
  unique_seen_loop fst [] l = first_by_name l.
Proof.
  induction l as [|x l IH]; intros Hinj; [done|].
  cbn [unique_seen_loop first_by_name].
  rewrite (bool_decide_eq_false_2 (x.1 ∈ [])) by apply not_elem_of_nil.
  f_equal. rewrite unique_seen_loop_filter.
  rewrite IH by (intros a b Ha Hb; apply Hinj; by right).
  apply filter_ext_in. intros y Hy.
  assert (y ∈ l) as Hyl.
  { rewrite <- IH in Hy by (intros a b Ha Hb; apply Hinj; by right).
    by eapply unique_seen_loop_subset. }
  rewrite list_elem_of_singleton. split.
  - intros Hne Hname. apply Hne. apply Hinj; [by right|left|done].
  - intros Hne Heq. apply Hne. by rewrite Heq.
Qed.

End unique_seen.

Section frontier.
Import action_engine engine_spec.

Lemma browse_loop_total maybe_ready (atom_it : list Atom) :
  (∀ a, a ∈ atom_it → ∃ r, maybe_ready a = Return r) →
  ∃ l, browse_loop maybe_ready atom_it = Return l.
Proof.
  induction atom_it as [|a atom_it IH]; intros Hall; [by eexists|].
  destruct (Hall a) as [[b d] Ha]; [left|].
  destruct IH as [l Hl]; [intros x Hx; apply Hall; by right|].
  cbn [browse_loop]. rewrite Ha, Hl. by eexists.
Qed.

(** A browser yields the candidates that are ready, with their deciders. *)
Lemma browse_loop_spec maybe_ready (atom_it : list Atom) l :
  browse_loop maybe_ready atom_it = Return l →
  ∀ a d, (a, d) ∈ l ↔ a ∈ atom_it ∧ maybe_ready a = Return (true, d).
Proof.
  revert l. induction atom_it as [|x atom_it IH]; intros l.
  - intros [= <-] a d. split; [by intros ?%elem_of_nil|by intros [?%elem_of_nil _]].
  - cbn [browse_loop].
    destruct (maybe_ready x) as [[b dx]| |] eqn:Hx; [|done..].
    cbn [mbind outcome_bind obind].
    destruct (browse_loop maybe_ready atom_it) as [rest| |] eqn:Hr; [|done..].
    cbn [mbind outcome_bind obind]. intros [= <-] a d.
    specialize (IH rest eq_refl a d). destruct b.
    + rewrite !elem_of_cons, IH. split.
      * intros [[= -> ->]|[? ?]]; [by split; [left|]|by split; [right|]].
      * intros [[->|?] Ha]; [left; congruence|by right].
    + rewrite elem_of_cons, IH. split; [intros [? ?]; by split; [right|]|].
      intros [[->|?] Ha]; [congruence|done].
Qed.

Lemma browse_loop_atoms maybe_ready (atom_it : list Atom) l x :
  browse_loop maybe_ready atom_it = Return l → x ∈ l → x.1 ∈ atom_it.
Proof.
  intros Hl Hx. destruct x as [a d].
  by apply (browse_loop_spec _ _ _ Hl a d) in Hx as [? _].
Qed.

Variables (runtime : Runtime) (storage : Storage) (rank : Atom → nat).
Local Abbreviation g := (execution_graph runtime).
Hypothesis Hdag : topological g rank.
Hypothesis Hclosed : closed g.
Hypothesis Hcompiled : compiled runtime.
Variable fuel : nat.
Hypothesis Hfuel : graph_fuel g rank ≤ fuel.

Lemma walk_fuel_ok direction start : walk_fuel g rank direction start ≤ fuel.
Proof. etrans; [by apply walk_fuel_le_graph_fuel|done]. Qed.

Lemma maybe_ready_for_execute_returns atom :
  atom ∈ nodes g → kind g atom ∈ co.ATOMS →
  ∃ r, _get_maybe_ready_for_execute fuel runtime storage atom = Return r.
Proof.
  intros Hn Hk. destruct (Hcompiled atom Hn Hk) as (metadata & Hmd & _).
  destruct (depth_first_iterate_spec g rank Hdag BACKWARD true atom fuel
              (walk_fuel_ok _ _)) as (connected & Hwalk & _).
  unfold _get_maybe_ready_for_execute, fetch_edge_deciders, _fetch_atom_metadata,
    subscript.
  rewrite Hwalk, Hmd. cbn [mbind outcome_bind obind].
  erewrite get_maybe_ready_spec by done. by eexists.
Qed.

Lemma maybe_ready_for_revert_returns atom :
  atom ∈ nodes g → kind g atom ∈ co.ATOMS →
  ∃ r, _get_maybe_ready_for_revert fuel runtime storage atom = Return r.
Proof.
  intros Hn Hk. destruct (Hcompiled atom Hn Hk) as (metadata & Hmd & _).
  destruct (depth_first_iterate_spec g rank Hdag FORWARD true atom fuel
              (walk_fuel_ok _ _)) as (connected & Hwalk & _).
  unfold _get_maybe_ready_for_revert. rewrite Hwalk.
  erewrite get_maybe_ready_spec by done. by eexists.
Qed.

Lemma walk_in_nodes direction through_retries start x :
  walk g direction through_retries start x → x ∈ nodes g.
Proof.
  unfold closed in Hclosed. rewrite Forall_forall in Hclosed.
  assert (∀ y, x ∈ connected_iter g direction y → x ∈ nodes g) as Hc.
  { intros y. destruct direction; simpl.
    - intros [d Hd]%elem_of_successors_iter. by apply Hclosed in Hd as [_ ?].
    - intros [d Hd]%elem_of_predecessors_iter. by apply Hclosed in Hd as [? _]. }
  destruct 1; by eapply Hc.
Qed.

Lemma elem_of_iterate_atoms x :
  x ∈ iterate_nodes g co.ATOMS ↔ x ∈ nodes g ∧ kind g x ∈ co.ATOMS.
Proof. unfold iterate_nodes. rewrite list_elem_of_filter. tauto. Qed.

(** The four frontiers exist. *)
Lemma browse_for_execute_all :
  ∃ l, browse_atoms_for_execute fuel runtime storage None = Return l
       ∧ ∀ a d, (a, d) ∈ l ↔
           a ∈ iterate_nodes g co.ATOMS
           ∧ _get_maybe_ready_for_execute fuel runtime storage a = Return (true, d).
Proof.
  unfold browse_atoms_for_execute. cbn [mbind outcome_bind obind].
  destruct (browse_loop_total (_get_maybe_ready_for_execute fuel runtime storage)
              (iterate_nodes g co.ATOMS)) as [l Hl].
  { intros a [? ?]%elem_of_iterate_atoms. by apply maybe_ready_for_execute_returns. }
  exists l. split; [done|]. by apply browse_loop_spec.
Qed.

Lemma browse_for_revert_all :
  ∃ l, browse_atoms_for_revert fuel runtime storage None = Return l
       ∧ ∀ a d, (a, d) ∈ l ↔
           a ∈ iterate_nodes g co.ATOMS
           ∧ _get_maybe_ready_for_revert fuel runtime storage a = Return (true, d).
Proof.
  unfold browse_atoms_for_revert. cbn [mbind outcome_bind obind].
  destruct (browse_loop_total (_get_maybe_ready_for_revert fuel runtime storage)
              (iterate_nodes g co.ATOMS)) as [l Hl].
  { intros a [? ?]%elem_of_iterate_atoms. by apply maybe_ready_for_revert_returns. }
  exists l. split; [done|]. by apply browse_loop_spec.
Qed.

Lemma browse_for_execute_seeded seed :
  ∃ l, browse_atoms_for_execute fuel runtime storage (Some seed) = Return l
       ∧ ∀ a d, (a, d) ∈ l ↔
           (walk g FORWARD true seed a ∧ kind g a ∈ co.ATOMS)
           ∧ _get_maybe_ready_for_execute fuel runtime storage a = Return (true, d).
Proof.
  unfold browse_atoms_for_execute.
  destruct (breadth_first_iterate_spec g rank Hdag FORWARD true seed fuel
              (walk_fuel_ok _ _)) as (cands & -> & Hcands).
  cbn [mbind outcome_bind obind].
  destruct (browse_loop_total (_get_maybe_ready_for_execute fuel runtime storage)
              cands) as [l Hl].
  { intros a [Hw Hk]%Hcands. apply maybe_ready_for_execute_returns; [|done].
    by eapply walk_in_nodes. }
  exists l. split; [done|]. intros a d.
  rewrite (browse_loop_spec _ _ _ Hl a d), Hcands. done.
Qed.

Lemma browse_for_revert_seeded seed :
  ∃ l, browse_atoms_for_revert fuel runtime storage (Some seed) = Return l
       ∧ ∀ a d, (a, d) ∈ l ↔
           (walk g BACKWARD false seed a ∧ kind g a ∈ co.ATOMS)
           ∧ _get_maybe_ready_for_revert fuel runtime storage a = Return (true, d).
Proof.
  unfold browse_atoms_for_revert.
  destruct (breadth_first_iterate_spec g rank Hdag BACKWARD false seed fuel
              (walk_fuel_ok _ _)) as (cands & -> & Hcands).
  cbn [mbind outcome_bind obind].
  destruct (browse_loop_total (_get_maybe_ready_for_revert fuel runtime storage)
              cands) as [l Hl].
  { intros a [Hw Hk]%Hcands. apply maybe_ready_for_revert_returns; [|done].
    by eapply walk_in_nodes. }
  exists l. split; [done|]. intros a d.
  rewrite (browse_loop_spec _ _ _ Hl a d), Hcands. done.
Qed.

End frontier.

Section frontier_claims.
Import action_engine engine_spec.

Lemma NoDup_fmap_inj_on {A B} (f : A → B) (l : list A) x y :
  NoDup (f <$> l) → x ∈ l → y ∈ l → f x = f y → x = y.
Proof.
  induction l as [|a l IH]; intros Hnd Hx Hy Hf; [by apply elem_of_nil in Hx|].
  rewrite fmap_cons in Hnd. apply NoDup_cons in Hnd as [Hnot Hnd].
  apply elem_of_cons in Hx as [->|Hx], Hy as [->|Hy]; [done| | |by apply IH].
  - destruct Hnot. rewrite Hf. apply list_elem_of_fmap. by exists y.
  - destruct Hnot. rewrite <- Hf. apply list_elem_of_fmap. by exists x.
Qed.

(** C3: on a compiled runtime over a closed DAG whose atoms have distinct
    names, [iter_next_atoms] returns.  Without a seed it yields the execute
    frontier followed by the revert frontier, with duplicates removed by
    atom name (first occurrence kept).  With a seed it yields: the pair of
    the seed and a [NoOpDecider] when the seed is in state [SUCCESS] with
    intention [REVERT]; the execute frontier among the atoms walked forward
    from the seed when it is in state [SUCCESS] with intention [EXECUTE];
    the revert frontier among the atoms walked backward from the seed
    (without crossing a retry) when it is in state [REVERTED]; the revert
    frontier of the whole graph when it is in state [FAILURE]; and nothing
    otherwise. *)
Theorem iter_next_atoms_cases (runtime : Runtime) (storage : Storage)
    (rank : Atom → nat) (fuel : nat) :
  topological (execution_graph runtime) rank →
  closed (execution_graph runtime) →
  compiled runtime →
  NoDup (name <$> iterate_nodes (execution_graph runtime) co.ATOMS) →
  graph_fuel (execution_graph runtime) rank ≤ fuel →
  ∃ for_execute for_revert,
    browse_atoms_for_execute fuel runtime storage None = Return for_execute
    ∧ browse_atoms_for_revert fuel runtime storage None = Return for_revert
    ∧ (∀ a d, (a, d) ∈ for_execute ↔
         a ∈ iterate_nodes (execution_graph runtime) co.ATOMS
         ∧ _get_maybe_ready_for_execute fuel runtime storage a = Return (true, d))
    ∧ (∀ a d, (a, d) ∈ for_revert ↔
         a ∈ iterate_nodes (execution_graph runtime) co.ATOMS
         ∧ _get_maybe_ready_for_revert fuel runtime storage a = Return (true, d))
    ∧ iter_next_atoms fuel runtime storage None
      = Return (first_by_name (for_execute ++ for_revert))
    ∧ ∀ seed, ∃ seed_execute seed_revert,
        browse_atoms_for_execute fuel runtime storage (Some seed)
          = Return seed_execute
        ∧ browse_atoms_for_revert fuel runtime storage (Some seed)
          = Return seed_revert
        ∧ (∀ a d, (a, d) ∈ seed_execute ↔
             (walk (execution_graph runtime) FORWARD true seed a
              ∧ kind (execution_graph runtime) a ∈ co.ATOMS)
             ∧ _get_maybe_ready_for_execute fuel runtime storage a = Return (true, d))
        ∧ (∀ a d, (a, d) ∈ seed_revert ↔
             (walk (execution_graph runtime) BACKWARD false seed a
              ∧ kind (execution_graph runtime) a ∈ co.ATOMS)
             ∧ _get_maybe_ready_for_revert fuel runtime storage a = Return (true, d))
        ∧ iter_next_atoms fuel runtime storage (Some seed)
          = Return
              match get_atom_state storage (name seed),
                    get_atom_intention storage (name seed) with
              | st.SUCCESS, st.REVERT => [(seed, Some NoOpDecider)]
              | st.SUCCESS, st.EXECUTE => seed_execute
              | st.SUCCESS, _ => []
              | st.REVERTED, _ => seed_revert
              | st.FAILURE, _ => for_revert
              | _, _ => []
              end.
Proof.
  intros Hdag Hclosed Hcompiled Hnames Hfuel.
  destruct (browse_for_execute_all runtime storage rank Hdag Hcompiled fuel Hfuel)
    as (for_execute & He & Hes).
  destruct (browse_for_revert_all runtime storage rank Hdag Hcompiled fuel Hfuel)
    as (for_revert & Hr & Hrs).
  exists for_execute, for_revert.
  split; [done|]. split; [done|]. split; [done|]. split; [done|]. split.
  - cbn [iter_next_atoms]. rewrite He, Hr. cbn [mbind outcome_bind obind].
    f_equal. unfold unique_seen. cbn [concat]. rewrite app_nil_r.
    apply unique_seen_first_by_name.
    assert (∀ x, x ∈ for_execute ++ for_revert →
                 x.1 ∈ iterate_nodes (execution_graph runtime) co.ATOMS) as Hin.
    { intros [a d] [Hx|Hx]%elem_of_app; [by apply Hes in Hx as [? _]|].
      by apply Hrs in Hx as [? _]. }
    intros x y Hx%Hin Hy%Hin.
    by apply (NoDup_fmap_inj_on name (iterate_nodes (execution_graph runtime) co.ATOMS)).
  - intros seed.
    destruct (browse_for_execute_seeded runtime storage rank Hdag Hclosed Hcompiled
                fuel Hfuel seed) as (seed_execute & Hse & Hses).
    destruct (browse_for_revert_seeded runtime storage rank Hdag Hclosed Hcompiled
                fuel Hfuel seed) as (seed_revert & Hsr & Hsrs).
    exists seed_execute, seed_revert.
    split; [done|]. split; [done|]. split; [done|]. split; [done|].
    cbn [iter_next_atoms]. rewrite Hse, Hsr, Hr.
    destruct (get_atom_state storage (name seed)),
             (get_atom_intention storage (name seed)); reflexivity.
Qed.

(** C4: with a seed, the candidates for execution are enumerated breadth
    first forward from the seed: the atoms one edge away, then those two
    edges away, and so on, each checked in that order.  The candidates for
    reversion are enumerated breadth first backward in the same way, and the
    walk never continues behind a retry: every candidate is a predecessor
    of the seed or of a node that was reached and is not a retry. *)
Theorem seeded_browse_breadth_first (runtime : Runtime) (storage : Storage)
    (seed : Atom) (rank : Atom → nat) (fuel : nat) :
  topological (execution_graph runtime) rank →
  graph_fuel (execution_graph runtime) rank ≤ fuel →
  (∃ depth, ∀ d, depth ≤ d →
     browse_atoms_for_execute fuel runtime storage (Some seed)
     = browse_loop (_get_maybe_ready_for_execute fuel runtime storage)
         (by_levels (execution_graph runtime) FORWARD true d
            (successors_iter (execution_graph runtime) seed)))
  ∧ (∃ depth candidates,
       (∀ d, depth ≤ d →
          candidates = by_levels (execution_graph runtime) BACKWARD false d
                         (predecessors_iter (execution_graph runtime) seed))
       ∧ browse_atoms_for_revert fuel runtime storage (Some seed)
         = browse_loop (_get_maybe_ready_for_revert fuel runtime storage) candidates
       ∧ (∀ x, x ∈ candidates ↔
            walk (execution_graph runtime) BACKWARD false seed x
            ∧ kind (execution_graph runtime) x ∈ co.ATOMS)
       ∧ ∀ x, x ∈ candidates →
           x ∈ predecessors_iter (execution_graph runtime) seed
           ∨ ∃ y, walk (execution_graph runtime) BACKWARD false seed y
                  ∧ kind (execution_graph runtime) y ≠ co.RETRY
                  ∧ x ∈ predecessors_iter (execution_graph runtime) y).
Proof.
  intros Hdag Hfuel. set (g := execution_graph runtime).
  assert (∀ direction, walk_fuel g rank direction seed ≤ fuel) as Hwf.
  { intros direction. etrans; [by apply walk_fuel_le_graph_fuel|done]. }
  split.
  - destruct (breadth_first_iterate_spec g rank Hdag FORWARD true seed fuel (Hwf _))
      as (cands & Hbfs & _).
    pose proof Hbfs as Hlv. unfold breadth_first_iterate in Hlv.
    rewrite breadth_first_loop_worklist in Hlv.
    apply bfs_by_levels in Hlv as [depth Hdepth].
    exists depth. intros d Hd. unfold browse_atoms_for_execute. fold g.
    rewrite Hbfs. cbn [mbind outcome_bind obind]. by rewrite (Hdepth d Hd).
  - destruct (breadth_first_iterate_spec g rank Hdag BACKWARD false seed fuel (Hwf _))
      as (cands & Hbfs & Hcands).
    pose proof Hbfs as Hlv. unfold breadth_first_iterate in Hlv.
    rewrite breadth_first_loop_worklist in Hlv.
    apply bfs_by_levels in Hlv as [depth Hdepth].
    exists depth, cands. split; [done|]. split; [|split; [done|]].
    + unfold browse_atoms_for_revert. fold g. by rewrite Hbfs.
    + intros x [Hw _]%Hcands. destruct Hw as [x Hx | y x Hy Hr Hx]; [by left|].
      right. exists y. split; [done|]. split; [|done].
      intros Hk. by specialize (Hr Hk).
Qed.

End frontier_claims.

(** * More about graph flows *)

Section more_link.
Import graph_flow graph_flow_rest.

Lemma path_mono es es' a b :
  (∀ e, e ∈ es → e ∈ es') → path es a b → path es' a b.
Proof.
  intros Hsub. induction 1 as [u v Huv | u v w Huv _ IH].
  - apply path_edge. by apply Hsub.
  - eapply path_step; [by apply Hsub|done].
Qed.

Lemma cyclic_rejected g n :
  path (g_edges g) n n → is_directed_acyclic_graph g = false.
Proof.
  intros Hp. destruct (is_directed_acyclic_graph g) eqn:Hd; [|done].
  by destruct (is_directed_acyclic_graph_sound g Hd n).
Qed.

Lemma add_node_present g n : n ∈ g_nodes g → add_node g n = g.
Proof. intros Hn. unfold add_node, has_node. by rewrite bool_decide_eq_true_2. Qed.

Lemma add_edge_present_nodes g u v :
  u ∈ g_nodes g → v ∈ g_nodes g → g_nodes (add_edge g u v) = g_nodes g.
Proof.
  intros Hu Hv. unfold add_edge. rewrite (add_node_present g u) by done.
  rewrite (add_node_present g v) by done. by destruct (has_edge g u v).
Qed.

(** X1: [link] raises [ValueError] exactly when one of the two items is not in
    the flow, and then the flow is left as it was. *)
Theorem link_value_error (u v : Item) (self : Flow) :
  (∀ self' o, link u v self = (self', o) →
     (o = Raised ValueError ↔ u ∉ g_nodes (_graph self) ∨ v ∉ g_nodes (_graph self)))
  ∧ (u ∉ g_nodes (_graph self) ∨ v ∉ g_nodes (_graph self) →
     link u v self = (self, Raised ValueError)).
Proof.
  assert (Hraise : u ∉ g_nodes (_graph self) ∨ v ∉ g_nodes (_graph self) →
                   link u v self = (self, Raised ValueError)).
  { intros Hmiss. unfold link, mbind, M_bind, bind, get, raise, has_node. simpl.
    case_bool_decide as Hu; simpl; [|done].
    case_bool_decide as Hv; simpl; [|done]. by destruct Hmiss. }
  split; [|done]. intros self' o Hl. split.
  - intros ->.
    destruct (decide (u ∈ g_nodes (_graph self))) as [Hu|Hu]; [|by left].
    destruct (decide (v ∈ g_nodes (_graph self))) as [Hv|Hv]; [|by right].
    exfalso. revert Hl.
    unfold link, mbind, M_bind, bind, get, raise, has_node, ret. simpl.
    rewrite !bool_decide_eq_true_2 by done. simpl.
    destruct (has_edge (_graph self) u v); [done|].
    intros [(_ & [=] & _)|(_ & [=] & _)]%swap_cases.
  - intros Hmiss. rewrite (Hraise Hmiss) in Hl. by injection Hl as <- <-.
Qed.

(** X2: a [link] that returns has kept the nodes, has added at most the edge
    asked for, which is an edge afterwards, and linking the same two items
    again changes nothing. *)
Theorem link_returns (u v : Item) (self self' : Flow) :
  link u v self = (self', Return tt) →
  g_nodes (_graph self') = g_nodes (_graph self)
  ∧ (∀ e, e ∈ g_edges (_graph self') ↔ e ∈ g_edges (_graph self) ∨ e = (u, v))
  ∧ link u v self' = (self', Return tt).
Proof.
  unfold link at 1. unfold mbind, M_bind, bind, get, raise, has_node, ret. simpl.
  case_bool_decide as Hu; simpl; [|done].
  case_bool_decide as Hv; simpl; [|done].
  destruct (has_edge (_graph self) u v) eqn:He.
  - intros [= <-]. split; [done|]. split.
    + intros e. split; [by left|]. intros [?| ->]; [done|].
      by apply bool_decide_eq_true in He.
    + unfold link, mbind, M_bind, bind, get, raise, has_node, ret. simpl.
      rewrite !bool_decide_eq_true_2 by done. simpl. by rewrite He.
  - intros [(_ & [=] & _)|(-> & _ & _)]%swap_cases. simpl.
    rewrite add_edge_present_nodes by done. split; [done|].
    split; [intros e; apply add_edge_edges|].
    unfold link, mbind, M_bind, bind, get, raise, has_node, ret. simpl.
    rewrite add_edge_present_nodes by done.
    rewrite !bool_decide_eq_true_2 by done. simpl.
    unfold has_edge. rewrite bool_decide_eq_true_2; [done|].
    apply add_edge_edges. by right.
Qed.

(** X3: [link] refuses, with [DependencyFailure] and without changing the flow,
    an edge from an item to itself or to an item from which it can already
    be reached. *)
Theorem link_rejects_cycle (u v : Item) (self : Flow) :
  u ∈ g_nodes (_graph self) → v ∈ g_nodes (_graph self) →
  (u, v) ∉ g_edges (_graph self) →
  u = v ∨ path (g_edges (_graph self)) v u →
  link u v self = (self, Raised DependencyFailure).
Proof.
  intros Hu Hv He Hback.
  unfold link, mbind, M_bind, bind, get, raise, has_node, ret, has_edge. simpl.
  rewrite !bool_decide_eq_true_2 by done. simpl.
  rewrite bool_decide_eq_false_2 by done.
  assert (is_directed_acyclic_graph (add_edge (_graph self) u v) = false) as Hd.
  { apply (cyclic_rejected _ u).
    assert ((u, v) ∈ g_edges (add_edge (_graph self) u v)) as Huv
      by (apply add_edge_edges; by right).
    destruct Hback as [<-|Hp]; [by apply path_edge|].
    eapply path_step; [done|].
    eapply path_mono; [|done]. intros e ?. apply add_edge_edges. by left. }
  unfold _swap, _validate, mbind, M_bind, bind, raise. by rewrite Hd.
Qed.

End more_link.

Section more_add.
Import graph_flow graph_flow_rest.

Lemma link_providers_same_nodes provided item g :
  (∀ s p, provided !! s = Some p → p ∈ g_nodes g) → item ∈ g_nodes g →
  g_nodes (link_providers provided item g) = g_nodes g.
Proof.
  unfold link_providers. revert g.
  induction (elements (requires item)) as [|v vs IH]; intros g Hp Hi; [done|].
  simpl. destruct (provided !! v) as [p|] eqn:Hv; [|by apply IH].
  assert (g_nodes (add_edge g p item) = g_nodes g) as Hn
    by (apply add_edge_present_nodes; [by eapply Hp|done]).
  rewrite IH; [done|by rewrite Hn..].
Qed.

Lemma foldl_add_edge_same_nodes item (ns : list Item) g :
  (∀ c, c ∈ ns → c ∈ g_nodes g) → item ∈ g_nodes g →
  g_nodes (foldl (λ g node, add_edge g item node) g ns) = g_nodes g.
Proof.
  revert g. induction ns as [|n ns IH]; intros g Hc Hi; [done|].
  simpl.
  assert (g_nodes (add_edge g item n) = g_nodes g) as Hn
    by (apply add_edge_present_nodes; [done|apply Hc; left]).
  rewrite IH; [done| |by rewrite Hn].
  intros c Hcn. rewrite Hn. apply Hc. by right.
Qed.

Lemma link_requirers_same_nodes requirements item g :
  (∀ s c, requires_in requirements s c → c ∈ g_nodes g) → item ∈ g_nodes g →
  g_nodes (link_requirers requirements item g) = g_nodes g.
Proof.
  unfold link_requirers. revert g.
  induction (elements (provides item)) as [|v vs IH]; intros g Hr Hi; [done|].
  simpl. destruct (requirements !! v) as [l|] eqn:Hv; [|by apply IH].
  assert (g_nodes (foldl (λ g node, add_edge g item node) g l) = g_nodes g) as Hn.
  { apply foldl_add_edge_same_nodes; [|done]. intros c Hc. apply (Hr v). by exists l. }
  rewrite IH; [done|by rewrite Hn..].
Qed.

(** One item of the loop of [add]. *)
Lemma add_step_sound h tmp req prov prov1 :
  dictionaries_sound tmp req prov →
  claim_provides h (elements (provides h)) prov = Return prov1 →
  let tmp3 := link_requirers (update_requirements req h) h
                (link_providers prov1 h (add_node tmp h)) in
  dictionaries_sound tmp3 (update_requirements req h) prov1
  ∧ g_nodes tmp3 = g_nodes (add_node tmp h)
  ∧ (∀ e, e ∈ g_edges tmp → e ∈ g_edges tmp3)
  ∧ (∀ e, e ∈ g_edges tmp3 →
          e ∈ g_edges tmp ∨ (dependency_edge e ∧ (e.1 = h ∨ e.2 = h))).
Proof.
  intros [Hprov Hreq] [_ Hprov1]%claim_provides_return tmp3.
  set (tmp1 := add_node tmp h).
  assert (Hh : h ∈ g_nodes tmp1) by (apply add_node_nodes; by right).
  assert (Hp1 : ∀ s p, prov1 !! s = Some p → p ∈ g_nodes tmp1 ∧ s ∈ provides p).
  { intros s p [H|[Hs ->]]%Hprov1.
    - apply Hprov in H as [? ?]. split; [|done]. apply add_node_nodes. by left.
    - split; [done|]. by apply elem_of_elements. }
  assert (Hr1 : ∀ s c, requires_in (update_requirements req h) s c →
                       c ∈ g_nodes tmp1 ∧ s ∈ requires c).
  { intros s c [H|[-> Hs]]%update_requirements_spec; [|done].
    apply Hreq in H as [? ?]. split; [|done]. apply add_node_nodes. by left. }
  assert (Hn2 : g_nodes (link_providers prov1 h tmp1) = g_nodes tmp1).
  { apply link_providers_same_nodes; [|done]. intros s p Hs. by apply Hp1 in Hs as [? _]. }
  assert (Hn3 : g_nodes tmp3 = g_nodes tmp1).
  { unfold tmp3. fold tmp1. rewrite link_requirers_same_nodes.
    - exact Hn2.
    - intros s c Hs. rewrite Hn2. by apply Hr1 in Hs as [? _].
    - by rewrite Hn2. }
  split; [|split; [done|split]].
  - split; intros s x Hx; rewrite Hn3; [by apply Hp1|by apply Hr1].
  - intros e He. unfold tmp3. fold tmp1. apply link_requirers_edges. left.
    apply link_providers_edges. left. unfold tmp1. by rewrite add_node_edges.
  - intros e. unfold tmp3, tmp1. rewrite link_requirers_edges, link_providers_edges,
      add_node_edges.
    intros [[?|(s & p & Hs & Hp & ->)]|(s & l & c & Hs & Hl & Hc & ->)]; [by left| |].
    + right. split; [|by right]. exists s. split; [|done]. by apply Hp1 in Hp as [_ ?].
    + right. split; [|by left]. exists s. split; [done|].
      assert (requires_in (update_requirements req h) s c) as Hin by (by exists l).
      by apply Hr1 in Hin as [_ ?].
Qed.

(** The whole loop: which nodes and which edges it adds. *)
Lemma add_items_sound items tmp req prov tmp' :
  dictionaries_sound tmp req prov →
  add_items items tmp req prov = Return tmp' →
  (∃ new, g_nodes tmp' = g_nodes tmp ++ new ∧ NoDup new
          ∧ ∀ x, x ∈ new ↔ x ∈ items ∧ x ∉ g_nodes tmp)
  ∧ (∀ e, e ∈ g_edges tmp → e ∈ g_edges tmp')
  ∧ (∀ e, e ∈ g_edges tmp' →
          e ∈ g_edges tmp ∨ (dependency_edge e ∧ (e.1 ∈ items ∨ e.2 ∈ items))).
Proof.
  revert tmp req prov. induction items as [|h items IH]; intros tmp req prov Hd.
  - intros [= <-]. split; [|split; [done|by left]].
    exists []. rewrite app_nil_r. split; [done|]. split; [constructor|].
    intros x. split; [by intros ?%elem_of_nil|by intros [?%elem_of_nil _]].
  - cbn [add_items]. unfold mbind, outcome_bind, obind.
    destruct (claim_provides h (elements (provides h)) prov) as [prov1| |] eqn:Hc;
      [|done..].
    intros Ha.
    destruct (add_step_sound h tmp req prov prov1 Hd Hc) as (Hd3 & Hn3 & Hkeep & Hnew).
    destruct (IH _ _ _ Hd3 Ha) as ((new & Hnodes & Hnd & Hmem) & Hkeep' & Hnew').
    rewrite Hn3 in Hnodes, Hmem. split; [|split].
    + unfold add_node, has_node in Hnodes, Hmem. case_bool_decide as Hh.
      * exists new. split; [done|]. split; [done|]. intros x. rewrite Hmem.
        rewrite elem_of_cons. split; [naive_solver|].
        intros [[->|?] Hn]; [by destruct Hn|by split].
      * simpl in Hnodes, Hmem. exists (h :: new).
        rewrite Hnodes, <- app_assoc. split; [done|]. split.
        -- constructor; [|done]. intros [_ Hn]%Hmem. apply Hn.
           apply elem_of_app. right. left.
        -- intros x. rewrite !elem_of_cons, Hmem, elem_of_app, list_elem_of_singleton.
           split; [naive_solver|]. intros [[->|Hx] Hn]; [by left|].
           destruct (decide (x = h)) as [->|Hne]; [by left|]. right.
           split; [done|]. by intros [?|?].
    + intros e He. by apply Hkeep', Hkeep.
    + intros e [He|[Hdep Hin]]%Hnew'.
      * apply Hnew in He as [?|[Hdep [Hh|Hh]]]; [by left|right..];
          (split; [done|]); [left|right]; rewrite Hh; left.
      * right. split; [done|]. destruct Hin; [left|right]; by right.
Qed.

Lemma scan_sound g :
  dictionaries_sound g (foldl scan_node (∅, ∅) (g_nodes g)).1
                       (foldl scan_node (∅, ∅) (g_nodes g)).2.
Proof.
  split.
  - intros s p [H|?]%scan_provided; [|done]. simpl in H. by rewrite lookup_empty in H.
  - intros s c [(l & H & _)|?]%scan_requirements; [|done].
    simpl in H. by rewrite lookup_empty in H.
Qed.

Lemma add_returns_cases items self self' :
  add items self = (self', Return tt) →
  self' = self ∧ items_added self items = []
  ∨ ∃ tmp, add_items (items_added self items) (_graph self)
             (foldl scan_node (∅, ∅) (g_nodes (_graph self))).1
             (foldl scan_node (∅, ∅) (g_nodes (_graph self))).2 = Return tmp
           ∧ self' = mkFlow (name self) tmp
           ∧ is_directed_acyclic_graph tmp = true.
Proof.
  intros Ha. apply add_cases in Ha. cbv zeta in Ha.
  fold (items_added self items) in Ha.
  destruct Ha as [(Hnil & -> & _) | [(_ & e' & _ & _ & [=]) |
      [(_ & _ & _ & [=]) | (_ & tmp & Ht & Hs)]]]; [by left|].
  right. exists tmp. split; [done|].
  by apply swap_cases in Hs as [(_ & [=] & _)|(-> & _ & ?)].
Qed.

Lemma elem_of_items_added self items x :
  x ∈ items_added self items ↔ x ∈ items ∧ x ∉ g_nodes (_graph self).
Proof.
  unfold items_added. rewrite list_elem_of_filter. unfold has_node.
  rewrite bool_decide_eq_false. tauto.
Qed.

(** X5: [add] with nothing new to add (no item, or only items that are already
    in the flow) returns without touching the flow. *)
Theorem add_nothing_new (items : list Item) (self : Flow) :
  (∀ i, i ∈ items → i ∈ g_nodes (_graph self)) →
  add items self = (self, Return tt).
Proof.
  intros Hin. unfold add, mbind, M_bind, bind, get, ret. simpl.
  assert (filter (λ i, has_node (_graph self) i = false) items = []) as ->; [|done].
  induction items as [|i items IH]; [done|].
  rewrite filter_cons, IH by (intros x Hx; apply Hin; by right).
  rewrite decide_False; [done|]. unfold has_node.
  rewrite bool_decide_eq_true_2; [done|apply Hin; left].
Qed.

(** X6: an [add] that returns has appended to the nodes, once each and after
    the nodes that were there, exactly the given items that were not in the
    flow; [len] grows by their number. *)
Theorem add_returns_nodes (items : list Item) (self self' : Flow) :
  add items self = (self', Return tt) →
  ∃ new,
    iter self' = iter self ++ new
    ∧ NoDup new
    ∧ (∀ x, x ∈ new ↔ x ∈ items ∧ x ∉ iter self)
    ∧ len self' = len self + length new.
Proof.
  intros [[-> Hnil]|(tmp & Ht & -> & _)]%add_returns_cases; unfold iter, len.
  - exists []. rewrite app_nil_r. split; [done|]. split; [constructor|].
    split; [|simpl; lia]. intros x. split; [by intros ?%elem_of_nil|].
    intros Hx%elem_of_items_added. rewrite Hnil in Hx. by apply elem_of_nil in Hx.
  - apply add_items_sound in Ht as ((new & Hn & Hnd & Hmem) & _); [|apply scan_sound].
    exists new. simpl. split; [done|]. split; [done|]. split.
    + intros x. rewrite Hmem, elem_of_items_added. tauto.
    + rewrite Hn, length_app. done.
Qed.

(** X7: an [add] that returns has kept every edge, and every edge it has added
    goes from a provider of a symbol to a node that requires it, one of the
    two being among the items given. *)
Theorem add_returns_edges (items : list Item) (self self' : Flow) :
  add items self = (self', Return tt) →
  (∀ e, e ∈ g_edges (_graph self) → e ∈ g_edges (_graph self'))
  ∧ ∀ e, e ∈ g_edges (_graph self') →
         e ∈ g_edges (_graph self)
         ∨ (dependency_edge e ∧ (e.1 ∈ items ∨ e.2 ∈ items)).
Proof.
  intros [[-> Hnil]|(tmp & Ht & -> & _)]%add_returns_cases; [split; [done|by left]|].
  apply add_items_sound in Ht as (_ & Hkeep & Hnew); [|apply scan_sound].
  split; [done|]. simpl. intros e [?|[Hd Hin]]%Hnew; [by left|right].
  split; [done|]. destruct Hin as [Hin|Hin]; apply elem_of_items_added in Hin as [? _];
    [by left|by right].
Qed.

End more_add.

Section more_add_effects.
Import graph_flow graph_flow_rest.

Lemma add_items_keeps_edges items tmp req prov tmp' e :
  add_items items tmp req prov = Return tmp' →
  e ∈ g_edges tmp → e ∈ g_edges tmp'.
Proof.
  revert tmp req prov. induction items as [|h items IH]; intros tmp req prov.
  - by intros [= <-].
  - cbn [add_items]. unfold mbind, outcome_bind, obind.
    destruct (claim_provides h (elements (provides h)) prov) as [prov1| |]; [|done..].
    intros Ha He. apply (IH _ _ _ Ha).
    apply link_requirers_edges. left. apply link_providers_edges. left.
    by rewrite add_node_edges.
Qed.

Lemma add_items_self_edge items tmp req prov tmp' h s :
  add_items items tmp req prov = Return tmp' →
  h ∈ items → s ∈ provides h → s ∈ requires h →
  (h, h) ∈ g_edges tmp'.
Proof.
  revert tmp req prov. induction items as [|x items IH]; intros tmp req prov.
  - by intros _ ?%elem_of_nil.
  - cbn [add_items]. unfold mbind, outcome_bind, obind.
    destruct (claim_provides x (elements (provides x)) prov) as [prov1| |] eqn:Hc;
      [|done..].
    intros Ha [<-|Hh]%elem_of_cons Hp Hr; [|by apply (IH _ _ _ Ha)].
    apply (add_items_keeps_edges _ _ _ _ _ _ Ha).
    apply link_requirers_edges. left. apply link_providers_edges. right.
    exists s, h. split; [done|]. split; [|done].
    apply claim_provides_return in Hc as [_ Hc]. apply Hc. right.
    split; [by apply elem_of_elements|done].
Qed.

(** X8: [add] refuses, with [DependencyFailure] and without changing the flow,
    a new item that requires a symbol which it provides itself. *)
Theorem add_rejects_self_dependency (items : list Item) (self : Flow)
    (h : Item) (s : string) :
  h ∈ items → h ∉ g_nodes (_graph self) →
  s ∈ provides h → s ∈ requires h →
  add items self = (self, Raised DependencyFailure).
Proof.
  intros Hh Hnew Hp Hr.
  assert (h ∈ items_added self items) as Hadded by (by apply elem_of_items_added).
  destruct (add items self) as [self' o] eqn:Ha.
  pose proof Ha as Hcases. apply add_cases in Hcases. cbv zeta in Hcases.
  fold (items_added self items) in Hcases.
  destruct (add_items_outcomes (items_added self items) (_graph self)
              (foldl scan_node (∅, ∅) (g_nodes (_graph self))).1
              (foldl scan_node (∅, ∅) (g_nodes (_graph self))).2)
    as [[tmp Ht]|Hraise].
  - destruct Hcases as [(Hnil & _) | [(_ & e' & He & _) |
        [(_ & Hf & _) | (_ & tmp' & Ht' & Hs)]]].
    + rewrite Hnil in Hadded. by apply elem_of_nil in Hadded.
    + by rewrite Ht in He.
    + by rewrite Ht in Hf.
    + rewrite Ht in Ht'. injection Ht' as <-.
      pose proof (add_items_self_edge _ _ _ _ _ h s Ht Hadded Hp Hr) as Hedge.
      assert (is_directed_acyclic_graph tmp = false) as Hd
        by (apply (cyclic_rejected _ h); by apply path_edge).
      apply swap_cases in Hs as [(-> & -> & _)|(_ & _ & Hd')]; [done|congruence].
  - destruct Hcases as [(Hnil & _) | [(_ & e' & He & -> & ->) |
        [(_ & Hf & _) | (_ & tmp' & Ht' & _)]]].
    + rewrite Hnil in Hadded. by apply elem_of_nil in Hadded.
    + rewrite Hraise in He. by injection He as <-.
    + by rewrite Hraise in Hf.
    + by rewrite Hraise in Ht'.
Qed.

Lemma elem_of_flow_provides self s :
  s ∈ flow_provides self ↔ ∃ n, n ∈ g_nodes (_graph self) ∧ s ∈ provides n.
Proof.
  rewrite flow_provides_union, elem_of_union_list. split.
  - intros (X & (n & -> & Hn)%list_elem_of_fmap & Hs). by exists n.
  - intros (n & Hn & Hs). exists (provides n). split; [|done].
    apply list_elem_of_fmap. by exists n.
Qed.

Lemma elem_of_flow_requires self s :
  s ∈ flow_requires self ↔
  (∃ n, n ∈ g_nodes (_graph self) ∧ s ∈ requires n) ∧ s ∉ flow_provides self.
Proof.
  unfold flow_requires. rewrite foldl_union_list, elem_of_difference.
  rewrite elem_of_union, elem_of_union_list. split.
  - intros [[?%not_elem_of_empty|(X & (n & -> & Hn)%list_elem_of_fmap & Hs)] Hnot];
      [done|]. split; [by exists n|done].
  - intros [(n & Hn & Hs) Hnot]. split; [|done]. right.
    exists (requires n). split; [|done]. apply list_elem_of_fmap. by exists n.
Qed.

Lemma add_returns_node_set items self self' x :
  add items self = (self', Return tt) →
  x ∈ g_nodes (_graph self') ↔ x ∈ g_nodes (_graph self) ∨ x ∈ items.
Proof.
  intros [[-> Hnil]|(tmp & Ht & -> & _)]%add_returns_cases.
  - split; [by left|]. intros [?|Hx]; [done|].
    destruct (decide (x ∈ g_nodes (_graph self))) as [?|Hn]; [done|].
    assert (x ∈ items_added self items) as Hin by (by apply elem_of_items_added).
    rewrite Hnil in Hin. by apply elem_of_nil in Hin.
  - apply add_items_sound in Ht as ((new & Hn & _ & Hmem) & _); [|apply scan_sound].
    simpl. rewrite Hn, elem_of_app, Hmem, elem_of_items_added.
    destruct (decide (x ∈ g_nodes (_graph self))); naive_solver.
Qed.

(** X9: an [add] that returns makes the flow provide what it provided and what
    the given items provide; the flow then requires what it required and
    what the items require, except what is now provided. *)
Theorem add_returns_provides (items : list Item) (self self' : Flow) :
  add items self = (self', Return tt) →
  flow_provides self' = flow_provides self ∪ ⋃ (provides <$> items)
  ∧ flow_requires self'
    = (flow_requires self ∪ ⋃ (requires <$> items)) ∖ flow_provides self'.
Proof.
  intros Ha.
  assert (Hp : ∀ s, s ∈ flow_provides self' ↔
                    s ∈ flow_provides self ∨ s ∈ ⋃ (provides <$> items)).
  { intros s. rewrite !elem_of_flow_provides, elem_of_union_list. split.
    - intros (n & [Hn|Hn]%(add_returns_node_set _ _ _ _ Ha) & Hs); [left; by exists n|].
      right. exists (provides n). split; [|done]. apply list_elem_of_fmap. by exists n.
    - intros [(n & Hn & Hs)|(X & (n & -> & Hn)%list_elem_of_fmap & Hs)];
        exists n; (split; [|done]); apply (add_returns_node_set _ _ _ _ Ha); auto. }
  split.
  - apply set_eq. intros s. by rewrite Hp, elem_of_union.
  - apply set_eq. intros s.
    rewrite elem_of_difference, elem_of_union, !elem_of_flow_requires,
      elem_of_union_list.
    split.
    + intros [(n & [Hn|Hn]%(add_returns_node_set _ _ _ _ Ha) & Hs) Hnot].
      * split; [|done]. left. split; [by exists n|].
        intros Hin. apply Hnot, Hp. by left.
      * split; [|done]. right. exists (requires n). split; [|done].
        apply list_elem_of_fmap. by exists n.
    + intros [[[(n & Hn & Hs) _]|(X & (n & -> & Hn)%list_elem_of_fmap & Hs)] Hnot];
        (split; [|done]); exists n; (split; [|done]);
        apply (add_returns_node_set _ _ _ _ Ha); auto.
Qed.

(** X4: whatever [link] answers, it neither adds nor removes an item: the
    nodes, and with them what the flow provides and requires, stay as they
    were. *)
Theorem link_keeps_items (u v : Item) (self self' : Flow) (o : outcome unit) :
  link u v self = (self', o) →
  iter self' = iter self
  ∧ flow_provides self' = flow_provides self
  ∧ flow_requires self' = flow_requires self.
Proof.
  intros Hl.
  assert (g_nodes (_graph self') = g_nodes (_graph self)) as Hn.
  { revert Hl. unfold link, mbind, M_bind, bind, get, raise, has_node, ret. simpl.
    case_bool_decide as Hu; simpl; [|by intros [= <- _]].
    case_bool_decide as Hv; simpl; [|by intros [= <- _]].
    destruct (has_edge (_graph self) u v); [by intros [= <- _]|].
    intros [(-> & _)|(-> & _)]%swap_cases; [done|]. simpl.
    by apply add_edge_present_nodes. }
  unfold iter, flow_requires, flow_provides. by rewrite Hn.
Qed.

End more_add_effects.

(** * More about the runtime *)

Section more_compile.
Import action_engine engine_spec.
Context `{Transitions}.

Variable g : ExecutionGraph.

Lemma compile_nodes_domain fuel todo cache cache' :
  compile_nodes fuel g todo cache = Return cache' →
  (∀ n, n ∉ name <$> filter (λ n, kind g n ∈ co.ATOMS) todo →
        cache' !! n = cache !! n)
  ∧ (∀ n, n ∈ name <$> filter (λ n, kind g n ∈ co.ATOMS) todo →
          is_Some (cache' !! n))
  ∧ (∀ n, is_Some (cache !! n) → is_Some (cache' !! n)).
Proof.
  revert cache. induction todo as [|node todo IH]; intros cache.
  - intros [= <-]. split; [done|]. split; [|done]. by intros n Hn%elem_of_nil.
  - rewrite compile_nodes_unfold, filter_cons.
    destruct (decide (kind g node = co.FLOW)) as [Hk|Hk].
    + rewrite decide_False by (by rewrite kind_atoms; intros []). apply IH.
    + rewrite decide_True by (by apply kind_atoms).
      destruct (_walk_edge_deciders fuel g node) as [ds| |] eqn:Hw; [|done..].
      cbn [mbind outcome_bind obind]. rewrite fmap_cons.
      intros (Hframe & Hnew & Hold)%IH.
      assert (is_Some (cache' !! name node)) as Hnode
        by (apply Hold; by rewrite lookup_insert_eq).
      split; [|split].
      * intros n Hn. rewrite Hframe by (intros ?; apply Hn; by right).
        rewrite lookup_insert_ne; [done|]. intros <-. apply Hn. left.
      * intros n [->|Hn]%elem_of_cons; [done|by apply Hnew].
      * intros n Hn. apply Hold. destruct (decide (name node = n)) as [<-|Hne].
        -- by rewrite lookup_insert_eq.
        -- by rewrite lookup_insert_ne.
Qed.

(** What [compile] writes does not depend on what the cache held. *)
Lemma compile_nodes_writes fuel todo cache cache' :
  compile_nodes fuel g todo cache = Return cache' →
  ∃ m : gmap string Metadata,
    ∀ c, compile_nodes fuel g todo c = Return (m ∪ c).
Proof.
  revert cache. induction todo as [|node todo IH]; intros cache.
  - intros _. exists ∅. intros c. by rewrite (left_id_L ∅ (∪)).
  - rewrite compile_nodes_unfold. case_decide as Hk.
    + intros [m Hm]%IH. exists m. intros c. by rewrite compile_nodes_unfold, decide_True.
    + destruct (_walk_edge_deciders fuel g node) as [ds| |] eqn:Hw; [|done..].
      cbn [mbind outcome_bind obind]. intros [m Hm]%IH.
      exists (m ∪ {[name node := metadata_for g node ds]}). intros c.
      rewrite compile_nodes_unfold, decide_False by done.
      rewrite Hw. cbn [mbind outcome_bind obind].
      by rewrite Hm, insert_union_singleton_l, (assoc_L (∪)).
Qed.

End more_compile.

Section more_compile_claims.
Import action_engine engine_spec.
Context `{Transitions}.

(** X10: with fuel for twice the number of edges [compile] returns; it caches an
    entry for exactly the names of the task and retry nodes, beside what the
    cache held, and none for flow markers: looking up the metadata of a name
    that is neither cached before nor the name of an atom raises
    [KeyError]. *)
Theorem compile_caches_atoms (g : ExecutionGraph)
    (cache : gmap string Metadata) (fuel : nat) :
  2 * length (edges g) < fuel →
  ∃ cache',
    compile fuel (mkRuntime g cache) = (mkRuntime g cache', Return tt)
    ∧ (∀ n, is_Some (cache' !! n) ↔
            is_Some (cache !! n) ∨ n ∈ name <$> iterate_nodes g co.ATOMS)
    ∧ ∀ node, cache !! name node = None →
              name node ∉ name <$> iterate_nodes g co.ATOMS →
              ∀ s t,
                fetch_edge_deciders (mkRuntime g cache') node = Raised KeyError
                ∧ check_atom_transition (mkRuntime g cache') node s t
                  = Raised KeyError.
Proof.
  intros Hf. destruct (compile_nodes_total g fuel (nodes g) cache Hf) as [cache' Hc].
  exists cache'. split.
  { unfold compile, mbind, M_bind, bind, get, put, lift. simpl. by rewrite Hc. }
  apply compile_nodes_domain in Hc as (Hframe & Hnew & Hold).
  fold (iterate_nodes g co.ATOMS) in Hframe, Hnew.
  split.
  - intros n. split; [|intros [?|?]; auto].
    intros Hn. destruct (decide (n ∈ name <$> iterate_nodes g co.ATOMS)); [by right|].
    left. by rewrite <- Hframe.
  - intros node Hnone Hnot s t.
    unfold fetch_edge_deciders, check_atom_transition, _fetch_atom_metadata,
      subscript. simpl.
    by rewrite (Hframe _ Hnot), Hnone.
Qed.

(** X11: after [compile], when the atoms have distinct names, the transition of
    a task is checked with the task checker and the transition of a retry
    with the retry checker. *)
Theorem check_atom_transition_by_kind (g : ExecutionGraph)
    (cache : gmap string Metadata) (fuel : nat) (self' : Runtime)
    (atom : Atom) (current_state target_state : State) :
  NoDup (name <$> iterate_nodes g co.ATOMS) →
  compile fuel (mkRuntime g cache) = (self', Return tt) →
  atom ∈ nodes g → kind g atom ∈ co.ATOMS →
  check_atom_transition self' atom current_state target_state
  = Return (match kind g atom with
            | co.RETRY => check_retry_transition current_state target_state
            | _ => check_task_transition current_state target_state
            end).
Proof.
  intros Hnd Hc Hn Hk.
  unfold compile, mbind, M_bind, bind, get, put, lift in Hc. simpl in Hc.
  destruct (compile_nodes fuel g (nodes g) cache) as [cache'| |] eqn:Hcn; [|done..].
  injection Hc as <-.
  destruct (compile_nodes_cache g fuel (nodes g) cache cache' Hcn Hnd) as [_ Hall].
  destruct (Hall atom Hn Hk) as (ds & _ & Hmd).
  unfold check_atom_transition, _fetch_atom_metadata, subscript. simpl.
  rewrite Hmd. simpl. by destruct (kind g atom).
Qed.

(** X12: compiling a compiled runtime again changes nothing. *)
Theorem compile_idempotent (fuel : nat) (self self' : Runtime) :
  compile fuel self = (self', Return tt) →
  compile fuel self' = (self', Return tt).
Proof.
  unfold compile, mbind, M_bind, bind, get, put, lift. simpl.
  destruct (compile_nodes fuel (execution_graph self) (nodes (execution_graph self))
              (_atom_cache self)) as [cache'| |] eqn:Hc; [|done..].
  intros [= <-]. simpl.
  destruct (compile_nodes_writes _ _ _ _ _ Hc) as [m Hm].
  rewrite Hm in Hc. injection Hc as <-.
  by rewrite Hm, (assoc_L (∪)), (idemp_L (∪)).
Qed.

End more_compile_claims.

Section more_reset.
Import action_engine engine_spec.

(** X13: resetting atoms to no state and no intention does nothing: the storage
    is untouched, no atom is reported and the cache is not consulted. *)
Theorem reset_atoms_nothing (runtime : Runtime) (atoms : list Atom)
    (storage : Storage) :
  reset_atoms runtime atoms None None storage = (storage, Return []).
Proof.
  induction atoms as [|a atoms IH]; [done|].
  cbn [reset_atoms]. unfold mbind, M_bind, bind, mret, M_ret, ret. simpl.
  by rewrite IH.
Qed.

Lemma reset_atoms_intention_list runtime atoms intention storage storage' o :
  reset_atoms runtime atoms None (Some intention) storage = (storage', o) →
  o = Return ((λ a, (a, None, Some intention)) <$> atoms)
  ∧ ∀ n, storage' n = if decide (n ∈ name <$> atoms)
                      then ((storage n).1, intention) else storage n.
Proof.
  revert storage storage' o.
  induction atoms as [|a atoms IH]; intros storage storage' o.
  - intros [= <- <-]. split; [done|]. intros n. case_decide as Hn; [|done].
    by apply elem_of_nil in Hn.
  - cbn [reset_atoms].
    unfold set_atom_intention, mbind, M_bind, bind, mret, M_ret, ret, get, put.
    cbn [fst snd].
    match goal with
    | |- context [reset_atoms _ _ _ _ ?s] =>
      destruct (reset_atoms runtime atoms None (Some intention) s)
        as [storage2 o2] eqn:Hr
    end.
    apply IH in Hr as [-> Hs2]. intros [= <- <-]. split; [done|].
    intros n. rewrite Hs2, fmap_cons.
    repeat case_decide; simplify_eq; set_solver.
Qed.

(** X14: resetting only the intention of a list of atoms always returns, without
    consulting the cache: the listed atoms get the intention and keep their
    state, every other entry is unchanged, and each atom is reported. *)
Theorem reset_atoms_intention_only (runtime : Runtime) (atoms : list Atom)
    (intention : State) (storage : Storage) :
  ∃ storage',
    reset_atoms runtime atoms None (Some intention) storage
      = (storage', Return ((λ a, (a, None, Some intention)) <$> atoms))
    ∧ (∀ a, a ∈ atoms →
            storage' (name a) = (get_atom_state storage (name a), intention))
    ∧ (∀ n, n ∉ name <$> atoms → storage' n = storage n).
Proof.
  destruct (reset_atoms runtime atoms None (Some intention) storage)
    as [storage' o] eqn:Hr.
  apply reset_atoms_intention_list in Hr as [-> Hs].
  exists storage'. split; [done|]. split.
  - intros a Ha. rewrite Hs, decide_True; [done|].
    apply list_elem_of_fmap. by exists a.
  - intros n Hn. by rewrite Hs, decide_False.
Qed.

(** X15: resetting to a state is not atomic: when the atom after some atoms of
    the compiled graph has no metadata, the call raises [KeyError] after
    having reset the atoms before it. *)
Theorem reset_atoms_key_error (runtime : Runtime) (before after : list Atom)
    (atom : Atom) (state intention : State) (storage : Storage) :
  compiled runtime →
  (∀ a, a ∈ before → a ∈ nodes (execution_graph runtime)
                     ∧ kind (execution_graph runtime) a ∈ co.ATOMS) →
  _atom_cache runtime !! name atom = None →
  ∃ storage',
    reset_atoms runtime (before ++ atom :: after) (Some state) (Some intention)
      storage = (storage', Raised KeyError)
    ∧ ∀ n, storage' n = if decide (n ∈ name <$> before)
                        then (state, intention) else storage n.
Proof.
  intros Hc Hin Hnone. revert storage.
  induction before as [|a before IH]; intros storage.
  - exists storage. split.
    + cbn [app reset_atoms].
      unfold mbind, M_bind, bind, lift, _fetch_atom_metadata, subscript.
      by rewrite Hnone.
    + intros n. case_decide as Hn; [|done]. by apply elem_of_nil in Hn.
  - destruct (compiled_change_state runtime a Hc) as (metadata & Hmd & Hh);
      [apply Hin; left..|].
    cbn [app reset_atoms].
    unfold mbind, M_bind, bind, mret, M_ret, ret, lift,
      _fetch_atom_metadata, subscript.
    rewrite Hmd, Hh.
    unfold set_atom_state, set_atom_intention, mbind, M_bind, bind, get, put.
    cbn [fst snd].
    match goal with
    | |- context [reset_atoms _ _ _ _ ?s] =>
      destruct (IH (λ x Hx, Hin x (list_elem_of_further _ _ _ Hx)) s)
        as (storage' & Hr & Hs')
    end.
    exists storage'. rewrite Hr. split; [done|].
    intros n. rewrite Hs', fmap_cons.
    repeat case_decide; simplify_eq; set_solver.
Qed.

End more_reset.

(** * More about the analyzer *)

Section more_is_success.
Import action_engine engine_spec action_engine_rest.

(** X16: on a compiled runtime [reset_all] returns, reporting every atom of the
    graph; afterwards every atom has the given state and intention and the
    entries of all other names are as before.  [is_success] then answers
    true exactly when the state given is [SUCCESS] or [IGNORE], or the graph
    has no atom. *)
Theorem reset_all_then_is_success (runtime : Runtime) (state intention : State)
    (storage : Storage) :
  compiled runtime →
  ∃ storage',
    reset_all runtime (Some state) (Some intention) storage
      = (storage',
         Return ((λ a, (a, Some state, Some intention))
                   <$> iterate_nodes (execution_graph runtime) co.ATOMS))
    ∧ (∀ a, a ∈ iterate_nodes (execution_graph runtime) co.ATOMS →
            storage' (name a) = (state, intention))
    ∧ (∀ n, n ∉ name <$> iterate_nodes (execution_graph runtime) co.ATOMS →
            storage' n = storage n)
    ∧ is_success runtime storage'
      = Return (bool_decide (state ∈ [st.SUCCESS; st.IGNORE]
                             ∨ iterate_nodes (execution_graph runtime) co.ATOMS = [])).
Proof.
  intros Hc. unfold reset_all.
  destruct (reset_atoms runtime (iterate_nodes (execution_graph runtime) co.ATOMS)
              (Some state) (Some intention) storage) as [storage' o] eqn:Hr.
  apply reset_atoms_both in Hr as [-> Hs]; [|done|].
  2: { intros a Ha. unfold iterate_nodes in Ha. by apply list_elem_of_filter in Ha as [? ?]. }
  exists storage'. split; [done|].
  assert (Hall : ∀ a, a ∈ iterate_nodes (execution_graph runtime) co.ATOMS →
                      storage' (name a) = (state, intention)).
  { intros a Ha. rewrite Hs, decide_True; [done|]. apply list_elem_of_fmap. by exists a. }
  split; [done|]. split; [intros n Hn; by rewrite Hs, decide_False|].
  unfold is_success.
  destruct (is_success_loop_spec storage'
              (name <$> iterate_nodes (execution_graph runtime) co.ATOMS)
              (iterate_nodes (execution_graph runtime) co.ATOMS)) as (b & -> & Hiff).
  { intros a Ha. apply list_elem_of_fmap. by exists a. }
  f_equal. apply eq_true_iff_eq. rewrite Hiff, bool_decide_eq_true. split.
  - intros Hhappy.
    destruct (iterate_nodes (execution_graph runtime) co.ATOMS) as [|a l] eqn:Hl;
      [by right|].
    left. specialize (Hhappy a (list_elem_of_here _ _)).
    unfold get_atom_state in Hhappy. by rewrite (Hall a (list_elem_of_here _ _)) in Hhappy.
  - intros [Hst|Hnil] a Ha.
    + unfold get_atom_state. by rewrite (Hall a Ha).
    + rewrite Hnil in Ha. by apply elem_of_nil in Ha.
Qed.

(** X17: [iterate_retries] never raises: given a state it yields, in the order
    of the nodes, exactly the retries whose stored state is that state;
    given none it yields every retry. *)
Theorem iterate_retries_filter (runtime : Runtime) (storage : Storage) :
  (∀ state,
     iterate_retries runtime storage (Some state)
     = Return (filter (λ atom, get_atom_state storage (name atom) = state)
                      (iterate_nodes (execution_graph runtime) [co.RETRY])))
  ∧ iterate_retries runtime storage None
    = Return (iterate_nodes (execution_graph runtime) [co.RETRY]).
Proof.
  split; [|done]. intros state. unfold iterate_retries.
  set (atoms := iterate_nodes (execution_graph runtime) [co.RETRY]).
  assert (∀ l, (∀ a, a ∈ l → name a ∈ name <$> atoms) →
               iterate_retries_loop (get_atoms_states storage (name <$> atoms)) state l
               = Return (filter (λ atom, get_atom_state storage (name atom) = state) l))
    as Hloop.
  { induction l as [|a l IH]; intros Hin; [done|].
    cbn [iterate_retries_loop].
    rewrite subscript_atoms_states by (apply Hin; left).
    cbn [mbind outcome_bind obind]. unfold get_atom_state in *.
    destruct (storage (name a)) as [a_state a_intention] eqn:Ha.
    rewrite IH by (intros x Hx; apply Hin; by right).
    cbn [mbind outcome_bind obind]. rewrite filter_cons, Ha. simpl.
    by destruct (decide (a_state = state)). }
  apply Hloop. intros a Ha. apply list_elem_of_fmap. by exists a.
Qed.

End more_is_success.

(** * More about the frontiers *)

Section more_frontier.
Import action_engine engine_spec.

Lemma get_maybe_ready_true runtime storage atom transition_to allowed
    connected_fetcher ready_checker decider_fetcher d :
  _get_maybe_ready runtime storage atom transition_to allowed
    connected_fetcher ready_checker decider_fetcher = Return (true, d) →
  ∃ metadata connected late,
    _atom_cache runtime !! name atom = Some metadata
    ∧ check_transition_handler metadata (get_atom_state storage (name atom))
        transition_to = true
    ∧ get_atom_intention storage (name atom) ∈ allowed
    ∧ connected_fetcher = Return connected
    ∧ ready_checker ((λ a, (a, storage (name a))) <$> connected) = true
    ∧ decider_fetcher = Return late ∧ d = Some late.
Proof.
  unfold _get_maybe_ready, check_atom_transition, _fetch_atom_metadata, subscript.
  destruct (_atom_cache runtime !! name atom) as [metadata|] eqn:Hmd; [|done].
  cbn [mbind outcome_bind obind].
  destruct (check_transition_handler metadata _ _) eqn:Hcheck; [|done]. simpl.
  case_bool_decide as Hint; [|done]. simpl.
  destruct connected_fetcher as [connected| |]; [|done..].
  cbn [mbind outcome_bind obind]. rewrite iter_connected_states_spec.
  cbn [mbind outcome_bind obind].
  destruct (ready_checker _) eqn:Hready; [|done]. simpl.
  destruct decider_fetcher as [late| |]; [|done..].
  cbn [mbind outcome_bind obind]. intros [= <-].
  by exists metadata, connected, late.
Qed.

Lemma get_maybe_ready_wrong_intention runtime storage atom transition_to allowed
    connected_fetcher ready_checker decider_fetcher metadata :
  _atom_cache runtime !! name atom = Some metadata →
  get_atom_intention storage (name atom) ∉ allowed →
  _get_maybe_ready runtime storage atom transition_to allowed
    connected_fetcher ready_checker decider_fetcher = Return (false, None).
Proof.
  intros Hmd Hint.
  unfold _get_maybe_ready, check_atom_transition, _fetch_atom_metadata, subscript.
  rewrite Hmd. cbn [mbind outcome_bind obind].
  destruct (check_transition_handler metadata _ _); [|done]. simpl.
  by rewrite bool_decide_eq_false_2.
Qed.

(** Without any assumption on the graph, a traversal that returns has
    yielded exactly the atoms that [walk] reaches. *)
Lemma depth_first_iterate_returns g direction through_retries start fuel l x :
  depth_first_iterate fuel g start direction through_retries = Return l →
  x ∈ l ↔ walk g direction through_retries start x ∧ kind g x ∈ co.ATOMS.
Proof.
  unfold depth_first_iterate. rewrite depth_first_loop_worklist.
  set (push := λ work children : list Atom, reverse children ++ work).
  assert (Hperm : ∀ w c, push w c ≡ₚ w ++ c).
  { intros w c. unfold push. rewrite reverse_Permutation. apply Permutation_app_comm. }
  intros Hl. rewrite walk_rtc. split.
  - intros Hx. destruct (worklist_sound _ _ _ Hperm _ _ _ _ Hl Hx)
      as (c & y & Hc & Hcy & [-> Hy]%elem_of_yielded).
    split; [|done]. exists c. split; [|done]. by rewrite elem_of_reverse in Hc.
  - intros [(c & Hc & Hcx) Hk].
    apply (worklist_complete _ _ _ Hperm _ _ _ c x x Hl); [|done|].
    + by rewrite elem_of_reverse.
    + by apply elem_of_yielded.
Qed.

Lemma breadth_first_iterate_returns g direction through_retries start fuel l x :
  breadth_first_iterate fuel g start direction through_retries = Return l →
  x ∈ l ↔ walk g direction through_retries start x ∧ kind g x ∈ co.ATOMS.
Proof.
  unfold breadth_first_iterate. rewrite breadth_first_loop_worklist.
  set (push := λ work children : list Atom, work ++ children).
  assert (Hperm : ∀ w c, push w c ≡ₚ w ++ c) by done.
  intros Hl. rewrite walk_rtc. split.
  - intros Hx. destruct (worklist_sound _ _ _ Hperm _ _ _ _ Hl Hx)
      as (c & y & Hc & Hcy & [-> Hy]%elem_of_yielded).
    split; [|done]. by exists c.
  - intros [(c & Hc & Hcx) Hk].
    apply (worklist_complete _ _ _ Hperm _ _ _ c x x Hl); [done..|].
    by apply elem_of_yielded.
Qed.

Lemma browse_for_execute_yielded fuel runtime storage seed l a d :
  browse_atoms_for_execute fuel runtime storage seed = Return l →
  (a, d) ∈ l →
  _get_maybe_ready_for_execute fuel runtime storage a = Return (true, d)
  ∧ kind (execution_graph runtime) a ∈ co.ATOMS
  ∧ match seed with
    | None => a ∈ nodes (execution_graph runtime)
    | Some seed => walk (execution_graph runtime) FORWARD true seed a
    end.
Proof.
  unfold browse_atoms_for_execute. destruct seed as [seed|].
  - destruct (breadth_first_iterate _ _ _ _ _) as [cands| |] eqn:Hb; [|done..].
    cbn [mbind outcome_bind obind]. intros Hl Hin.
    apply (browse_loop_spec _ _ _ Hl) in Hin as [Hc Hr].
    by apply (breadth_first_iterate_returns _ _ _ _ _ _ _ Hb) in Hc as [? ?].
  - cbn [mbind outcome_bind obind]. intros Hl Hin.
    apply (browse_loop_spec _ _ _ Hl) in Hin as [Hc Hr].
    unfold iterate_nodes in Hc. by apply list_elem_of_filter in Hc as [? ?].
Qed.

Lemma browse_for_revert_yielded fuel runtime storage seed l a d :
  browse_atoms_for_revert fuel runtime storage seed = Return l →
  (a, d) ∈ l →
  _get_maybe_ready_for_revert fuel runtime storage a = Return (true, d)
  ∧ kind (execution_graph runtime) a ∈ co.ATOMS
  ∧ match seed with
    | None => a ∈ nodes (execution_graph runtime)
    | Some seed => walk (execution_graph runtime) BACKWARD false seed a
    end.
Proof.
  unfold browse_atoms_for_revert. destruct seed as [seed|].
  - destruct (breadth_first_iterate _ _ _ _ _) as [cands| |] eqn:Hb; [|done..].
    cbn [mbind outcome_bind obind]. intros Hl Hin.
    apply (browse_loop_spec _ _ _ Hl) in Hin as [Hc Hr].
    by apply (breadth_first_iterate_returns _ _ _ _ _ _ _ Hb) in Hc as [? ?].
  - cbn [mbind outcome_bind obind]. intros Hl Hin.
    apply (browse_loop_spec _ _ _ Hl) in Hin as [Hc Hr].
    unfold iterate_nodes in Hc. by apply list_elem_of_filter in Hc as [? ?].
Qed.

(** X18: dependencies are respected: an atom that a browse for execution
    yields, seeded or not, intends to execute, and every atom from which it
    can be reached is in state [SUCCESS] or [IGNORE] with intention
    [EXECUTE] or [IGNORE]. *)
Theorem execute_frontier_respects_dependencies (fuel : nat) (runtime : Runtime)
    (storage : Storage) (seed : option Atom)
    (l : list (Atom * option Decider)) (a : Atom) (d : option Decider) :
  browse_atoms_for_execute fuel runtime storage seed = Return l →
  (a, d) ∈ l →
  get_atom_intention storage (name a) = st.EXECUTE
  ∧ ∀ x, walk (execution_graph runtime) BACKWARD true a x →
         kind (execution_graph runtime) x ∈ co.ATOMS →
         happy (storage (name x)).
Proof.
  intros Hl Hin.
  destruct (browse_for_execute_yielded _ _ _ _ _ _ _ Hl Hin) as (Hr & _ & _).
  apply get_maybe_ready_true in Hr
    as (metadata & connected & late & _ & _ & Hint & Hconn & Hready & _).
  split; [by apply list_elem_of_singleton in Hint|].
  intros x Hx Hk. rewrite execute_ready_checker_spec in Hready.
  apply Hready. by apply (depth_first_iterate_returns _ _ _ _ _ _ _ Hconn).
Qed.

(** X19: an atom that a browse for reversion yields, seeded or not, intends to
    revert or retry, and every atom that can be reached from it is in state
    [PENDING], [REVERTED] or [IGNORE]. *)
Theorem revert_frontier_respects_dependents (fuel : nat) (runtime : Runtime)
    (storage : Storage) (seed : option Atom)
    (l : list (Atom * option Decider)) (a : Atom) (d : option Decider) :
  browse_atoms_for_revert fuel runtime storage seed = Return l →
  (a, d) ∈ l →
  get_atom_intention storage (name a) ∈ [st.REVERT; st.RETRY]
  ∧ d = Some NoOpDecider
  ∧ ∀ x, walk (execution_graph runtime) FORWARD true a x →
         kind (execution_graph runtime) x ∈ co.ATOMS →
         revertable (storage (name x)).
Proof.
  intros Hl Hin.
  destruct (browse_for_revert_yielded _ _ _ _ _ _ _ Hl Hin) as (Hr & _ & _).
  apply get_maybe_ready_true in Hr
    as (metadata & connected & late & _ & _ & Hint & Hconn & Hready & [= <-] & ->).
  split; [done|]. split; [done|].
  intros x Hx Hk. rewrite revert_ready_checker_spec in Hready.
  apply Hready. by apply (depth_first_iterate_returns _ _ _ _ _ _ _ Hconn).
Qed.

End more_frontier.

Section more_frontier_sets.
Import action_engine engine_spec.

Lemma browse_loop_sublist maybe_ready (atom_it : list Atom) l :
  browse_loop maybe_ready atom_it = Return l → l.*1 `sublist_of` atom_it.
Proof.
  revert l. induction atom_it as [|x atom_it IH]; intros l.
  - intros [= <-]. constructor.
  - cbn [browse_loop].
    destruct (maybe_ready x) as [[b dx]| |]; [|done..].
    cbn [mbind outcome_bind obind].
    destruct (browse_loop maybe_ready atom_it) as [rest| |]; [|done..].
    cbn [mbind outcome_bind obind]. intros [= <-]. specialize (IH rest eq_refl).
    destruct b; simpl; by constructor.
Qed.

Lemma browse_loop_none maybe_ready (atom_it : list Atom) :
  (∀ a, a ∈ atom_it → maybe_ready a = Return (false, None)) →
  browse_loop maybe_ready atom_it = Return [].
Proof.
  induction atom_it as [|x atom_it IH]; intros Hall; [done|].
  cbn [browse_loop]. rewrite (Hall x) by left.
  cbn [mbind outcome_bind obind]. rewrite IH; [done|].
  intros a Ha. apply Hall. by right.
Qed.

Lemma unique_seen_loop_NoDup {A K} `{EqDecision K} (sel : A → K) seen (l : list A) :
  NoDup (sel <$> l) → (∀ x, x ∈ l → sel x ∉ seen) →
  unique_seen_loop sel seen l = l.
Proof.
  revert seen. induction l as [|x l IH]; intros seen Hnd Hseen; [done|].
  rewrite fmap_cons in Hnd. apply NoDup_cons in Hnd as [Hx Hnd].
  cbn [unique_seen_loop].
  rewrite bool_decide_eq_false_2 by (apply Hseen; left).
  f_equal. apply IH; [done|]. intros y Hy [Heq|Hin]%elem_of_cons.
  - apply Hx. rewrite <- Heq. apply list_elem_of_fmap. by exists y.
  - apply (Hseen y); [by right|done].
Qed.

(** X20: when the nodes of the graph are distinct, no atom is both in the
    execute frontier and in the revert frontier, and unseeded
    [iter_next_atoms] yields the first followed by the second, dropping
    nothing. *)
Theorem frontiers_disjoint (fuel : nat) (runtime : Runtime) (storage : Storage)
    (for_execute for_revert : list (Atom * option Decider)) :
  NoDup (nodes (execution_graph runtime)) →
  browse_atoms_for_execute fuel runtime storage None = Return for_execute →
  browse_atoms_for_revert fuel runtime storage None = Return for_revert →
  iter_next_atoms fuel runtime storage None = Return (for_execute ++ for_revert)
  ∧ ∀ a d d', (a, d) ∈ for_execute → (a, d') ∉ for_revert.
Proof.
  intros Hnd He Hr.
  assert (Hdisj : ∀ a d d', (a, d) ∈ for_execute → (a, d') ∉ for_revert).
  { intros a d d' Hae Har.
    destruct (browse_for_execute_yielded _ _ _ _ _ _ _ He Hae) as (Hre & _).
    destruct (browse_for_revert_yielded _ _ _ _ _ _ _ Hr Har) as (Hrr & _).
    apply get_maybe_ready_true in Hre as (? & ? & ? & _ & _ & Hie & _).
    apply get_maybe_ready_true in Hrr as (? & ? & ? & _ & _ & Hir & _).
    apply list_elem_of_singleton in Hie. rewrite Hie in Hir. set_solver. }
  split; [|done].
  cbn [iter_next_atoms]. rewrite He, Hr. cbn [mbind outcome_bind obind].
  f_equal. unfold unique_seen. cbn [concat]. rewrite app_nil_r.
  apply unique_seen_loop_NoDup; [|intros x _; apply not_elem_of_nil].
  assert (NoDup (iterate_nodes (execution_graph runtime) co.ATOMS)) as Hatoms
    by (by apply NoDup_filter).
  unfold browse_atoms_for_execute, browse_atoms_for_revert in He, Hr.
  cbn [mbind outcome_bind obind] in He, Hr.
  apply browse_loop_sublist in He, Hr.
  rewrite fmap_app. apply NoDup_app. split; [by eapply sublist_NoDup|].
  split; [|by eapply sublist_NoDup].
  intros a ([a1 d] & -> & Hae)%list_elem_of_fmap ([a2 d'] & Heq & Har)%list_elem_of_fmap.
  simpl in Heq. subst a2. by eapply Hdisj.
Qed.

(** X21: on a graph that contains the end points of its edges, whatever a
    seeded browse yields is also yielded by the unseeded browse: seeding
    only narrows the frontier. *)
Theorem seeded_frontier_in_global (fuel : nat) (runtime : Runtime)
    (storage : Storage) (seed : Atom) :
  closed (execution_graph runtime) →
  (∀ seeded everything,
     browse_atoms_for_execute fuel runtime storage (Some seed) = Return seeded →
     browse_atoms_for_execute fuel runtime storage None = Return everything →
     ∀ x, x ∈ seeded → x ∈ everything)
  ∧ (∀ seeded everything,
       browse_atoms_for_revert fuel runtime storage (Some seed) = Return seeded →
       browse_atoms_for_revert fuel runtime storage None = Return everything →
       ∀ x, x ∈ seeded → x ∈ everything).
Proof.
  intros Hclosed. split; intros seeded everything Hs He [a d] Hx.
  - destruct (browse_for_execute_yielded _ _ _ _ _ _ _ Hs Hx) as (Hr & Hk & Hw).
    unfold browse_atoms_for_execute in He. cbn [mbind outcome_bind obind] in He.
    apply (browse_loop_spec _ _ _ He). split; [|done].
    apply elem_of_iterate_atoms. split; [|done]. by eapply walk_in_nodes.
  - destruct (browse_for_revert_yielded _ _ _ _ _ _ _ Hs Hx) as (Hr & Hk & Hw).
    unfold browse_atoms_for_revert in He. cbn [mbind outcome_bind obind] in He.
    apply (browse_loop_spec _ _ _ He). split; [|done].
    apply elem_of_iterate_atoms. split; [|done]. by eapply walk_in_nodes.
Qed.

(** X22: on a compiled runtime, when no atom intends to revert or retry the
    unseeded revert frontier is empty, and when no atom intends to execute
    the unseeded execute frontier is empty; no walk is needed to tell. *)
Theorem frontier_needs_intention (fuel : nat) (runtime : Runtime)
    (storage : Storage) :
  compiled runtime →
  ((∀ a, a ∈ iterate_nodes (execution_graph runtime) co.ATOMS →
         get_atom_intention storage (name a) ∉ [st.REVERT; st.RETRY]) →
   browse_atoms_for_revert fuel runtime storage None = Return [])
  ∧ ((∀ a, a ∈ iterate_nodes (execution_graph runtime) co.ATOMS →
           get_atom_intention storage (name a) ≠ st.EXECUTE) →
     browse_atoms_for_execute fuel runtime storage None = Return []).
Proof.
  intros Hc. split; intros Hint.
  - unfold browse_atoms_for_revert. cbn [mbind outcome_bind obind].
    apply browse_loop_none. intros a Ha.
    pose proof Ha as [Hn Hk]%elem_of_iterate_atoms.
    destruct (Hc a Hn Hk) as (metadata & Hmd & _).
    unfold _get_maybe_ready_for_revert.
    by eapply get_maybe_ready_wrong_intention; [|apply Hint].
  - unfold browse_atoms_for_execute. cbn [mbind outcome_bind obind].
    apply browse_loop_none. intros a Ha.
    pose proof Ha as [Hn Hk]%elem_of_iterate_atoms.
    destruct (Hc a Hn Hk) as (metadata & Hmd & _).
    unfold _get_maybe_ready_for_execute.
    eapply get_maybe_ready_wrong_intention; [done|].
    intros ?%list_elem_of_singleton. by apply (Hint a).
Qed.

Lemma get_maybe_ready_local runtime storage1 storage2 atom transition_to allowed
    connected_fetcher ready_checker decider_fetcher :
  storage1 (name atom) = storage2 (name atom) →
  (∀ connected x, connected_fetcher = Return connected → x ∈ connected →
                  storage1 (name x) = storage2 (name x)) →
  _get_maybe_ready runtime storage1 atom transition_to allowed
    connected_fetcher ready_checker decider_fetcher
  = _get_maybe_ready runtime storage2 atom transition_to allowed
      connected_fetcher ready_checker decider_fetcher.
Proof.
  intros Hatom Hconn. unfold _get_maybe_ready, get_atom_state, get_atom_intention.
  rewrite Hatom.
  destruct (check_atom_transition _ _ _ _) as [[|]| |]; try done.
  cbn [mbind outcome_bind obind negb].
  destruct (negb _); [done|].
  destruct connected_fetcher as [connected| |]; [|done..].
  cbn [mbind outcome_bind obind]. rewrite !iter_connected_states_spec.
  cbn [mbind outcome_bind obind].
  assert (((λ a, (a, storage1 (name a))) <$> connected)
          = ((λ a, (a, storage2 (name a))) <$> connected)) as ->; [|done].
  apply list_fmap_ext. intros i x Hx. f_equal.
  apply (Hconn connected); [done|]. by eapply list_elem_of_lookup_2.
Qed.

(** X23: readiness is local: whether an atom is ready to execute only depends
    on its own entry in the storage and on the entries of the atoms from
    which it can be reached; whether it is ready to revert only depends on
    its own entry and on those of the atoms that can be reached from it. *)
Theorem readiness_is_local (fuel : nat) (runtime : Runtime)
    (storage1 storage2 : Storage) (atom : Atom) :
  storage1 (name atom) = storage2 (name atom) →
  ((∀ x, walk (execution_graph runtime) BACKWARD true atom x →
         kind (execution_graph runtime) x ∈ co.ATOMS →
         storage1 (name x) = storage2 (name x)) →
   _get_maybe_ready_for_execute fuel runtime storage1 atom
   = _get_maybe_ready_for_execute fuel runtime storage2 atom)
  ∧ ((∀ x, walk (execution_graph runtime) FORWARD true atom x →
           kind (execution_graph runtime) x ∈ co.ATOMS →
           storage1 (name x) = storage2 (name x)) →
     _get_maybe_ready_for_revert fuel runtime storage1 atom
     = _get_maybe_ready_for_revert fuel runtime storage2 atom).
Proof.
  intros Hatom. split; intros Hwalk.
  - unfold _get_maybe_ready_for_execute. apply get_maybe_ready_local; [done|].
    intros connected x Hc Hx.
    apply (depth_first_iterate_returns _ _ _ _ _ _ _ Hc) in Hx as [? ?].
    by apply Hwalk.
  - unfold _get_maybe_ready_for_revert. apply get_maybe_ready_local; [done|].
    intros connected x Hc Hx.
    apply (depth_first_iterate_returns _ _ _ _ _ _ _ Hc) in Hx as [? ?].
    by apply Hwalk.
Qed.

End more_frontier_sets.

Section more_retry_subflow.
Import action_engine engine_spec.

Variable iterate_connected_atoms : Runtime → Atom → list Atom.

(** X24: on a compiled runtime [retry_subflow] returns the atoms it tweaked: the
    retry first, with no state and the intention [EXECUTE], then every atom
    of the subgraph in the order enumerated, with the state [PENDING] and
    the intention [EXECUTE]. *)
Theorem retry_subflow_reports (runtime : Runtime) (retry : Atom)
    (storage : Storage) :
  compiled runtime →
  (∀ a, a ∈ iterate_connected_atoms runtime retry →
        a ∈ nodes (execution_graph runtime)
        ∧ kind (execution_graph runtime) a ∈ co.ATOMS) →
  (retry_subflow iterate_connected_atoms runtime retry storage).2
  = Return ((retry, None, Some st.EXECUTE)
            :: ((λ a, (a, Some st.PENDING, Some st.EXECUTE))
                  <$> iterate_connected_atoms runtime retry)).
Proof.
  intros Hc Hsub. unfold retry_subflow, reset_subgraph.
  unfold mbind at 1, M_bind at 1, bind at 1. rewrite reset_atoms_intention.
  unfold mbind at 1, M_bind at 1, bind at 1.
  match goal with
  | |- context [reset_atoms _ _ _ _ ?s] =>
    destruct (reset_atoms runtime (iterate_connected_atoms runtime retry)
                (Some st.PENDING) (Some st.EXECUTE) s) as [storage' o] eqn:Hr
  end.
  by apply reset_atoms_both in Hr as [-> _].
Qed.

End more_retry_subflow.

(** * Examples *)

Section graph_flow_checks.
Import graph_flow graph_flow_examples.

Example flow2_edges : g_edges (_graph flow2) = [(producer, consumer)].
Proof. vm_compute. reflexivity. Qed.

Example flow2_rejects_rival :
  add [rival] flow2 = (flow2, Raised DependencyFailure).
Proof. vm_compute. reflexivity. Qed.

Example flow2_rejects_cycle :
  link consumer producer flow2 = (flow2, Raised DependencyFailure).
Proof. vm_compute. reflexivity. Qed.

Example flow2_requires : flow_requires flow2 = ∅ ∧ flow_provides flow2 = {["x"; "y"]}.
Proof. split; vm_compute; reflexivity. Qed.

Lemma flow2_reachable : reachable flow2.
Proof.
  apply (reachable_call (CallAdd [consumer; producer]) (init "f") flow2 (Return tt)).
  - apply reachable_init.
  - vm_compute. reflexivity.
Defined.

Lemma link_add_acyclic_and_atomic_witness :
  acyclic (_graph flow2)
  ∧ ∀ c self' e, run_call c flow2 = (self', Raised e) → self' = flow2.
Proof. apply (link_add_acyclic_and_atomic flow2), flow2_reachable. Defined.

Example rival_is_duplicate : duplicate_provider flow2 [rival].
Proof.
  exists 0, rival, "x". split; [vm_compute; reflexivity|].
  split; [simpl; set_solver|].
  left. exists producer. split; [|simpl; set_solver].
  apply list_elem_of_In. vm_compute. auto.
Qed.

Lemma add_rejects_duplicates_and_links_witness :
  (∀ items, duplicate_provider flow2 items →
            add items flow2 = (flow2, Raised DependencyFailure))
  ∧ unique_providers (_graph flow2)
  ∧ dependencies_linked (_graph flow2).
Proof. apply (add_rejects_duplicates_and_links flow2), flow2_reachable. Defined.

End graph_flow_checks.

Section engine_checks.
Import action_engine engine_spec engine_examples.

Example runtime_compiled :
  compile fuel (mkRuntime graph ∅) = (runtime, Return tt).
Proof. vm_compute. reflexivity. Qed.

Example cached_deciders_R :
  fetch_edge_deciders runtime R = Return [(A, co.TASK, 7)].
Proof. vm_compute. reflexivity. Qed.

Example cached_deciders_C :
  fetch_edge_deciders runtime C = Return [(B, co.TASK, 8)].
Proof. vm_compute. reflexivity. Qed.

Example B_ready_to_execute :
  _get_maybe_ready_for_execute fuel runtime storage B
  = Return (true, Some (IgnoreDecider B [])).
Proof. vm_compute. reflexivity. Qed.

Example C_not_ready_to_execute :
  _get_maybe_ready_for_execute fuel runtime storage C = Return (false, None).
Proof. vm_compute. reflexivity. Qed.

Example next_after_R :
  iter_next_atoms fuel runtime storage (Some R)
  = Return [(B, Some (IgnoreDecider B []))].
Proof. vm_compute. reflexivity. Qed.

Example next_after_revert :
  iter_next_atoms fuel runtime storage_reverting (Some B)
  = Return [(R, Some NoOpDecider)].
Proof. vm_compute. reflexivity. Qed.

Example next_without_seed :
  iter_next_atoms fuel runtime storage_reverting None
  = Return [(R, Some NoOpDecider)].
Proof. vm_compute. reflexivity. Qed.

Example retry_subflow_R :
  (retry_subflow successors_of runtime R storage_reverting).2
  = Return [(R, None, Some st.EXECUTE);
            (B, Some st.PENDING, Some st.EXECUTE);
            (C, Some st.PENDING, Some st.EXECUTE)].
Proof. vm_compute. reflexivity. Qed.

Example not_success : is_success runtime storage = Return false.
Proof. vm_compute. reflexivity. Qed.

End engine_checks.

Section engine_witnesses.
Import action_engine engine_spec engine_examples.

Lemma graph_topological : topological graph rank.
Proof. unfold topological, graph, rank. simpl. repeat constructor. Defined.

Lemma graph_closed : closed graph.
Proof.
  unfold closed, graph. simpl.
  repeat (constructor; [split; apply list_elem_of_In; simpl; tauto|]).
  constructor.
Defined.

Lemma graph_simple : simple graph.
Proof. unfold simple. apply (bool_decide_unpack _). vm_compute. exact I. Defined.

Lemma graph_names : NoDup (name <$> iterate_nodes graph co.ATOMS).
Proof. apply (bool_decide_unpack _). vm_compute. exact I. Defined.

Lemma runtime_is_compiled : compiled runtime.
Proof.
  intros node Hn Hk. apply list_elem_of_In in Hn. simpl in Hn.
  destruct Hn as [<-|[<-|[<-|[<-|[<-|[]]]]]];
    try (eexists; split; [vm_compute; reflexivity|reflexivity]).
  exfalso. apply list_elem_of_In in Hk. simpl in Hk.
  destruct Hk as [Hk|[Hk|[]]]; discriminate Hk.
Defined.

Lemma fuel_enough direction start : walk_fuel graph rank direction start ≤ fuel.
Proof. apply walk_fuel_le_graph_fuel, graph_topological. Defined.

Lemma maybe_ready_for_execute_iff_witness :
  ∃ ready late_decider,
    _get_maybe_ready_for_execute fuel runtime storage B
      = Return (ready, late_decider)
    ∧ (ready = true ↔
         check_atom_transition runtime B
           (get_atom_state storage (name B)) st.RUNNING = Return true
         ∧ get_atom_intention storage (name B) = st.EXECUTE
         ∧ ∀ x, walk (execution_graph runtime) BACKWARD true B x →
                kind (execution_graph runtime) x ∈ co.ATOMS →
                happy (storage (name x)))
    ∧ (ready = true →
         ∃ deciders, fetch_edge_deciders runtime B = Return deciders
                     ∧ late_decider = Some (IgnoreDecider B deciders))
    ∧ (ready = false → late_decider = None).
Proof.
  apply (maybe_ready_for_execute_iff runtime storage B rank
           (metadata_for graph B []) fuel).
  - exact graph_topological.
  - vm_compute. reflexivity.
  - apply fuel_enough.
Defined.

Lemma maybe_ready_for_revert_iff_witness :
  ∃ ready late_decider,
    _get_maybe_ready_for_revert fuel runtime storage_reverting R
      = Return (ready, late_decider)
    ∧ (ready = true ↔
         check_atom_transition runtime R
           (get_atom_state storage_reverting (name R)) st.REVERTING = Return true
         ∧ get_atom_intention storage_reverting (name R) ∈ [st.REVERT; st.RETRY]
         ∧ ∀ x, walk (execution_graph runtime) FORWARD true R x →
                kind (execution_graph runtime) x ∈ co.ATOMS →
                revertable (storage_reverting (name x)))
    ∧ (ready = true → late_decider = Some NoOpDecider)
    ∧ (ready = false → late_decider = None).
Proof.
  apply (maybe_ready_for_revert_iff runtime storage_reverting R rank
           (metadata_for graph R [(A, co.TASK, 7)]) fuel).
  - exact graph_topological.
  - vm_compute. reflexivity.
  - apply fuel_enough.
Defined.

Lemma iter_next_atoms_cases_witness :
  ∃ for_execute for_revert,
    browse_atoms_for_execute fuel runtime storage None = Return for_execute
    ∧ browse_atoms_for_revert fuel runtime storage None = Return for_revert
    ∧ (∀ a d, (a, d) ∈ for_execute ↔
         a ∈ iterate_nodes (execution_graph runtime) co.ATOMS
         ∧ _get_maybe_ready_for_execute fuel runtime storage a = Return (true, d))
    ∧ (∀ a d, (a, d) ∈ for_revert ↔
         a ∈ iterate_nodes (execution_graph runtime) co.ATOMS
         ∧ _get_maybe_ready_for_revert fuel runtime storage a = Return (true, d))
    ∧ iter_next_atoms fuel runtime storage None
      = Return (first_by_name (for_execute ++ for_revert))
    ∧ ∀ seed, ∃ seed_execute seed_revert,
        browse_atoms_for_execute fuel runtime storage (Some seed)
          = Return seed_execute
        ∧ browse_atoms_for_revert fuel runtime storage (Some seed)
          = Return seed_revert
        ∧ (∀ a d, (a, d) ∈ seed_execute ↔
             (walk (execution_graph runtime) FORWARD true seed a
              ∧ kind (execution_graph runtime) a ∈ co.ATOMS)
             ∧ _get_maybe_ready_for_execute fuel runtime storage a = Return (true, d))
        ∧ (∀ a d, (a, d) ∈ seed_revert ↔
             (walk (execution_graph runtime) BACKWARD false seed a
              ∧ kind (execution_graph runtime) a ∈ co.ATOMS)
             ∧ _get_maybe_ready_for_revert fuel runtime storage a = Return (true, d))
        ∧ iter_next_atoms fuel runtime storage (Some seed)
          = Return
              match get_atom_state storage (name seed),
                    get_atom_intention storage (name seed) with
              | st.SUCCESS, st.REVERT => [(seed, Some NoOpDecider)]
              | st.SUCCESS, st.EXECUTE => seed_execute
              | st.SUCCESS, _ => []
              | st.REVERTED, _ => seed_revert
              | st.FAILURE, _ => for_revert
              | _, _ => []
              end.
Proof.
  apply (iter_next_atoms_cases runtime storage rank fuel).
  - exact graph_topological.
  - exact graph_closed.
  - exact runtime_is_compiled.
  - exact graph_names.
  - unfold fuel. simpl. lia.
Defined.

Lemma seeded_browse_breadth_first_witness :
  (∃ depth, ∀ d, depth ≤ d →
     browse_atoms_for_execute fuel runtime storage (Some A)
     = browse_loop (_get_maybe_ready_for_execute fuel runtime storage)
         (by_levels (execution_graph runtime) FORWARD true d
            (successors_iter (execution_graph runtime) A)))
  ∧ (∃ depth candidates,
       (∀ d, depth ≤ d →
          candidates = by_levels (execution_graph runtime) BACKWARD false d
                         (predecessors_iter (execution_graph runtime) A))
       ∧ browse_atoms_for_revert fuel runtime storage (Some A)
         = browse_loop (_get_maybe_ready_for_revert fuel runtime storage) candidates
       ∧ (∀ x, x ∈ candidates ↔
            walk (execution_graph runtime) BACKWARD false A x
            ∧ kind (execution_graph runtime) x ∈ co.ATOMS)
       ∧ ∀ x, x ∈ candidates →
           x ∈ predecessors_iter (execution_graph runtime) A
           ∨ ∃ y, walk (execution_graph runtime) BACKWARD false A y
                  ∧ kind (execution_graph runtime) y ≠ co.RETRY
                  ∧ x ∈ predecessors_iter (execution_graph runtime) y).
Proof.
  apply (seeded_browse_breadth_first runtime storage A rank fuel).
  - exact graph_topological.
  - unfold fuel. simpl. lia.
Defined.

Lemma walk_edge_deciders_exact_witness :
  ∃ explored,
    walk_loop fuel graph ((λ u_node, (u_node, R)) <$> predecessors_iter graph R) []
      = Return (incoming_deciders graph R ++ (explored ≫= incoming_deciders graph),
                explored)
    ∧ _walk_edge_deciders fuel graph R
      = Return (incoming_deciders graph R ++ (explored ≫= incoming_deciders graph))
    ∧ NoDup explored
    ∧ (∀ f, f ∈ explored ↔ flow_walk graph R f)
    ∧ ∀ cache,
        R ∈ nodes graph → kind graph R ∈ co.ATOMS →
        NoDup (name <$> iterate_nodes graph co.ATOMS) →
        ∃ self',
          compile fuel (mkRuntime graph cache) = (self', Return tt)
          ∧ fetch_edge_deciders self' R
            = Return (incoming_deciders graph R ++ (explored ≫= incoming_deciders graph)).
Proof.
  apply (walk_edge_deciders_exact graph R fuel).
  - exact graph_simple.
  - apply Nat.ltb_lt. vm_compute. reflexivity.
Defined.

Lemma retry_subflow_frame_witness :
  ∃ storage' tweaked,
    retry_subflow successors_of runtime R storage_reverting
      = (storage', Return tweaked)
    ∧ get_atom_intention storage' (name R) = st.EXECUTE
    ∧ get_atom_state storage' (name R) = get_atom_state storage_reverting (name R)
    ∧ (∀ a, a ∈ successors_of runtime R →
            storage' (name a) = (st.PENDING, st.EXECUTE))
    ∧ (∀ n, n ≠ name R →
            n ∉ name <$> successors_of runtime R →
            storage' n = storage_reverting n).
Proof.
  apply (retry_subflow_frame successors_of runtime R storage_reverting).
  - exact runtime_is_compiled.
  - assert (successors_of runtime R = [B; C]) as -> by (vm_compute; reflexivity).
    intros a Ha. apply list_elem_of_In in Ha. simpl in Ha.
    destruct Ha as [<-|[<-|[]]];
      (split; apply list_elem_of_In; simpl; tauto).
  - assert (successors_of runtime R = [B; C]) as -> by (vm_compute; reflexivity).
    intros Hin. apply list_elem_of_In in Hin. simpl in Hin.
    destruct Hin as [Hin|[Hin|[]]]; discriminate Hin.
Defined.

End engine_witnesses.

(** * The further properties on the concrete flows and engine *)

Section more_graph_flow_witnesses.
Import graph_flow graph_flow_rest graph_flow_examples.

Example flow4_edges :
  g_edges (_graph flow4) = [(producer, consumer); (other, producer)].
Proof. vm_compute. reflexivity. Qed.

Lemma link_returns_witness :
  g_nodes (_graph flow4) = g_nodes (_graph flow3)
  ∧ (∀ e, e ∈ g_edges (_graph flow4) ↔
          e ∈ g_edges (_graph flow3) ∨ e = (other, producer))
  ∧ link other producer flow4 = (flow4, Return tt).
Proof.
  apply (link_returns other producer flow3 flow4). vm_compute. reflexivity.
Defined.

Lemma link_rejects_cycle_witness :
  link consumer producer flow2 = (flow2, Raised DependencyFailure).
Proof.
  apply (link_rejects_cycle consumer producer flow2).
  - apply list_elem_of_In. vm_compute. auto.
  - apply list_elem_of_In. vm_compute. auto.
  - apply (bool_decide_unpack _). vm_compute. exact I.
  - right. apply path_edge. apply list_elem_of_In. vm_compute. auto.
Defined.

Lemma add_nothing_new_witness :
  add [producer; consumer] flow2 = (flow2, Return tt).
Proof.
  apply (add_nothing_new [producer; consumer] flow2).
  intros i Hi. apply list_elem_of_In in Hi. simpl in Hi.
  destruct Hi as [<-|[<-|[]]]; apply list_elem_of_In; vm_compute; auto.
Defined.

Lemma add_returns_nodes_witness :
  ∃ new,
    iter flow3 = iter flow2 ++ new
    ∧ NoDup new
    ∧ (∀ x, x ∈ new ↔ x ∈ [other] ∧ x ∉ iter flow2)
    ∧ len flow3 = len flow2 + length new.
Proof.
  apply (add_returns_nodes [other] flow2 flow3). vm_compute. reflexivity.
Defined.

Lemma add_returns_edges_witness :
  (∀ e, e ∈ g_edges (_graph (init "f")) → e ∈ g_edges (_graph flow2))
  ∧ ∀ e, e ∈ g_edges (_graph flow2) →
         e ∈ g_edges (_graph (init "f"))
         ∨ (dependency_edge e
            ∧ (e.1 ∈ [consumer; producer] ∨ e.2 ∈ [consumer; producer])).
Proof.
  apply (add_returns_edges [consumer; producer] (init "f") flow2).
  vm_compute. reflexivity.
Defined.

Lemma add_rejects_self_dependency_witness :
  add [selfish] flow2 = (flow2, Raised DependencyFailure).
Proof.
  apply (add_rejects_self_dependency [selfish] flow2 selfish "z").
  - apply list_elem_of_In. simpl. auto.
  - apply (bool_decide_unpack _). vm_compute. exact I.
  - apply (bool_decide_unpack _). vm_compute. exact I.
  - apply (bool_decide_unpack _). vm_compute. exact I.
Defined.

Lemma add_returns_provides_witness :
  flow_provides flow2
  = flow_provides (init "f") ∪ ⋃ (provides <$> [consumer; producer])
  ∧ flow_requires flow2
    = (flow_requires (init "f") ∪ ⋃ (requires <$> [consumer; producer]))
        ∖ flow_provides flow2.
Proof.
  apply (add_returns_provides [consumer; producer] (init "f") flow2).
  vm_compute. reflexivity.
Defined.

Lemma link_keeps_items_witness :
  iter flow4 = iter flow3
  ∧ flow_provides flow4 = flow_provides flow3
  ∧ flow_requires flow4 = flow_requires flow3.
Proof.
  apply (link_keeps_items other producer flow3 flow4 (Return tt)).
  vm_compute. reflexivity.
Defined.

End more_graph_flow_witnesses.

Section more_engine_witnesses.
Import action_engine engine_spec action_engine_rest engine_examples.

Lemma graph_nodes_distinct : NoDup (nodes graph).
Proof. apply (bool_decide_unpack _). vm_compute. exact I. Defined.

Example mixed_frontiers :
  iter_next_atoms fuel runtime storage_mixed None
  = Return [(B, Some (IgnoreDecider B [])); (C, Some NoOpDecider)].
Proof. vm_compute. reflexivity. Qed.

Lemma compile_caches_atoms_witness :
  ∃ cache',
    compile fuel (mkRuntime graph ∅) = (mkRuntime graph cache', Return tt)
    ∧ (∀ n, is_Some (cache' !! n) ↔
            is_Some ((∅ : gmap string Metadata) !! n)
            ∨ n ∈ name <$> iterate_nodes graph co.ATOMS)
    ∧ ∀ node, (∅ : gmap string Metadata) !! name node = None →
              name node ∉ name <$> iterate_nodes graph co.ATOMS →
              ∀ s t,
                fetch_edge_deciders (mkRuntime graph cache') node = Raised KeyError
                ∧ check_atom_transition (mkRuntime graph cache') node s t
                  = Raised KeyError.
Proof.
  apply (compile_caches_atoms graph ∅ fuel).
  apply Nat.ltb_lt. vm_compute. reflexivity.
Defined.

Lemma check_atom_transition_by_kind_witness :
  check_atom_transition runtime R st.SUCCESS st.REVERTING
  = Return (match kind graph R with
            | co.RETRY => check_retry_transition st.SUCCESS st.REVERTING
            | _ => check_task_transition st.SUCCESS st.REVERTING
            end).
Proof.
  apply (check_atom_transition_by_kind graph ∅ fuel runtime R
           st.SUCCESS st.REVERTING).
  - exact graph_names.
  - vm_compute. reflexivity.
  - apply list_elem_of_In. simpl. tauto.
  - apply list_elem_of_In. simpl. tauto.
Defined.

Lemma compile_idempotent_witness :
  compile fuel runtime = (runtime, Return tt).
Proof.
  apply (compile_idempotent fuel (mkRuntime graph ∅) runtime).
  vm_compute. reflexivity.
Defined.

Lemma reset_atoms_key_error_witness :
  ∃ storage',
    reset_atoms runtime ([A] ++ ghost :: [B]) (Some st.PENDING) (Some st.EXECUTE)
      storage = (storage', Raised KeyError)
    ∧ ∀ n, storage' n = if decide (n ∈ name <$> [A])
                        then (st.PENDING, st.EXECUTE) else storage n.
Proof.
  apply (reset_atoms_key_error runtime [A] [B] ghost st.PENDING st.EXECUTE storage).
  - exact runtime_is_compiled.
  - intros a Ha. apply list_elem_of_In in Ha. simpl in Ha.
    destruct Ha as [<-|[]]; split; apply list_elem_of_In; simpl; tauto.
  - vm_compute. reflexivity.
Defined.

Lemma reset_all_then_is_success_witness :
  ∃ storage',
    reset_all runtime (Some st.SUCCESS) (Some st.EXECUTE) storage
      = (storage',
         Return ((λ a, (a, Some st.SUCCESS, Some st.EXECUTE))
                   <$> iterate_nodes (execution_graph runtime) co.ATOMS))
    ∧ (∀ a, a ∈ iterate_nodes (execution_graph runtime) co.ATOMS →
            storage' (name a) = (st.SUCCESS, st.EXECUTE))
    ∧ (∀ n, n ∉ name <$> iterate_nodes (execution_graph runtime) co.ATOMS →
            storage' n = storage n)
    ∧ is_success runtime storage'
      = Return (bool_decide (st.SUCCESS ∈ [st.SUCCESS; st.IGNORE]
                             ∨ iterate_nodes (execution_graph runtime) co.ATOMS = [])).
Proof.
  apply (reset_all_then_is_success runtime st.SUCCESS st.EXECUTE storage).
  exact runtime_is_compiled.
Defined.

Lemma execute_frontier_respects_dependencies_witness :
  get_atom_intention storage (name B) = st.EXECUTE
  ∧ ∀ x, walk (execution_graph runtime) BACKWARD true B x →
         kind (execution_graph runtime) x ∈ co.ATOMS →
         happy (storage (name x)).
Proof.
  apply (execute_frontier_respects_dependencies fuel runtime storage (Some R)
           [(B, Some (IgnoreDecider B []))] B (Some (IgnoreDecider B []))).
  - vm_compute. reflexivity.
  - apply list_elem_of_In. simpl. tauto.
Defined.

Lemma revert_frontier_respects_dependents_witness :
  get_atom_intention storage_reverting (name R) ∈ [st.REVERT; st.RETRY]
  ∧ Some NoOpDecider = Some NoOpDecider
  ∧ ∀ x, walk (execution_graph runtime) FORWARD true R x →
         kind (execution_graph runtime) x ∈ co.ATOMS →
         revertable (storage_reverting (name x)).
Proof.
  apply (revert_frontier_respects_dependents fuel runtime storage_reverting
           (Some B) [(R, Some NoOpDecider)] R (Some NoOpDecider)).
  - vm_compute. reflexivity.
  - apply list_elem_of_In. simpl. tauto.
Defined.

Lemma frontiers_disjoint_witness :
  iter_next_atoms fuel runtime storage_mixed None
  = Return ([(B, Some (IgnoreDecider B []))] ++ [(C, Some NoOpDecider)])
  ∧ ∀ a d d', (a, d) ∈ [(B, Some (IgnoreDecider B []))] →
              (a, d') ∉ [(C, Some NoOpDecider)].
Proof.
  apply (frontiers_disjoint fuel runtime storage_mixed
           [(B, Some (IgnoreDecider B []))] [(C, Some NoOpDecider)]).
  - exact graph_nodes_distinct.
  - vm_compute. reflexivity.
  - vm_compute. reflexivity.
Defined.

Lemma seeded_frontier_in_global_witness :
  (∀ seeded everything,
     browse_atoms_for_execute fuel runtime storage (Some R) = Return seeded →
     browse_atoms_for_execute fuel runtime storage None = Return everything →
     ∀ x, x ∈ seeded → x ∈ everything)
  ∧ (∀ seeded everything,
       browse_atoms_for_revert fuel runtime storage (Some R) = Return seeded →
       browse_atoms_for_revert fuel runtime storage None = Return everything →
       ∀ x, x ∈ seeded → x ∈ everything).
Proof.
  apply (seeded_frontier_in_global fuel runtime storage R). exact graph_closed.
Defined.

Lemma frontier_needs_intention_witness :
  ((∀ a, a ∈ iterate_nodes (execution_graph runtime) co.ATOMS →
         get_atom_intention storage (name a) ∉ [st.REVERT; st.RETRY]) →
   browse_atoms_for_revert fuel runtime storage None = Return [])
  ∧ ((∀ a, a ∈ iterate_nodes (execution_graph runtime) co.ATOMS →
           get_atom_intention storage (name a) ≠ st.EXECUTE) →
     browse_atoms_for_execute fuel runtime storage None = Return []).
Proof.
  apply (frontier_needs_intention fuel runtime storage).
  exact runtime_is_compiled.
Defined.

Lemma readiness_is_local_witness :
  ((∀ x, walk (execution_graph runtime) BACKWARD true C x →
         kind (execution_graph runtime) x ∈ co.ATOMS →
         storage (name x) = storage_reverting (name x)) →
   _get_maybe_ready_for_execute fuel runtime storage C
   = _get_maybe_ready_for_execute fuel runtime storage_reverting C)
  ∧ ((∀ x, walk (execution_graph runtime) FORWARD true C x →
           kind (execution_graph runtime) x ∈ co.ATOMS →
           storage (name x) = storage_reverting (name x)) →
     _get_maybe_ready_for_revert fuel runtime storage C
     = _get_maybe_ready_for_revert fuel runtime storage_reverting C).
Proof.
  apply (readiness_is_local fuel runtime storage storage_reverting C).
  vm_compute. reflexivity.
Defined.

Lemma retry_subflow_reports_witness :
  (retry_subflow successors_of runtime R storage_reverting).2
  = Return ((R, None, Some st.EXECUTE)
            :: ((λ a, (a, Some st.PENDING, Some st.EXECUTE))
                  <$> successors_of runtime R)).
Proof.
  apply (retry_subflow_reports successors_of runtime R storage_reverting).
  - exact runtime_is_compiled.
  - assert (successors_of runtime R = [B; C]) as -> by (vm_compute; reflexivity).
    intros a Ha. apply list_elem_of_In in Ha. simpl in Ha.
    destruct Ha as [<-|[<-|[]]];
      (split; apply list_elem_of_In; simpl; tauto).
Defined.

End more_engine_witnesses.
